(** * Language-independent IR lowering passes of the GraphQL compiler

    A shallow embedding of [graphql_compiler/compiler/ir_lowering_common/common.py]
    and the properties its specification states about it.

    Python lists are [list]s whose end is the end of the Python list ([append]
    is [++ [x]], [l[-1]] is [last l], [pop()] is [removelast]); Python dicts
    are insertion-ordered association lists with unique keys; a raised
    exception is the [Raise] case of [result]. *)

From Stdlib Require Import Lia.
From stdpp Require Import base tactics option list strings.

Local Open Scope string_scope.
Local Open Scope list_scope.

(** ** Exceptions *)

(** The exceptions the module raises, and the ones its helpers may. *)
Inductive Exception : Type :=
| AssertionError
| ValueError
| IndexError
| KeyError
| TypeError
| OtherException (name : string).

Inductive result (A : Type) : Type :=
| Ok (a : A)
| Raise (e : Exception).

Arguments Ok {A} a.
Arguments Raise {A} e.

Definition bind {A B : Type} (c : result A) (k : A → result B) : result B :=
  match c with
  | Ok a => k a
  | Raise e => Raise e
  end.

Notation "'do' x <- c ; k" := (bind c (fun x => k))
  (at level 10, x pattern, c at level 100, k at level 200).

(** A [for] loop whose body may raise. *)
Fixpoint for_each {S B : Type} (body : S → B → result S) (st : S) (l : list B)
  : result S :=
  match l with
  | [] => Ok st
  | b :: l' => do st' <- body st b; for_each body st' l'
  end.

(** ** Dictionaries (insertion ordered) *)

Definition dict (K V : Type) : Type := list (K * V).

(** [d[k] = v]: an existing key keeps its place, a new key goes last. *)
Fixpoint dict_set {K V : Type} `{EqDecision K} (d : dict K V) (k : K) (v : V)
  : dict K V :=
  match d with
  | [] => [(k, v)]
  | (k', v') :: d' =>
      if decide (k = k') then (k', v) :: d' else (k', v') :: dict_set d' k v
  end.

Fixpoint dict_get {K V : Type} `{EqDecision K} (d : dict K V) (k : K) : option V :=
  match d with
  | [] => None
  | (k', v') :: d' => if decide (k = k') then Some v' else dict_get d' k
  end.

Definition dict_keys {K V : Type} (d : dict K V) : list K := fst <$> d.

(** ** Data model *)

(** Modelled from the spec: [Location] (helpers.py is not part of the sources
    at hand) is an identifier of a traversal position that optionally carries
    a field component; [get_location_name] gives the mark name of the position
    and the field. *)
Record Location : Type := mkLocation {
  mark_name : string;
  field : option string
}.

Definition get_location_name (l : Location) : string * option string :=
  (mark_name l, field l).

(** Modelled from the spec: [FoldScopeLocation], the key of a folded scope. *)
Record FoldScopeLocation : Type := mkFoldScopeLocation {
  base_location : Location;
  fold_path : string
}.

Definition GraphQLType : Type := string.

(** What the metadata table knows about a location. *)
Record LocationInfo : Type := mkLocationInfo {
  type : GraphQLType
}.

(** Modelled from the spec: the expression variants of expressions.py that the
    passes name. A constructor builds a value; what makes a value presentable
    is told by the [validate] of its variant, a function of its own (see
    [OutputContextVertex_validate]). *)
Inductive Expression : Type :=
| BinaryComposition (operator : string) (left right : Expression)
| ContextField (location : Location) (field_type : GraphQLType)
| ContextFieldExistence (location : Location)
| OutputContextVertex (location : Location) (field_type : GraphQLType)
| NullLiteral
| TrueLiteral
| FalseLiteral.

(** Modelled from the spec: the block variants of blocks.py that the passes
    name. *)
Inductive Block : Type :=
| MarkLocation (location : Location)
| Traverse (edge_field : string) (optional : bool)
| Recurse (edge_field : string) (depth : nat)
| Filter (predicate : Expression)
| Fold (fold_scope_location : FoldScopeLocation)
| Unfold
| EndOptional
| ConstructResult (fields : list (string * Expression)).

#[global] Instance Exception_eq_dec : EqDecision Exception.
Proof. solve_decision. Defined.

#[global] Instance Location_eq_dec : EqDecision Location.
Proof. solve_decision. Defined.

#[global] Instance FoldScopeLocation_eq_dec : EqDecision FoldScopeLocation.
Proof. solve_decision. Defined.

#[global] Instance Expression_eq_dec : EqDecision Expression.
Proof. solve_decision. Defined.

(** Modelled from the spec: the rewrite capability of expressions, "rewrite
    children, then apply the rewrite function to self". *)
Fixpoint visit_and_update (visitor_fn : Expression → Expression) (e : Expression)
  : Expression :=
  match e with
  | BinaryComposition op l r =>
      visitor_fn (BinaryComposition op (visit_and_update visitor_fn l)
                                       (visit_and_update visitor_fn r))
  | _ => visitor_fn e
  end.

(** Modelled from the spec: the rewrite capability of blocks, applied to every
    expression the block holds and giving a block of the same kind. *)
Definition visit_and_update_expressions (visitor_fn : Expression → Expression)
    (b : Block) : Block :=
  match b with
  | Filter p => Filter (visit_and_update visitor_fn p)
  | ConstructResult fields =>
      ConstructResult (prod_map id (visit_and_update visitor_fn) <$> fields)
  | _ => b
  end.

(** Modelled from the spec: the same capability for a rewrite function that
    may raise, as one that builds expressions does (an expression is validated
    when it is built): the children are rewritten from left to right, then
    the function is applied to the node, and what is raised first is raised. *)
Fixpoint visit_and_update_or_raise (visitor_fn : Expression → result Expression)
    (e : Expression) : result Expression :=
  match e with
  | BinaryComposition op l r =>
      do new_left <- visit_and_update_or_raise visitor_fn l;
      do new_right <- visit_and_update_or_raise visitor_fn r;
      visitor_fn (BinaryComposition op new_left new_right)
  | _ => visitor_fn e
  end.

(** Modelled from the spec: the rewrite capability of blocks for such a
    function; the fields of a [ConstructResult] are rewritten in their order. *)
Definition visit_and_update_expressions_or_raise
    (visitor_fn : Expression → result Expression) (b : Block) : result Block :=
  match b with
  | Filter p =>
      do new_predicate <- visit_and_update_or_raise visitor_fn p;
      Ok (Filter new_predicate)
  | ConstructResult fields =>
      do new_fields <-
        for_each (fun new_fields '(key, expression) =>
                    do new_expression <-
                      visit_and_update_or_raise visitor_fn expression;
                    Ok (new_fields ++ [(key, new_expression)]))
                 [] fields;
      Ok (ConstructResult new_fields)
  | _ => Ok b
  end.

(** Modelled from the spec: the name of the edge field a traversal block
    carries; the passes ask it of [Traverse] blocks only. *)
Definition get_field_name (b : Block) : string :=
  match b with
  | Traverse edge_field _ => edge_field
  | Recurse edge_field _ => edge_field
  | _ => ""
  end.

(** [isinstance] tests. *)
Definition is_Filter (b : Block) : bool :=
  match b with Filter _ => true | _ => false end.

Definition is_ConstructResult (b : Block) : bool :=
  match b with ConstructResult _ => true | _ => false end.

Definition is_BinaryComposition (e : Expression) : bool :=
  match e with BinaryComposition _ _ _ => true | _ => false end.

(** ** merge_consecutive_filter_clauses *)

Definition merge_step (new_ir_blocks : list Block) (block : Block) : list Block :=
  match last new_ir_blocks, block with
  | Some (Filter last_predicate), Filter predicate =>
      <[pred (length new_ir_blocks) :=
          Filter (BinaryComposition "&&" last_predicate predicate)]> new_ir_blocks
  | _, _ => new_ir_blocks ++ [block]
  end.

Definition merge_consecutive_filter_clauses (ir_blocks : list Block) : list Block :=
  match ir_blocks with
  | [] => ir_blocks
  | first :: rest => foldl merge_step [first] rest
  end.

(** ** OutputContextVertex *)

Section OutputContextVertex.

(** The validation of the base class [ContextField] and the safe-string
    check of helpers.py are not part of the sources at hand: they are
    taken as they come. *)
Variable ContextField_validate : Location → GraphQLType → result unit.
Variable validate_safe_string : string → result unit.

Definition OutputContextVertex_validate (location : Location)
    (field_type : GraphQLType) : result unit :=
  do _ <- ContextField_validate location field_type;
  match field location with
  | Some _ => Raise ValueError
  | None => Ok tt
  end.

Definition to_match (location : Location) (field_type : GraphQLType)
  : result string :=
  do _ <- OutputContextVertex_validate location field_type;
  let '(mark_name, field_name) := get_location_name location in
  do _ <- validate_safe_string mark_name;
  match field_name with
  | Some _ => Raise AssertionError
  | None => Ok mark_name
  end.

End OutputContextVertex.

(** ** lower_context_field_existence *)

Section Lowering.

Variable get_location_info : Location → LocationInfo.

(** A vertex reference is validated when it is built. The validation of the
    base class [ContextField] is not part of the sources at hand: it is taken
    as it comes; the one of [OutputContextVertex] is the one above. *)
Variable ContextField_validate : Location → GraphQLType → result unit.

(** Modelled from the spec: [ContextField(location, field_type)]. *)
Definition new_ContextField (location : Location) (field_type : GraphQLType)
  : result Expression :=
  do _ <- ContextField_validate location field_type;
  Ok (ContextField location field_type).

(** Modelled from the spec: [OutputContextVertex(location, field_type)], which
    fails for a location that carries a field component. *)
Definition new_OutputContextVertex (location : Location) (field_type : GraphQLType)
  : result Expression :=
  do _ <- OutputContextVertex_validate ContextField_validate location field_type;
  Ok (OutputContextVertex location field_type).

Definition regular_visitor_fn (expression : Expression) : result Expression :=
  match expression with
  | ContextFieldExistence location =>
      let location_type := type (get_location_info location) in
      do reference <- new_ContextField location location_type;
      Ok (BinaryComposition "!=" reference NullLiteral)
  | _ => Ok expression
  end.

Definition construct_result_visitor_fn (expression : Expression)
  : result Expression :=
  match expression with
  | ContextFieldExistence location =>
      let location_type := type (get_location_info location) in
      do reference <- new_OutputContextVertex location location_type;
      Ok (BinaryComposition "!=" reference NullLiteral)
  | _ => Ok expression
  end.

Definition lower_context_field_existence (ir_blocks : list Block)
  : result (list Block) :=
  for_each (fun new_ir_blocks block =>
              do new_block <-
                (if is_ConstructResult block
                 then visit_and_update_expressions_or_raise
                        construct_result_visitor_fn block
                 else visit_and_update_expressions_or_raise
                        regular_visitor_fn block);
              Ok (new_ir_blocks ++ [new_block]))
           [] ir_blocks.

End Lowering.

(** ** optimize_boolean_expression_comparisons *)

Definition operator_inverses : dict string string :=
  [("=", "!="); ("!=", "=")].

Definition visitor_fn (expression : Expression) : Expression :=
  match expression with
  | BinaryComposition operator left_side right_side =>
      let left_is_binary_composition := is_BinaryComposition left_side in
      let right_is_binary_composition := is_BinaryComposition right_side in
      if negb left_is_binary_composition && negb right_is_binary_composition
      then expression
      else
        let literals :=
          if decide (operator = "=") then Some (TrueLiteral, FalseLiteral)
          else if decide (operator = "!=") then Some (FalseLiteral, TrueLiteral)
          else None in
        match literals with
        | None => expression
        | Some (identity_literal, inverse_literal) =>
            if bool_decide (left_side = identity_literal) && right_is_binary_composition
            then right_side
            else if bool_decide (right_side = identity_literal) && left_is_binary_composition
            then left_side
            else
              let expression_to_rewrite :=
                if bool_decide (left_side = inverse_literal) && right_is_binary_composition
                then Some right_side
                else if bool_decide (right_side = inverse_literal) && left_is_binary_composition
                then Some left_side
                else None in
              match expression_to_rewrite with
              | Some (BinaryComposition inner_operator inner_left inner_right) =>
                  match dict_get operator_inverses inner_operator with
                  | None => expression
                  | Some inverse => BinaryComposition inverse inner_left inner_right
                  end
              | _ => expression
              end
        end
  | _ => expression
  end.

Definition optimize_boolean_expression_comparisons (ir_blocks : list Block)
  : list Block :=
  foldl (fun new_ir_blocks block =>
           new_ir_blocks ++ [visit_and_update_expressions visitor_fn block])
        [] ir_blocks.

(** ** extract_folds_from_ir_blocks *)

Record FoldState : Type := mkFoldState {
  folds : dict FoldScopeLocation (list Block);
  remaining_ir_blocks : list Block;
  current_folded_blocks : list Block;
  in_fold_location : option FoldScopeLocation
}.

Definition extract_folds_step (st : FoldState) (block : Block) : result FoldState :=
  match block with
  | Fold fold_scope_location =>
      match in_fold_location st with
      | Some _ => Raise AssertionError
      | None =>
          Ok (mkFoldState (folds st) (remaining_ir_blocks st)
                (current_folded_blocks st) (Some fold_scope_location))
      end
  | Unfold =>
      match in_fold_location st with
      | None => Raise AssertionError
      | Some location =>
          Ok (mkFoldState (dict_set (folds st) location (current_folded_blocks st))
                (remaining_ir_blocks st) [] None)
      end
  | _ =>
      match in_fold_location st with
      | Some _ =>
          Ok (mkFoldState (folds st) (remaining_ir_blocks st)
                (current_folded_blocks st ++ [block]) (in_fold_location st))
      | None =>
          Ok (mkFoldState (folds st) (remaining_ir_blocks st ++ [block])
                (current_folded_blocks st) (in_fold_location st))
      end
  end.

Definition extract_folds_init : FoldState := mkFoldState [] [] [] None.

Definition extract_folds_from_ir_blocks (ir_blocks : list Block)
  : result (dict FoldScopeLocation (list Block) * list Block) :=
  do st <- for_each extract_folds_step extract_folds_init ir_blocks;
  Ok (folds st, remaining_ir_blocks st).

(** ** List operations that raise on the empty list *)

(** [l[-1]] *)
Definition get_last {A : Type} (l : list A) : result A :=
  match last l with
  | Some x => Ok x
  | None => Raise IndexError
  end.

(** [l[-1] = v] *)
Definition set_last {A : Type} (l : list A) (v : A) : result (list A) :=
  match l with
  | [] => Raise IndexError
  | _ => Ok (<[pred (length l) := v]> l)
  end.

(** [l.pop()] *)
Definition pop {A : Type} (l : list A) : result (list A) :=
  match l with
  | [] => Raise IndexError
  | _ => Ok (removelast l)
  end.

(** ** extract_optional_location_root_info *)

Record OptionalState : Type := mkOptionalState {
  complex_optional_roots : list Location;
  location_to_optional_roots : dict Location (list Location);
  in_optional_root_locations : list Location;
  encountered_traverse_within_optional : list bool;
  preceding_location : option Location
}.

Definition is_Traverse_or_Recurse (b : Block) : bool :=
  match b with
  | Traverse _ _ | Recurse _ _ => true
  | _ => false
  end.

Definition optional_root_step (st : OptionalState) (current_block : Block)
  : result OptionalState :=
  let complex := complex_optional_roots st in
  let mapping := location_to_optional_roots st in
  let roots := in_optional_root_locations st in
  let preceding := preceding_location st in
  do encountered <-
    (if bool_decide (0 < length roots) && is_Traverse_or_Recurse current_block
     then set_last (encountered_traverse_within_optional st) true
     else Ok (encountered_traverse_within_optional st));
  match current_block with
  | Traverse _ true =>
      match preceding with
      | None => Raise AssertionError
      | Some location =>
          Ok (mkOptionalState complex mapping (roots ++ [location])
                (encountered ++ [false]) preceding)
      end
  | EndOptional =>
      if bool_decide (length roots = 0) then Raise AssertionError
      else
        do flag <- get_last encountered;
        do complex' <-
          (if flag : bool
           then do root <- get_last roots; Ok (complex ++ [root])
           else Ok complex);
        do roots' <- pop roots;
        do encountered' <- pop encountered;
        Ok (mkOptionalState complex' mapping roots' encountered' preceding)
  | MarkLocation location =>
      let mapping' :=
        if bool_decide (length roots ≠ 0)
        then dict_set mapping location roots
        else mapping in
      Ok (mkOptionalState complex mapping' roots encountered (Some location))
  | _ => Ok (mkOptionalState complex mapping roots encountered preceding)
  end.

Definition optional_root_init : OptionalState := mkOptionalState [] [] [] [] None.

Definition extract_optional_location_root_info (ir_blocks : list Block)
  : result (list Location * dict Location (list Location)) :=
  do (_, non_folded_ir_blocks) <- extract_folds_from_ir_blocks ir_blocks;
  do st <- for_each optional_root_step optional_root_init non_folded_ir_blocks;
  Ok (complex_optional_roots st, location_to_optional_roots st).

(** ** extract_simple_optional_location_info *)

Record SimpleOptionalInfo : Type := mkSimpleOptionalInfo {
  inner_location_name : string;
  edge_field : string
}.

(** [{location: stack[-1] for location, stack in location_to_optional_roots}] *)
Definition location_to_preceding_optional_root
    (location_to_optional_roots : dict Location (list Location))
  : result (dict Location Location) :=
  for_each (fun d '(location, optional_root_locations_stack) =>
              do root <- get_last optional_root_locations_stack;
              Ok (dict_set d location root))
           [] location_to_optional_roots.

(** [{root: inner for inner, root in items if root not in complex_optional_roots}] *)
Definition simple_optional_root_to_inner_location
    (complex_optional_roots : list Location) (items : dict Location Location)
  : dict Location Location :=
  foldl (fun d '(inner_location, optional_root_location) =>
           if bool_decide (optional_root_location ∈ complex_optional_roots)
           then d
           else dict_set d optional_root_location inner_location)
        [] items.

Definition simple_optional_step (root_to_inner : dict Location Location)
    (st : dict Location SimpleOptionalInfo * option Location) (current_block : Block)
  : result (dict Location SimpleOptionalInfo * option Location) :=
  let '(simple_optional_root_info, preceding) := st in
  match current_block with
  | MarkLocation location => Ok (simple_optional_root_info, Some location)
  | Traverse _ true =>
      match preceding with
      | Some root =>
          if bool_decide (root ∈ dict_keys root_to_inner)
          then
            do inner_location <-
              (match dict_get root_to_inner root with
               | Some inner => Ok inner
               | None => Raise KeyError
               end);
            let '(inner_location_name, _) := get_location_name inner_location in
            let simple_optional_info_dict :=
              mkSimpleOptionalInfo inner_location_name
                (get_field_name current_block) in
            Ok (dict_set simple_optional_root_info root simple_optional_info_dict,
                preceding)
          else Ok st
      | None => Ok st
      end
  | _ => Ok st
  end.

Definition extract_simple_optional_location_info (ir_blocks : list Block)
    (complex_optional_roots : list Location)
    (location_to_optional_roots : dict Location (list Location))
  : result (dict Location SimpleOptionalInfo) :=
  do items <- location_to_preceding_optional_root location_to_optional_roots;
  let root_to_inner :=
    simple_optional_root_to_inner_location complex_optional_roots items in
  do (_, non_folded_ir_blocks) <- extract_folds_from_ir_blocks ir_blocks;
  do st <- for_each (simple_optional_step root_to_inner) ([], None)
             non_folded_ir_blocks;
  Ok (fst st).

(** * Vocabulary of the specification *)

(** ** Filter runs *)

Definition starts_with_Filter (l : list Block) : bool :=
  match l with
  | b :: _ => is_Filter b
  | [] => false
  end.

Definition ends_with_Filter (l : list Block) : bool :=
  match last l with
  | Some b => is_Filter b
  | None => false
  end.

(** The predicates of a run, and-ed from the left: [((p && q1) && q2) ...]. *)
Definition conjunction (p : Expression) (qs : list Expression) : Expression :=
  foldl (BinaryComposition "&&") p qs.

(** A sequence cut into pieces: a run of consecutive [Filter]s, given by its
    predicates, or one block that is no [Filter]. *)
Inductive Piece : Type :=
| FilterRun (p : Expression) (qs : list Expression)
| Other (b : Block).

Definition piece_blocks (s : Piece) : list Block :=
  match s with
  | FilterRun p qs => Filter p :: (Filter <$> qs)
  | Other b => [b]
  end.

(** What a piece becomes: a run its one [Filter], another block itself. *)
Definition piece_merged (s : Piece) : Block :=
  match s with
  | FilterRun p qs => Filter (conjunction p qs)
  | Other b => b
  end.

(** The runs are maximal: no two runs are neighbours, and no [Other] piece is
    a [Filter]. *)
Fixpoint maximal_runs (pieces : list Piece) : bool :=
  match pieces with
  | [] => true
  | FilterRun _ _ :: rest =>
      match rest with
      | FilterRun _ _ :: _ => false
      | _ => maximal_runs rest
      end
  | Other b :: rest => negb (is_Filter b) && maximal_runs rest
  end.

(** ** Expressions held by a block, and existence tests in them *)

Definition expressions_of (b : Block) : list Expression :=
  match b with
  | Filter p => [p]
  | ConstructResult fields => snd <$> fields
  | _ => []
  end.

Fixpoint mentions_existence (e : Expression) : bool :=
  match e with
  | ContextFieldExistence _ => true
  | BinaryComposition _ l r => mentions_existence l || mentions_existence r
  | _ => false
  end.

(** The lowering as the specification words it: every existence test becomes
    a comparison of a vertex reference with null, nothing else changes. *)
Fixpoint lowered (get_location_info : Location → LocationInfo)
    (vertex_reference : Location → GraphQLType → Expression) (e : Expression)
  : Expression :=
  match e with
  | ContextFieldExistence location =>
      BinaryComposition "!="
        (vertex_reference location (type (get_location_info location))) NullLiteral
  | BinaryComposition op l r =>
      BinaryComposition op (lowered get_location_info vertex_reference l)
                           (lowered get_location_info vertex_reference r)
  | _ => e
  end.

Definition lowered_block (get_location_info : Location → LocationInfo) (b : Block)
  : Block :=
  match b with
  | ConstructResult fields =>
      ConstructResult
        (prod_map id (lowered get_location_info OutputContextVertex) <$> fields)
  | Filter p => Filter (lowered get_location_info ContextField p)
  | _ => b
  end.

(** The locations of the existence tests of an expression, from left to
    right. *)
Fixpoint existence_locations (e : Expression) : list Location :=
  match e with
  | ContextFieldExistence location => [location]
  | BinaryComposition _ l r => existence_locations l ++ existence_locations r
  | _ => []
  end.

(** The locations of which the lowering of a block builds a [ContextField]. *)
Definition context_field_locations (b : Block) : list Location :=
  match b with
  | Filter p => existence_locations p
  | _ => []
  end.

(** The locations of which the lowering of a block builds an
    [OutputContextVertex]. *)
Definition output_vertex_locations (b : Block) : list Location :=
  match b with
  | ConstructResult fields =>
      fields ≫= fun f => existence_locations (snd f)
  | _ => []
  end.

(** The vertex references that the lowering of a block builds pass their
    validation. *)
Definition references_valid (get_location_info : Location → LocationInfo)
    (ContextField_validate : Location → GraphQLType → result unit) (b : Block)
  : Prop :=
  Forall (fun l => ContextField_validate l (type (get_location_info l)) = Ok tt)
    (context_field_locations b)
  ∧ Forall (fun l =>
              OutputContextVertex_validate ContextField_validate l
                (type (get_location_info l)) = Ok tt)
      (output_vertex_locations b).

(** ** Boolean literals of a comparison *)

Definition is_boolean_literal (e : Expression) : bool :=
  match e with
  | TrueLiteral | FalseLiteral => true
  | _ => false
  end.

Definition identity_literal_of (operator : string) : option Expression :=
  if decide (operator = "=") then Some TrueLiteral
  else if decide (operator = "!=") then Some FalseLiteral
  else None.

Definition inverse_literal_of (operator : string) : option Expression :=
  if decide (operator = "=") then Some FalseLiteral
  else if decide (operator = "!=") then Some TrueLiteral
  else None.

Definition inverted (operator : string) : option string :=
  if decide (operator = "=") then Some "!="
  else if decide (operator = "!=") then Some "="
  else None.

(** ** Fold scopes *)

Definition is_fold_marker (b : Block) : bool :=
  match b with
  | Fold _ | Unfold => true
  | _ => false
  end.

Definition marker_free (l : list Block) : bool :=
  forallb (fun b => negb (is_fold_marker b)) l.

(** A fold scope is open after [pre] when the last fold marker of [pre] is a
    [Fold]. *)
Definition inside_fold (pre : list Block) : bool :=
  match last (filter (fun b => is_fold_marker b = true) pre) with
  | Some (Fold _) => true
  | _ => false
  end.

(** The two mismatches the markers can show while they are read: a [Fold]
    inside an open fold scope, an [Unfold] outside of one. *)
Definition fold_mismatch (l : list Block) : Prop :=
  (∃ pre f post, l = pre ++ Fold f :: post ∧ inside_fold pre = true)
  ∨ (∃ pre post, l = pre ++ Unfold :: post ∧ inside_fold pre = false).

(** Every [Fold] is closed by one [Unfold] before another [Fold] opens. *)
Fixpoint folds_well_nested_from (inside : bool) (l : list Block) : bool :=
  match l with
  | [] => negb inside
  | Fold _ :: l' => negb inside && folds_well_nested_from true l'
  | Unfold :: l' => inside && folds_well_nested_from false l'
  | _ :: l' => folds_well_nested_from inside l'
  end.

Definition folds_well_nested (l : list Block) : bool :=
  folds_well_nested_from false l.

Definition fold_scope_locations (l : list Block) : list FoldScopeLocation :=
  omap (fun b => match b with Fold f => Some f | _ => None end) l.

(** The blocks of a sequence outside of its fold scopes, the markers left
    out; [inside] tells whether a fold scope is open where the sequence
    starts. *)
Fixpoint blocks_outside_folds (inside : bool) (l : list Block) : list Block :=
  match l with
  | [] => []
  | Fold _ :: l' => blocks_outside_folds true l'
  | Unfold :: l' => blocks_outside_folds false l'
  | b :: l' =>
      if inside then blocks_outside_folds inside l'
      else b :: blocks_outside_folds inside l'
  end.

(** A fold scope as it lies in a sequence: its location, the blocks between
    its markers, and the blocks after its [Unfold] up to the next [Fold]. *)
Record FoldScope : Type := mkFoldScope {
  scope_location : FoldScopeLocation;
  scope_body : list Block;
  scope_after : list Block
}.

(** The pieces of a fold scope hold no fold marker. *)
Definition scope_pieces_marker_free (s : FoldScope) : Prop :=
  marker_free (scope_body s) = true ∧ marker_free (scope_after s) = true.

Fixpoint splice (scopes : list FoldScope) : list Block :=
  match scopes with
  | [] => []
  | s :: rest =>
      Fold (scope_location s) :: scope_body s ++ Unfold :: scope_after s ++ splice rest
  end.

Definition scope_folds (scopes : list FoldScope)
  : dict FoldScopeLocation (list Block) :=
  (fun s => (scope_location s, scope_body s)) <$> scopes.

Definition outside_folds (before : list Block) (scopes : list FoldScope)
  : list Block :=
  before ++ concat (scope_after <$> scopes).

(** Where the fold scopes were: for each, the number of blocks outside of
    fold scopes between the scope before it (or the start) and its [Fold]. *)
Fixpoint fold_positions (gap : nat) (scopes : list FoldScope)
  : list (nat * FoldScopeLocation) :=
  match scopes with
  | [] => []
  | s :: rest => (gap, scope_location s) :: fold_positions (length (scope_after s)) rest
  end.

(** Putting the extracted folds back between fresh markers at these places. *)
Fixpoint resplice (folds : dict FoldScopeLocation (list Block))
    (positions : list (nat * FoldScopeLocation)) (remaining : list Block)
  : option (list Block) :=
  match positions with
  | [] => Some remaining
  | (gap, f) :: positions' =>
      match dict_get folds f, resplice folds positions' (drop gap remaining) with
      | Some body, Some rest => Some (take gap remaining ++ Fold f :: body ++ Unfold :: rest)
      | _, _ => None
      end
  end.

(** ** Optional scopes *)

Definition is_optional_Traverse (b : Block) : bool :=
  match b with
  | Traverse _ optional => optional
  | _ => false
  end.

Definition is_EndOptional (b : Block) : bool :=
  match b with
  | EndOptional => true
  | _ => false
  end.

(** The number of optional scopes open after [l] when [d] were open before
    it; nothing when an [EndOptional] of [l] has no scope to close. *)
Fixpoint scope_depth (d : nat) (l : list Block) : option nat :=
  match l with
  | [] => Some d
  | b :: l' =>
      if is_optional_Traverse b then scope_depth (S d) l'
      else if is_EndOptional b
           then match d with
                | 0 => None
                | S d' => scope_depth d' l'
                end
           else scope_depth d l'
  end.

(** Every optional [Traverse] of [l] is closed by one [EndOptional] of [l],
    and every [EndOptional] closes one. *)
Definition balanced (l : list Block) : bool :=
  bool_decide (scope_depth 0 l = Some 0).

Definition marked_locations (l : list Block) : list Location :=
  omap (fun b => match b with MarkLocation x => Some x | _ => None end) l.

(** The location marked last in [l]. *)
Definition last_marked (l : list Block) : option Location :=
  last (marked_locations l).

(** A [MarkLocation] comes before every optional [Traverse]. *)
Fixpoint marks_precede (seen : bool) (l : list Block) : bool :=
  match l with
  | [] => true
  | MarkLocation _ :: l' => marks_precede true l'
  | Traverse _ true :: l' => seen && marks_precede seen l'
  | _ :: l' => marks_precede seen l'
  end.

Definition optionals_well_nested (l : list Block) : bool :=
  balanced l && marks_precede false l.

Definition has_traversal (l : list Block) : bool :=
  existsb is_Traverse_or_Recurse l.

(** [enclosing_roots pre roots]: the optional scopes still open after [pre]
    have the roots [roots], the outermost scope first. An open scope starts at
    an optional [Traverse] that what follows it in [pre] does not close; its
    root is the location marked last before that [Traverse]. *)
Inductive enclosing_roots : list Block → list Location → Prop :=
| enclosing_none (s : list Block) :
    balanced s = true → enclosing_roots s []
| enclosing_open (pre : list Block) (roots : list Location) (e : string)
    (r : Location) (s : list Block) :
    enclosing_roots pre roots → last_marked pre = Some r → balanced s = true →
    enclosing_roots (pre ++ Traverse e true :: s) (roots ++ [r]).

(** [R] is the root of an optional scope of [l] that is closed in [l] and
    holds a [Traverse] or a [Recurse]. *)
Definition complex_scope_root (l : list Block) (R : Location) : Prop :=
  ∃ pre e body post,
    l = pre ++ Traverse e true :: body ++ EndOptional :: post
    ∧ balanced body = true
    ∧ last_marked pre = Some R
    ∧ has_traversal body = true.

(** [L] is marked in [l] inside the open scopes of roots [stack], and no
    later marking of [L] in [l] is inside an optional scope. *)
Definition marked_inside (l : list Block) (L : Location) (stack : list Location)
  : Prop :=
  ∃ pre post,
    l = pre ++ MarkLocation L :: post
    ∧ enclosing_roots pre stack
    ∧ stack ≠ []
    ∧ ∀ q1 q2, post = q1 ++ MarkLocation L :: q2 →
               enclosing_roots (pre ++ MarkLocation L :: q1) [].

(** The location marked last once [l] is read, [preceding] being the one
    marked last before it. *)
Definition preceding_after (preceding : option Location) (l : list Block)
  : option Location :=
  match last_marked l with
  | Some x => Some x
  | None => preceding
  end.

(** ** What the scan of the optional scopes knows after a prefix *)

(** The two stacks after [pre]: the roots of the open scopes, and for each of
    them whether a traversal was met in it; the flag of every scope but the
    innermost is set, since the scope inside it starts with a [Traverse]. *)
Inductive scopes_at : list Block → list Location → list bool → Prop :=
| scopes_at_none (s : list Block) :
    balanced s = true → scopes_at s [] []
| scopes_at_open (pre : list Block) (roots : list Location) (e : string)
    (r : Location) (s : list Block) :
    enclosing_roots pre roots → last_marked pre = Some r → balanced s = true →
    scopes_at (pre ++ Traverse e true :: s) (roots ++ [r])
      (replicate (length roots) true ++ [has_traversal s]).

Record optional_inv (pre : list Block) (st : OptionalState) : Prop := {
  inv_scopes :
    scopes_at pre (in_optional_root_locations st)
      (encountered_traverse_within_optional st);
  inv_preceding : preceding_location st = last_marked pre;
  inv_complex :
    ∀ R, R ∈ complex_optional_roots st ↔ complex_scope_root pre R;
  inv_mapping :
    ∀ L stack,
      dict_get (location_to_optional_roots st) L = Some stack
      ↔ marked_inside pre L stack;
  inv_keys : NoDup (dict_keys (location_to_optional_roots st))
}.

(** ** Sequences used as examples *)

Definition animal : Location := mkLocation "Animal___1" None.

Definition parent : Location := mkLocation "Animal__out_Animal_ParentOf___1" None.

Definition feeding : Location :=
  mkLocation "Animal__out_Animal_ParentOf__out_Animal_FedAt___1" None.

Definition simple_optional : list Block :=
  [MarkLocation animal; Traverse "out_Animal_ParentOf" true; MarkLocation parent;
   EndOptional].

Definition nested_optionals : list Block :=
  [MarkLocation animal; Traverse "out_Animal_ParentOf" true; MarkLocation parent;
   Traverse "out_Animal_FedAt" true; MarkLocation feeding;
   EndOptional; EndOptional].

Definition species : Location := mkLocation "Species___1" None.

(** An optional scope in which no location is marked. *)
Definition optional_without_location : list Block :=
  [MarkLocation animal; Traverse "out_Animal_ParentOf" true; EndOptional].

(** Two optional scopes that mark the same location. *)
Definition location_marked_twice : list Block :=
  [MarkLocation animal; Traverse "out_Animal_ParentOf" true; MarkLocation parent;
   EndOptional;
   MarkLocation species; Traverse "out_Species_Eats" true; MarkLocation parent;
   EndOptional].

(** ** remove_end_optionals *)

Definition remove_end_optionals (ir_blocks : list Block) : list Block :=
  foldl (fun new_ir_blocks block =>
           if negb (is_EndOptional block)
           then new_ir_blocks ++ [block]
           else new_ir_blocks)
        [] ir_blocks.

(** ** Further vocabulary *)

(** No [Filter] is followed at once by another one. *)
Fixpoint no_adjacent_filters (l : list Block) : bool :=
  match l with
  | x :: l' =>
      match l' with
      | y :: _ => negb (is_Filter x && is_Filter y) && no_adjacent_filters l'
      | [] => true
      end
  | [] => true
  end.

(** The blocks of a sequence that are no [Filter]. *)
Definition other_blocks (l : list Block) : list Block :=
  filter (fun b => is_Filter b = false) l.

(** A dictionary with a function applied to each of its values. *)
Definition map_values {K A B : Type} (g : A → B) (d : dict K A) : dict K B :=
  prod_map id g <$> d.

(** The number of nodes of an expression. *)
Fixpoint expression_size (e : Expression) : nat :=
  match e with
  | BinaryComposition _ l r => S (expression_size l + expression_size r)
  | _ => 1
  end.

(** The operands of an expression that are no boolean literal, from left to
    right. *)
Fixpoint operands (e : Expression) : list Expression :=
  match e with
  | BinaryComposition _ l r => operands l ++ operands r
  | TrueLiteral | FalseLiteral => []
  | _ => [e]
  end.

(** The two mismatches the optional scopes can show while they are read: an
    [EndOptional] with no optional scope open, an optional [Traverse] with no
    location marked before it. *)
Definition optional_mismatch (l : list Block) : Prop :=
  (∃ pre post, l = pre ++ EndOptional :: post ∧ scope_depth 0 pre = Some 0)
  ∨ (∃ pre e post, l = pre ++ Traverse e true :: post ∧ last_marked pre = None).

(** What the cut of the fold scopes knows after a prefix: the blocks kept
    are the blocks met outside of fold scopes, every recorded fold is the body
    of a closed fold scope of the prefix, and the blocks collected are the
    ones after the [Fold] that is open. *)
Record folds_inv (pre : list Block) (st : FoldState) : Prop := {
  finv_inside :
    inside_fold pre = match in_fold_location st with
                      | Some _ => true
                      | None => false
                      end;
  finv_remaining_free : marker_free (remaining_ir_blocks st) = true;
  finv_remaining_sub : sublist (remaining_ir_blocks st) pre;
  finv_remaining :
    ∀ b, b ∈ remaining_ir_blocks st
         ↔ ∃ p q, pre = p ++ b :: q
                  ∧ is_fold_marker b = false ∧ inside_fold p = false;
  finv_current_free : marker_free (current_folded_blocks st) = true;
  finv_current :
    match in_fold_location st with
    | Some f => ∃ p, pre = p ++ Fold f :: current_folded_blocks st
    | None => current_folded_blocks st = []
    end;
  finv_folds :
    ∀ f body, (f, body) ∈ folds st →
              marker_free body = true
              ∧ ∃ p q, pre = p ++ Fold f :: body ++ Unfold :: q;
  finv_keys : NoDup (dict_keys (folds st))
}.

(** [b'] is the block [b] with every expression replaced by one of the
    same operands that is no larger; a block that holds no expression is
    itself. *)
Definition same_operands (b b' : Block) : Prop :=
  match b, b' with
  | Filter p, Filter p' =>
      operands p' = operands p ∧ (expression_size p' ≤ expression_size p)%nat
  | ConstructResult fields, ConstructResult fields' =>
      Forall2 (fun f f' =>
                 fst f' = fst f
                 ∧ operands (snd f') = operands (snd f)
                 ∧ (expression_size (snd f') ≤ expression_size (snd f))%nat)
              fields fields'
  | _, _ => b' = b
  end.

(** [e] is the edge of the last optional [Traverse] of [l] that has [R] as
    the location marked last before it. *)
Definition last_optional_edge (l : list Block) (R : Location) (e : string)
  : Prop :=
  ∃ pre post,
    l = pre ++ Traverse e true :: post
    ∧ last_marked pre = Some R
    ∧ ∀ q1 e' q2, post = q1 ++ Traverse e' true :: q2 →
                  last_marked (pre ++ Traverse e true :: q1) ≠ Some R.

(** [inner] is the last key of [mapping] whose stack of roots ends in [R]. *)
Definition last_inner_location (mapping : dict Location (list Location))
    (R inner : Location) : Prop :=
  ∃ m1 stack m2,
    mapping = m1 ++ (inner, stack) :: m2
    ∧ last stack = Some R
    ∧ ∀ L' stack', (L', stack') ∈ m2 → last stack' ≠ Some R.

(** The blocks of a sequence that hold no expression: the ones that are
    neither a [Filter] nor a [ConstructResult]. *)
Definition plain_blocks (l : list Block) : list Block :=
  filter (fun b => is_Filter b || is_ConstructResult b = false) l.

(** * Properties *)

(** ** Generic facts *)

Lemma for_each_app {S B : Type} (body : S → B → result S) (l1 l2 : list B) (st : S) :
  for_each body st (l1 ++ l2)
  = do st' <- for_each body st l1; for_each body st' l2.
Proof.
  revert st. induction l1 as [|b l1 IH]; intros st; simpl; [done|].
  destruct (body st b) as [st'|e]; simpl; [apply IH|done].
Qed.

Lemma foldl_snoc_map {A B : Type} (f : A → B) (l : list A) (acc : list B) :
  foldl (fun acc x => acc ++ [f x]) acc l = acc ++ (f <$> l).
Proof.
  revert acc. induction l as [|x l IH]; intros acc; simpl.
  - by rewrite app_nil_r.
  - rewrite IH. by rewrite <- app_assoc.
Qed.

(** ** merge_consecutive_filter_clauses *)

Lemma merge_step_last (acc : list Block) (x b : Block) :
  merge_step (acc ++ [x]) b = acc ++ merge_step [x] b.
Proof.
  unfold merge_step. rewrite last_snoc. simpl.
  destruct x; try by rewrite <- app_assoc.
  destruct b; try by rewrite <- app_assoc.
  rewrite length_app. simpl.
  replace (pred (length acc + 1)) with (length acc + 0) by lia.
  by rewrite insert_app_r.
Qed.

Lemma merge_loop_last (l : list Block) (acc : list Block) (x : Block) :
  foldl merge_step (acc ++ [x]) l = acc ++ foldl merge_step [x] l.
Proof.
  revert acc x. induction l as [|b l IH]; intros acc x; simpl; [done|].
  rewrite merge_step_last.
  assert (Hs : ∃ acc' y, merge_step [x] b = acc' ++ [y]).
  { unfold merge_step. simpl.
    destruct x; try (by exists [x], b); try (by eexists [_], b).
    destruct b; try (by eexists [_], _). by eexists [], _. }
  destruct Hs as (acc' & y & ->).
  rewrite app_assoc, IH, (IH acc'). by rewrite app_assoc.
Qed.

Lemma merge_two (x b : Block) (l : list Block) :
  merge_consecutive_filter_clauses (x :: b :: l)
  = match x, b with
    | Filter p, Filter q =>
        merge_consecutive_filter_clauses (Filter (BinaryComposition "&&" p q) :: l)
    | _, _ => x :: merge_consecutive_filter_clauses (b :: l)
    end.
Proof.
  unfold merge_consecutive_filter_clauses. simpl.
  destruct x; try (by apply (merge_loop_last l [_] b)).
  destruct b; try (by apply (merge_loop_last l [_] _)).
  done.
Qed.

#[local] Arguments merge_consecutive_filter_clauses : simpl never.

Lemma merge_not_filter (b : Block) (post : list Block) :
  is_Filter b = false →
  merge_consecutive_filter_clauses (b :: post)
  = b :: merge_consecutive_filter_clauses post.
Proof.
  intros Hb. destruct post as [|c post]; [done|].
  rewrite merge_two. by destruct b.
Qed.

Lemma merge_run (p : Expression) (qs : list Expression) (post : list Block) :
  starts_with_Filter post = false →
  merge_consecutive_filter_clauses (Filter p :: (Filter <$> qs) ++ post)
  = Filter (conjunction p qs) :: merge_consecutive_filter_clauses post.
Proof.
  intros Hpost. revert p. induction qs as [|q qs IH]; intros p; simpl.
  - destruct post as [|c post]; [done|].
    rewrite merge_two. simpl in Hpost. by destruct c.
  - rewrite merge_two. apply IH.
Qed.

Lemma ends_with_Filter_cons (x y : Block) (l : list Block) :
  ends_with_Filter (x :: y :: l) = ends_with_Filter (y :: l).
Proof. done. Qed.

Lemma merge_app (pre post : list Block) :
  ends_with_Filter pre && starts_with_Filter post = false →
  merge_consecutive_filter_clauses (pre ++ post)
  = merge_consecutive_filter_clauses pre ++ merge_consecutive_filter_clauses post.
Proof.
  remember (length pre) as n eqn:Hn. revert pre Hn.
  induction n as [n IH] using lt_wf_ind. intros pre Hn Hb.
  destruct pre as [|x [|y pre]].
  - done.
  - simpl. destruct post as [|c post]; [done|].
    rewrite merge_two. unfold ends_with_Filter in Hb. simpl in Hb.
    destruct x; try done. destruct c; try done.
  - simpl. rewrite !merge_two.
    assert (Hrec : ∀ z,
      ends_with_Filter (z :: pre) && starts_with_Filter post = false →
      merge_consecutive_filter_clauses ((z :: pre) ++ post)
      = merge_consecutive_filter_clauses (z :: pre)
        ++ merge_consecutive_filter_clauses post).
    { intros z Hz. apply (IH (length (z :: pre))); [simpl in *; lia|done|done]. }
    assert (Hy : ends_with_Filter (y :: pre) && starts_with_Filter post = false).
    { by rewrite <- (ends_with_Filter_cons x). }
    destruct x as [| | |p| | | |]; try (simpl; f_equal; by apply (Hrec y)).
    destruct y as [| | |q| | | |]; try (simpl; f_equal; by apply (Hrec _)).
    apply (Hrec (Filter _)).
    destruct pre as [|z pre]; [done|].
    by rewrite ends_with_Filter_cons, <- (ends_with_Filter_cons (Filter q)).
Qed.

Lemma pieces_exist (l : list Block) :
  ∃ pieces, maximal_runs pieces = true ∧ l = concat (piece_blocks <$> pieces).
Proof.
  induction l as [|b l (pieces & Hmax & ->)]; [by exists []|].
  destruct (is_Filter b) eqn:Hb.
  - destruct b as [| | |p| | | |]; try done.
    destruct pieces as [|[p' qs | b'] pieces].
    + by exists [FilterRun p []].
    + exists (FilterRun p (p' :: qs) :: pieces). split; [|done].
      simpl in *. by destruct pieces as [|[] ?].
    + by exists (FilterRun p [] :: Other b' :: pieces).
  - exists (Other b :: pieces). simpl. by rewrite Hb.
Qed.

Lemma merge_pieces (pieces : list Piece) :
  maximal_runs pieces = true →
  merge_consecutive_filter_clauses (concat (piece_blocks <$> pieces))
  = piece_merged <$> pieces.
Proof.
  induction pieces as [|[p qs | b] pieces IH]; [done| |].
  - intros Hmax. cbn [fmap list_fmap concat piece_blocks piece_merged].
    change ((Filter p :: (Filter <$> qs)) ++ concat (piece_blocks <$> pieces))
      with (Filter p :: (Filter <$> qs) ++ concat (piece_blocks <$> pieces)).
    rewrite merge_run.
    + f_equal. apply IH. simpl in Hmax. by destruct pieces as [|[] ?].
    + destruct pieces as [|[p' qs' | b'] pieces']; [done|done|].
      simpl in *. apply andb_true_iff in Hmax as [Hb' _].
      by destruct (is_Filter b').
  - intros [Hb Hmax]%andb_true_iff.
    cbn [fmap list_fmap concat piece_blocks piece_merged app].
    rewrite merge_not_filter by by destruct (is_Filter b).
    f_equal. by apply IH.
Qed.

(** C8. Every sequence is made of maximal runs of consecutive [Filter]s and of
    blocks that are no [Filter]; in the result every run has become one
    [Filter] whose predicate is the conjunction of the run's predicates and-ed
    from the left, every other block stays where it is, three filters P, Q, R
    give ((P && Q) && R), and the empty sequence is returned as it is. *)
Theorem merge_consecutive_filter_clauses_runs :
  merge_consecutive_filter_clauses [] = []
  ∧ (∀ ir_blocks,
       ∃ pieces,
         maximal_runs pieces = true
         ∧ ir_blocks = concat (piece_blocks <$> pieces)
         ∧ merge_consecutive_filter_clauses ir_blocks = piece_merged <$> pieces)
  ∧ (∀ pre p qs post,
       ends_with_Filter pre = false → starts_with_Filter post = false →
       merge_consecutive_filter_clauses (pre ++ Filter p :: (Filter <$> qs) ++ post)
       = merge_consecutive_filter_clauses pre
         ++ Filter (conjunction p qs) :: merge_consecutive_filter_clauses post)
  ∧ (∀ pre b post,
       is_Filter b = false →
       merge_consecutive_filter_clauses (pre ++ b :: post)
       = merge_consecutive_filter_clauses pre
         ++ b :: merge_consecutive_filter_clauses post)
  ∧ (∀ P Q R,
       merge_consecutive_filter_clauses [Filter P; Filter Q; Filter R]
       = [Filter (BinaryComposition "&&" (BinaryComposition "&&" P Q) R)]).
Proof.
  split; [done|]. split; [|split; [|split]].
  - intros ir_blocks. destruct (pieces_exist ir_blocks) as (pieces & Hmax & ->).
    exists pieces. split; [done|]. split; [done|]. by apply merge_pieces.
  - intros pre p qs post Hpre Hpost.
    rewrite merge_app by (by rewrite Hpre).
    by rewrite merge_run.
  - intros pre b post Hb.
    rewrite merge_app.
    + by rewrite merge_not_filter.
    + simpl. rewrite Hb. apply andb_false_r.
  - done.
Qed.

Lemma merge_consecutive_filter_clauses_runs_witness :
  merge_consecutive_filter_clauses
    ([Unfold] ++ Filter TrueLiteral :: (Filter <$> [NullLiteral; FalseLiteral])
              ++ [EndOptional; Filter NullLiteral])
  = merge_consecutive_filter_clauses [Unfold]
    ++ Filter (conjunction TrueLiteral [NullLiteral; FalseLiteral])
    :: merge_consecutive_filter_clauses [EndOptional; Filter NullLiteral].
Proof.
  exact (proj1 (proj2 (proj2 merge_consecutive_filter_clauses_runs))
           [Unfold] TrueLiteral [NullLiteral; FalseLiteral]
           [EndOptional; Filter NullLiteral] eq_refl eq_refl).
Defined.

(** ** Loops that collect what their body returns *)

Lemma for_each_ext {S B : Type} (body1 body2 : S → B → result S) (st : S)
    (l : list B) :
  (∀ s b, body1 s b = body2 s b) →
  for_each body1 st l = for_each body2 st l.
Proof.
  intros Hbody. revert st. induction l as [|b l IH]; intros st; simpl; [done|].
  rewrite Hbody. destruct (body2 st b); simpl; [apply IH|done].
Qed.

Lemma for_each_collect {A B : Type} (f : A → result B) (g : A → B)
    (P : A → Prop) (Q : A → Exception → Prop) (l : list A) (acc : list B) :
  (∀ a, match f a with
        | Ok b => b = g a ∧ P a
        | Raise x => Q a x
        end) →
  match for_each (fun acc a => do b <- f a; Ok (acc ++ [b])) acc l with
  | Ok r => r = acc ++ (g <$> l) ∧ Forall P l
  | Raise x => ∃ a, a ∈ l ∧ Q a x
  end.
Proof.
  intros Hf. revert acc. induction l as [|a l IH]; intros acc; simpl.
  - by rewrite app_nil_r.
  - pose proof (Hf a) as Ha. destruct (f a) as [b|x]; simpl.
    + destruct Ha as [-> Pa]. specialize (IH (acc ++ [g a])).
      destruct (for_each _ (acc ++ [g a]) l) as [r|x].
      * destruct IH as [-> Hall].
        split; [by rewrite <- app_assoc|by constructor].
      * destruct IH as (a' & Hin & HQ). exists a'. split; [by right|done].
    + exists a. split; [by left|done].
Qed.

Lemma for_each_collect_acc {A B : Type} (f : A → result B) (l : list A)
    (acc : list B) :
  for_each (fun acc a => do b <- f a; Ok (acc ++ [b])) acc l
  = (do r <- for_each (fun acc a => do b <- f a; Ok (acc ++ [b])) [] l;
     Ok (acc ++ r)).
Proof.
  revert acc. induction l as [|a l IH]; intros acc; simpl.
  - by rewrite app_nil_r.
  - destruct (f a) as [b|x]; simpl; [|done].
    rewrite (IH (acc ++ [b])), (IH [b]).
    destruct (for_each _ [] l) as [r|x]; simpl; [|done].
    by rewrite <- app_assoc.
Qed.

(** ** lower_context_field_existence *)

Section LoweringFacts.

Variable get_location_info : Location → LocationInfo.
Variable ContextField_validate : Location → GraphQLType → result unit.

Lemma regular_visitor_fn_cases (e : Expression) :
  regular_visitor_fn get_location_info ContextField_validate e
  = match e with
    | ContextFieldExistence location =>
        do _ <- ContextField_validate location (type (get_location_info location));
        Ok (BinaryComposition "!="
              (ContextField location (type (get_location_info location)))
              NullLiteral)
    | _ => Ok e
    end.
Proof.
  destruct e as [| |location| | | |]; try done. simpl. unfold new_ContextField.
  by destruct (ContextField_validate _ _).
Qed.

Lemma construct_result_visitor_fn_cases (e : Expression) :
  construct_result_visitor_fn get_location_info ContextField_validate e
  = match e with
    | ContextFieldExistence location =>
        do _ <- OutputContextVertex_validate ContextField_validate location
                  (type (get_location_info location));
        Ok (BinaryComposition "!="
              (OutputContextVertex location (type (get_location_info location)))
              NullLiteral)
    | _ => Ok e
    end.
Proof.
  destruct e as [| |location| | | |]; try done. simpl.
  unfold new_OutputContextVertex.
  by destruct (OutputContextVertex_validate _ _ _).
Qed.

(** The traversal with a rewrite function that replaces the existence tests
    by comparisons of validated references: it returns the lowered expression
    when every reference is valid, and raises what the validation of one of
    them raises otherwise. *)
Lemma visit_existence_visitor
    (validate : Location → GraphQLType → result unit)
    (vertex_reference : Location → GraphQLType → Expression)
    (visitor : Expression → result Expression) (e : Expression) :
  (∀ e, visitor e
        = match e with
          | ContextFieldExistence location =>
              do _ <- validate location (type (get_location_info location));
              Ok (BinaryComposition "!="
                    (vertex_reference location (type (get_location_info location)))
                    NullLiteral)
          | _ => Ok e
          end) →
  match visit_and_update_or_raise visitor e with
  | Ok e' =>
      e' = lowered get_location_info vertex_reference e
      ∧ Forall (fun l => validate l (type (get_location_info l)) = Ok tt)
          (existence_locations e)
  | Raise x =>
      ∃ l, l ∈ existence_locations e
           ∧ validate l (type (get_location_info l)) = Raise x
  end.
Proof.
  intros Hv. induction e as [op l IHl r IHr| |location| | | |];
    cbn [visit_and_update_or_raise]; rewrite ?Hv; try done.
  - cbn [existence_locations lowered].
    destruct (visit_and_update_or_raise visitor l) as [l'|x]; cbn [bind].
    2: { destruct IHl as (loc & Hin & Hloc). exists loc.
         split; [|done]. apply elem_of_app. by left. }
    destruct IHl as [-> Hl].
    destruct (visit_and_update_or_raise visitor r) as [r'|x]; cbn [bind].
    2: { destruct IHr as (loc & Hin & Hloc). exists loc.
         split; [|done]. apply elem_of_app. by right. }
    destruct IHr as [-> Hr]. rewrite Hv. split; [done|]. by apply Forall_app.
  - cbn [existence_locations lowered].
    destruct (validate location (type (get_location_info location)))
      as [[]|x] eqn:Hloc; cbn [bind].
    + split; [done|]. by constructor.
    + exists location. split; [by left|done].
Qed.

Lemma lower_field_run (field : string * Expression) :
  match (let '(key, expression) := field in
         do new_expression <-
           visit_and_update_or_raise
             (construct_result_visitor_fn get_location_info ContextField_validate)
             expression;
         Ok (key, new_expression)) with
  | Ok field' =>
      field' = prod_map id (lowered get_location_info OutputContextVertex) field
      ∧ Forall (fun l =>
                  OutputContextVertex_validate ContextField_validate l
                    (type (get_location_info l)) = Ok tt)
          (existence_locations (snd field))
  | Raise x =>
      ∃ l, l ∈ existence_locations (snd field)
           ∧ OutputContextVertex_validate ContextField_validate l
               (type (get_location_info l)) = Raise x
  end.
Proof.
  destruct field as [key expression].
  pose proof (visit_existence_visitor
                (OutputContextVertex_validate ContextField_validate)
                OutputContextVertex _ expression
                construct_result_visitor_fn_cases) as He.
  destruct (visit_and_update_or_raise _ expression) as [e'|x];
    cbn [bind snd]; [|done].
  by destruct He as [-> ?].
Qed.

Lemma lower_block_run (b : Block) :
  match (if is_ConstructResult b
         then visit_and_update_expressions_or_raise
                (construct_result_visitor_fn get_location_info
                   ContextField_validate) b
         else visit_and_update_expressions_or_raise
                (regular_visitor_fn get_location_info ContextField_validate) b)
  with
  | Ok b' =>
      b' = lowered_block get_location_info b
      ∧ references_valid get_location_info ContextField_validate b
  | Raise x =>
      (∃ l, l ∈ context_field_locations b
            ∧ ContextField_validate l (type (get_location_info l)) = Raise x)
      ∨ (∃ l, l ∈ output_vertex_locations b
              ∧ OutputContextVertex_validate ContextField_validate l
                  (type (get_location_info l)) = Raise x)
  end.
Proof.
  unfold references_valid.
  destruct b as [x | e o | e d | p | f | | | fields]; try done.
  - cbn [is_ConstructResult visit_and_update_expressions_or_raise
         context_field_locations output_vertex_locations lowered_block].
    pose proof (visit_existence_visitor ContextField_validate ContextField _ p
                  regular_visitor_fn_cases) as Hp.
    destruct (visit_and_update_or_raise _ p) as [p'|x]; cbn [bind].
    + destruct Hp as [-> Hvalid]. done.
    + by left.
  - cbn [is_ConstructResult visit_and_update_expressions_or_raise
         context_field_locations output_vertex_locations lowered_block].
    rewrite (for_each_ext _
               (fun acc a =>
                  do b <- (let '(key, expression) := a in
                           do new_expression <-
                             visit_and_update_or_raise
                               (construct_result_visitor_fn get_location_info
                                  ContextField_validate) expression;
                           Ok (key, new_expression));
                  Ok (acc ++ [b]))).
    2: { intros acc [key expression].
         by destruct (visit_and_update_or_raise _ expression). }
    pose proof (for_each_collect _ _ _ _ fields [] lower_field_run) as Hrun.
    destruct (for_each _ [] fields) as [fields'|x]; cbn [bind].
    + destruct Hrun as [-> Hvalid]. split; [done|]. split; [done|].
      by apply Forall_bind.
    + right. destruct Hrun as ([key expression] & Hin & l & Hl & Hraise).
      exists l. split; [|done]. apply list_elem_of_bind.
      by exists (key, expression).
Qed.

Lemma lower_run (ir_blocks : list Block) :
  match lower_context_field_existence get_location_info ContextField_validate
          ir_blocks with
  | Ok new_ir_blocks =>
      new_ir_blocks = lowered_block get_location_info <$> ir_blocks
      ∧ Forall (references_valid get_location_info ContextField_validate)
          ir_blocks
  | Raise x =>
      ∃ b, b ∈ ir_blocks
           ∧ ((∃ l, l ∈ context_field_locations b
                    ∧ ContextField_validate l (type (get_location_info l))
                      = Raise x)
              ∨ (∃ l, l ∈ output_vertex_locations b
                      ∧ OutputContextVertex_validate ContextField_validate l
                          (type (get_location_info l)) = Raise x))
  end.
Proof.
  apply (for_each_collect _ _ _ _ ir_blocks [] lower_block_run).
Qed.

Lemma lower_returns (ir_blocks new_ir_blocks : list Block) :
  lower_context_field_existence get_location_info ContextField_validate ir_blocks
  = Ok new_ir_blocks →
  new_ir_blocks = lowered_block get_location_info <$> ir_blocks
  ∧ Forall (references_valid get_location_info ContextField_validate) ir_blocks.
Proof. intros Hrun. pose proof (lower_run ir_blocks) as H. by rewrite Hrun in H. Qed.

Lemma lower_valid (ir_blocks : list Block) :
  Forall (references_valid get_location_info ContextField_validate) ir_blocks →
  lower_context_field_existence get_location_info ContextField_validate ir_blocks
  = Ok (lowered_block get_location_info <$> ir_blocks).
Proof.
  intros Hvalid. pose proof (lower_run ir_blocks) as Hrun.
  destruct (lower_context_field_existence _ _ ir_blocks) as [r|x].
  - by destruct Hrun as [-> _].
  - destruct Hrun as (b & Hb & Hraise).
    destruct (proj1 (Forall_forall _ _) Hvalid b Hb) as [Hcf Hov].
    destruct Hraise as [(l & Hl & Hx) | (l & Hl & Hx)].
    + rewrite (proj1 (Forall_forall _ _) Hcf l Hl) in Hx. done.
    + rewrite (proj1 (Forall_forall _ _) Hov l Hl) in Hx. done.
Qed.

Lemma lowered_mentions_no_existence
    (vertex_reference : Location → GraphQLType → Expression) (e : Expression) :
  (∀ l t, mentions_existence (vertex_reference l t) = false) →
  mentions_existence (lowered get_location_info vertex_reference e) = false.
Proof.
  intros Hv. induction e as [op l IHl r IHr| | | | | |]; simpl; try done.
  - by rewrite IHl, IHr.
  - by rewrite Hv.
Qed.

Lemma lowered_without_existence
    (vertex_reference : Location → GraphQLType → Expression) (e : Expression) :
  mentions_existence e = false →
  lowered get_location_info vertex_reference e = e.
Proof.
  induction e as [op l IHl r IHr| | | | | |]; simpl; try done.
  intros [Hl Hr]%orb_false_iff. by rewrite IHl, IHr.
Qed.

Lemma lowered_block_mentions_no_existence (b : Block) :
  Forall (fun e => mentions_existence e = false)
         (expressions_of (lowered_block get_location_info b)).
Proof.
  destruct b; simpl; try by constructor.
  - constructor; [|constructor]. by apply lowered_mentions_no_existence.
  - rewrite <- list_fmap_compose. apply Forall_fmap, Forall_forall.
    intros [k e] _. simpl. by apply lowered_mentions_no_existence.
Qed.

Lemma lowered_block_without_existence (b : Block) :
  Forall (fun e => mentions_existence e = false) (expressions_of b) →
  lowered_block get_location_info b = b.
Proof.
  destruct b; simpl; try done.
  - intros [He _]%Forall_cons_1. by rewrite lowered_without_existence.
  - intros Hall. f_equal. induction fields as [|[k e] fields IH]; [done|].
    simpl in *. apply Forall_cons_1 in Hall as [He Hall].
    unfold prod_map at 1. simpl. rewrite lowered_without_existence by done.
    f_equal. by apply IH.
Qed.

Lemma existence_locations_none (e : Expression) :
  mentions_existence e = false → existence_locations e = [].
Proof.
  induction e as [op l IHl r IHr| | | | | |]; simpl; try done.
  intros [Hl Hr]%orb_false_iff. by rewrite IHl, IHr.
Qed.

Lemma references_valid_without_existence (b : Block) :
  Forall (fun e => mentions_existence e = false) (expressions_of b) →
  references_valid get_location_info ContextField_validate b.
Proof.
  unfold references_valid. destruct b as [| | |p| | | |fields]; try done; simpl.
  - intros [Hp _]%Forall_cons_1. by rewrite existence_locations_none.
  - intros Hall. split; [done|]. apply Forall_bind.
    apply Forall_fmap in Hall. eapply Forall_impl; [exact Hall|].
    intros [k e] He. simpl in *. by rewrite existence_locations_none.
Qed.

Lemma lower_without_existence (ir_blocks : list Block) :
  Forall (fun b => Forall (fun e => mentions_existence e = false)
                          (expressions_of b)) ir_blocks →
  lower_context_field_existence get_location_info ContextField_validate ir_blocks
  = Ok ir_blocks.
Proof.
  intros Hnone. rewrite lower_valid.
  - f_equal. induction Hnone as [|b l Hb _ IH]; [done|].
    rewrite fmap_cons, IH. by rewrite lowered_block_without_existence.
  - eapply Forall_impl; [exact Hnone|].
    apply references_valid_without_existence.
Qed.

Lemma OutputContextVertex_validate_field (location : Location)
    (field_type : GraphQLType) :
  ContextField_validate location field_type = Ok tt →
  OutputContextVertex_validate ContextField_validate location field_type
  = match field location with
    | Some _ => Raise ValueError
    | None => Ok tt
    end.
Proof. unfold OutputContextVertex_validate. by intros ->. Qed.

(** C1, as the code has it. Whenever the pass returns, it has rewritten
    block by block: an existence test of a location has become [!=] between a
    vertex reference of the looked-up type and null, the reference being an
    [OutputContextVertex] in a [ConstructResult] and a [ContextField] in any
    other block; no existence test is left in the result, and a block that
    held none is returned as it was. With references that pass the validation
    of the base class, the pass returns when no [ConstructResult] holds an
    existence test of a location with a field component, and raises
    [ValueError] when one does. *)
Theorem lower_context_field_existence_lowers (ir_blocks : list Block) :
  (∀ new_ir_blocks,
     lower_context_field_existence get_location_info ContextField_validate
       ir_blocks = Ok new_ir_blocks →
     new_ir_blocks = lowered_block get_location_info <$> ir_blocks
     ∧ Forall (fun b => Forall (fun e => mentions_existence e = false)
                               (expressions_of b))
         new_ir_blocks
     ∧ Forall2 (fun b b' =>
                  Forall (fun e => mentions_existence e = false)
                         (expressions_of b) →
                  b' = b)
         ir_blocks new_ir_blocks)
  ∧ (∀ location,
       lowered get_location_info ContextField (ContextFieldExistence location)
       = BinaryComposition "!="
           (ContextField location (type (get_location_info location))) NullLiteral
       ∧ lowered get_location_info OutputContextVertex
           (ContextFieldExistence location)
         = BinaryComposition "!="
             (OutputContextVertex location (type (get_location_info location)))
             NullLiteral)
  ∧ ((∀ location field_type,
        ContextField_validate location field_type = Ok tt) →
     (Forall (fun b => Forall (fun l => field l = None)
                              (output_vertex_locations b))
        ir_blocks →
      lower_context_field_existence get_location_info ContextField_validate
        ir_blocks
      = Ok (lowered_block get_location_info <$> ir_blocks))
     ∧ (∀ b l, b ∈ ir_blocks → l ∈ output_vertex_locations b →
               field l ≠ None →
               lower_context_field_existence get_location_info
                 ContextField_validate ir_blocks
               = Raise ValueError)).
Proof.
  split; [|split; [done|]].
  - intros r [-> _]%lower_returns. split; [done|]. split.
    + apply Forall_fmap, Forall_forall. intros b _.
      apply lowered_block_mentions_no_existence.
    + apply Forall2_fmap_r, Forall_Forall2_diag, Forall_forall.
      intros b _ Hnone. by apply lowered_block_without_existence.
  - intros Hbase. split.
    + intros Hvertex. apply lower_valid.
      eapply Forall_impl; [exact Hvertex|]. intros b Hb. split.
      * apply Forall_forall. intros l _. apply Hbase.
      * eapply Forall_impl; [exact Hb|]. intros l Hl. simpl in Hl.
        by rewrite OutputContextVertex_validate_field, Hl by apply Hbase.
    + intros b l Hb Hl Hfield. pose proof (lower_run ir_blocks) as Hrun.
      destruct (lower_context_field_existence _ _ ir_blocks) as [r|x].
      * destruct Hrun as [_ Hvalid].
        destruct (proj1 (Forall_forall _ _) Hvalid b Hb) as [_ Hov].
        pose proof (proj1 (Forall_forall _ _) Hov l Hl) as Hok.
        cbv beta in Hok. rewrite OutputContextVertex_validate_field in Hok by apply Hbase.
        by destruct (field l).
      * destruct Hrun as (b' & _ & [(l' & _ & Hx) | (l' & _ & Hx)]).
        -- by rewrite Hbase in Hx.
        -- rewrite OutputContextVertex_validate_field in Hx by apply Hbase.
           destruct (field l'); [|done]. by injection Hx as <-.
Qed.

End LoweringFacts.

Lemma lower_context_field_existence_lowers_witness :
  lower_context_field_existence (fun _ => mkLocationInfo "Animal")
    (fun _ _ => Ok tt)
    [Filter (ContextFieldExistence parent);
     ConstructResult [("parent", ContextFieldExistence parent)]]
  = Ok [Filter (BinaryComposition "!=" (ContextField parent "Animal") NullLiteral);
        ConstructResult
          [("parent",
            BinaryComposition "!=" (OutputContextVertex parent "Animal")
              NullLiteral)]].
Proof.
  apply (proj1 (proj2 (proj2 (lower_context_field_existence_lowers
                                (fun _ => mkLocationInfo "Animal")
                                (fun _ _ => Ok tt)
                                [Filter (ContextFieldExistence parent);
                                 ConstructResult
                                   [("parent", ContextFieldExistence parent)]]))
                  (fun _ _ => eq_refl))).
  repeat constructor.
Defined.

(** An existence test of a location with a field component in a
    [ConstructResult]: the [OutputContextVertex] the lowering builds for it
    fails its validation and the pass raises [ValueError], with a base class
    whose validation passes; in a [Filter] the same test is lowered. *)
Lemma lower_context_field_existence_vertex_with_field :
  lower_context_field_existence (fun _ => mkLocationInfo "String")
    (fun _ _ => Ok tt)
    [ConstructResult
       [("name", ContextFieldExistence (mkLocation "Animal___1" (Some "name")))]]
  = Raise ValueError
  ∧ lower_context_field_existence (fun _ => mkLocationInfo "String")
      (fun _ _ => Ok tt)
      [Filter (ContextFieldExistence (mkLocation "Animal___1" (Some "name")))]
    = Ok [Filter (BinaryComposition "!="
                    (ContextField (mkLocation "Animal___1" (Some "name")) "String")
                    NullLiteral)].
Proof. split; reflexivity. Qed.

(** ** optimize_boolean_expression_comparisons *)

Lemma optimize_boolean_expression_comparisons_map (ir_blocks : list Block) :
  optimize_boolean_expression_comparisons ir_blocks
  = visit_and_update_expressions visitor_fn <$> ir_blocks.
Proof.
  unfold optimize_boolean_expression_comparisons.
  by rewrite (foldl_snoc_map (visit_and_update_expressions visitor_fn)).
Qed.

Lemma is_BinaryComposition_true (e : Expression) :
  is_BinaryComposition e = true → ∃ op l r, e = BinaryComposition op l r.
Proof. destruct e; try done. by eexists _, _, _. Qed.

Ltac comparison_cases :=
  repeat (first
    [ progress simplify_eq/=
    | case_decide
    | case_bool_decide
    | match goal with
      | H : is_BinaryComposition ?e = true |- _ =>
          apply is_BinaryComposition_true in H as (? & ? & ? & ->)
      | |- context [is_BinaryComposition ?e] =>
          destruct (is_BinaryComposition e) eqn:?
      end ]);
  try done.

Lemma visitor_fn_null_comparison (operator : string) (X : Expression) :
  operator = "=" ∨ operator = "!=" →
  visitor_fn (BinaryComposition operator X NullLiteral)
  = BinaryComposition operator X NullLiteral.
Proof.
  intros [-> | ->]; unfold visitor_fn; by destruct X.
Qed.

(** C5, as the code has it. A comparison by [=] or [!=] comes back as it was
    when neither side is a composition, when neither side is a boolean
    literal, and when one side is the inverse literal of the operator and the
    other a composition whose operator is neither [=] nor [!=]. *)
Theorem visitor_fn_unchanged (operator : string) (A B : Expression) :
  operator = "=" ∨ operator = "!=" →
  (is_BinaryComposition A = false → is_BinaryComposition B = false →
   visitor_fn (BinaryComposition operator A B) = BinaryComposition operator A B)
  ∧ (is_boolean_literal A = false → is_boolean_literal B = false →
     visitor_fn (BinaryComposition operator A B) = BinaryComposition operator A B)
  ∧ (∀ inner_operator l r,
       inverted inner_operator = None →
       (inverse_literal_of operator = Some A
        ∧ B = BinaryComposition inner_operator l r)
       ∨ (inverse_literal_of operator = Some B
          ∧ A = BinaryComposition inner_operator l r) →
       visitor_fn (BinaryComposition operator A B) = BinaryComposition operator A B).
Proof.
  intros Hop. split; [|split].
  - intros HA HB. unfold visitor_fn. by rewrite HA, HB.
  - intros HA HB. unfold visitor_fn.
    destruct Hop as [-> | ->]; destruct A; try done; destruct B; done.
  - intros iop l r Hinv Hside. unfold inverted in Hinv.
    unfold inverse_literal_of in Hside. unfold visitor_fn.
    destruct Hop as [-> | ->]; destruct Hside as [[HA ->] | [HB ->]];
      simplify_eq/=; comparison_cases.
Qed.

Lemma visitor_fn_unchanged_witness :
  visitor_fn (BinaryComposition "="
                (BinaryComposition "&&" NullLiteral NullLiteral) FalseLiteral)
  = BinaryComposition "=" (BinaryComposition "&&" NullLiteral NullLiteral) FalseLiteral.
Proof.
  exact (proj2 (proj2 (visitor_fn_unchanged "="
                         (BinaryComposition "&&" NullLiteral NullLiteral)
                         FalseLiteral (or_introl eq_refl)))
           "&&" NullLiteral NullLiteral eq_refl (or_intror (conj eq_refl eq_refl))).
Defined.

(** The composition next to an identity literal is returned whatever its
    operator is: here the operator of the inner composition is [&&], neither
    [=] nor [!=], and the comparison does not come back as it was. *)
Lemma visitor_fn_identity_any_operator :
  inverted "&&" = None
  ∧ visitor_fn (BinaryComposition "=" TrueLiteral
                  (BinaryComposition "&&" NullLiteral NullLiteral))
    = BinaryComposition "&&" NullLiteral NullLiteral
  ∧ optimize_boolean_expression_comparisons
      [Filter (BinaryComposition "=" TrueLiteral
                 (BinaryComposition "&&" NullLiteral NullLiteral))]
    = [Filter (BinaryComposition "&&" NullLiteral NullLiteral)]
  ∧ BinaryComposition "&&" NullLiteral NullLiteral
    ≠ BinaryComposition "=" TrueLiteral
        (BinaryComposition "&&" NullLiteral NullLiteral).
Proof. repeat split; done. Qed.

(** C6. With the identity literal of the operator on one side and a
    composition on the other, the comparison becomes that composition; with
    the inverse literal on one side and a composition by [=] or [!=] on the
    other, it becomes that composition with the operator inverted and the
    same children. *)
Theorem visitor_fn_rewrites (operator : string) (A B identity inverse : Expression) :
  identity_literal_of operator = Some identity →
  inverse_literal_of operator = Some inverse →
  (A = identity → is_BinaryComposition B = true →
   visitor_fn (BinaryComposition operator A B) = B)
  ∧ (B = identity → is_BinaryComposition A = true →
     visitor_fn (BinaryComposition operator A B) = A)
  ∧ (∀ inner_operator l r inverse_operator,
       inverted inner_operator = Some inverse_operator →
       (A = inverse ∧ B = BinaryComposition inner_operator l r)
       ∨ (B = inverse ∧ A = BinaryComposition inner_operator l r) →
       visitor_fn (BinaryComposition operator A B)
       = BinaryComposition inverse_operator l r)
  ∧ (∀ X,
       visitor_fn (BinaryComposition "="
                     (BinaryComposition "!=" X NullLiteral) FalseLiteral)
       = BinaryComposition "=" X NullLiteral
       ∧ visitor_fn (BinaryComposition "!="
                       (BinaryComposition "=" X NullLiteral) TrueLiteral)
         = BinaryComposition "!=" X NullLiteral
       ∧ optimize_boolean_expression_comparisons
           [Filter (BinaryComposition "="
                      (BinaryComposition "!=" X NullLiteral) FalseLiteral)]
         = [Filter (BinaryComposition "=" (visit_and_update visitor_fn X) NullLiteral)]
       ∧ optimize_boolean_expression_comparisons
           [Filter (BinaryComposition "!="
                      (BinaryComposition "=" X NullLiteral) TrueLiteral)]
         = [Filter (BinaryComposition "!=" (visit_and_update visitor_fn X) NullLiteral)]).
Proof.
  unfold identity_literal_of, inverse_literal_of, inverted.
  intros Hid Hinv. split; [|split; [|split]].
  - intros -> HB. unfold visitor_fn. comparison_cases.
  - intros -> HA. unfold visitor_fn. comparison_cases.
  - intros iop l r inv Hiop [[-> ->] | [-> ->]]; unfold visitor_fn; comparison_cases.
  - intros X. split; [done|]. split; [done|].
    rewrite !optimize_boolean_expression_comparisons_map.
    cbn [fmap list_fmap visit_and_update_expressions visit_and_update].
    change (visitor_fn NullLiteral) with NullLiteral.
    rewrite !visitor_fn_null_comparison by auto. done.
Qed.

Lemma visitor_fn_rewrites_witness :
  visitor_fn (BinaryComposition "!="
                (BinaryComposition "=" NullLiteral NullLiteral) TrueLiteral)
  = BinaryComposition "!=" NullLiteral NullLiteral.
Proof.
  exact (proj1 (proj2 (proj2 (visitor_fn_rewrites "!="
                                (BinaryComposition "=" NullLiteral NullLiteral)
                                TrueLiteral FalseLiteral TrueLiteral
                                eq_refl eq_refl)))
           "=" NullLiteral NullLiteral "!=" eq_refl
           (or_intror (conj eq_refl eq_refl))).
Defined.

(** ** OutputContextVertex *)

Section OutputContextVertexFacts.

Variable ContextField_validate : Location → GraphQLType → result unit.
Variable validate_safe_string : string → result unit.

(** C9. For a reference that passes the validation of its base class, the
    rendering gives text exactly when the location has no field component
    and its mark name passes the safe-string check, and the text is the mark
    name; with a field component both the validation and the rendering raise,
    and what they raise is [ValueError] unless the base class raised first. *)
Theorem to_match_mark_name (location : Location) (field_type : GraphQLType) :
  (ContextField_validate location field_type = Ok tt →
   ∀ text,
     to_match ContextField_validate validate_safe_string location field_type
     = Ok text
     ↔ field location = None
       ∧ validate_safe_string (mark_name location) = Ok tt
       ∧ text = mark_name location)
  ∧ (field location ≠ None →
     (∃ e,
        OutputContextVertex_validate ContextField_validate location field_type
        = Raise e
        ∧ to_match ContextField_validate validate_safe_string location field_type
          = Raise e)
     ∧ (ContextField_validate location field_type = Ok tt →
        OutputContextVertex_validate ContextField_validate location field_type
        = Raise ValueError
        ∧ to_match ContextField_validate validate_safe_string location field_type
          = Raise ValueError)).
Proof.
  unfold to_match, OutputContextVertex_validate, get_location_name. split.
  - intros Hbase text. rewrite Hbase. simpl.
    destruct (field location) as [f|]; simpl.
    + split; [done|]. by intros [? _].
    + destruct (validate_safe_string (mark_name location)) as [[]|e]; simpl.
      * split; [by intros [= <-]|]. by intros (_ & _ & ->).
      * split; [done|]. by intros (_ & ? & _).
  - intros Hfield. destruct (field location) as [f|]; [|done]. split.
    + destruct (ContextField_validate location field_type) as [[]|e]; simpl;
        by eexists.
    + by intros ->.
Qed.

End OutputContextVertexFacts.

Lemma to_match_mark_name_witness :
  to_match (fun _ _ => Ok tt) (fun _ => Ok tt) (mkLocation "Animal___1" None) "Animal"
  = Ok "Animal___1".
Proof.
  apply (proj1 (to_match_mark_name (fun _ _ => Ok tt) (fun _ => Ok tt)
                  (mkLocation "Animal___1" None) "Animal") eq_refl).
  repeat split; reflexivity.
Defined.

(** ** extract_folds_from_ir_blocks: mismatched markers *)

Lemma snoc_eq_middle {A : Type} (l pre post : list A) (b x : A) :
  l ++ [b] = pre ++ x :: post →
  (post = [] ∧ pre = l ∧ x = b)
  ∨ (∃ post', post = post' ++ [b] ∧ l = pre ++ x :: post').
Proof.
  destruct post as [|y post' _] using rev_ind; intros Heq.
  - apply app_inj_tail in Heq as [-> ->]. by left.
  - right. exists post'.
    change (l ++ [b] = pre ++ (x :: post') ++ [y]) in Heq.
    rewrite app_assoc in Heq. by apply app_inj_tail in Heq as [-> ->].
Qed.

Lemma inside_fold_snoc (l : list Block) (b : Block) :
  inside_fold (l ++ [b])
  = match b with
    | Fold _ => true
    | Unfold => false
    | _ => inside_fold l
    end.
Proof.
  unfold inside_fold. rewrite filter_app, filter_cons, filter_nil.
  destruct b; simpl; by rewrite ?last_snoc, ?app_nil_r.
Qed.

Lemma fold_mismatch_nil : ¬ fold_mismatch [].
Proof.
  intros [(pre & f & post & Heq & _) | (pre & post & Heq & _)];
    by destruct pre.
Qed.

Lemma fold_mismatch_snoc (l : list Block) (b : Block) :
  fold_mismatch (l ++ [b])
  ↔ fold_mismatch l
    ∨ (∃ f, b = Fold f ∧ inside_fold l = true)
    ∨ (b = Unfold ∧ inside_fold l = false).
Proof.
  split.
  - intros [(pre & f & post & Heq & Hin) | (pre & post & Heq & Hin)];
      apply snoc_eq_middle in Heq as [(-> & -> & <-) | (post' & -> & ->)].
    + right; left. by exists f.
    + left; left. by exists pre, f, post'.
    + right; right. done.
    + left; right. by exists pre, post'.
  - intros [[(pre & f & post & -> & Hin) | (pre & post & -> & Hin)]
           | [(f & -> & Hin) | (-> & Hin)]].
    + left. exists pre, f, (post ++ [b]). by rewrite <- app_assoc.
    + right. exists pre, (post ++ [b]). by rewrite <- app_assoc.
    + left. by exists l, f, [].
    + right. by exists l, [].
Qed.

Lemma fold_mismatch_app (l post : list Block) :
  fold_mismatch l → fold_mismatch (l ++ post).
Proof.
  intros [(pre & f & post' & -> & Hin) | (pre & post' & -> & Hin)].
  - left. exists pre, f, (post' ++ post). by rewrite <- app_assoc.
  - right. exists pre, (post' ++ post). by rewrite <- app_assoc.
Qed.

Lemma extract_folds_run (l : list Block) :
  match for_each extract_folds_step extract_folds_init l with
  | Ok st =>
      ¬ fold_mismatch l
      ∧ inside_fold l = match in_fold_location st with
                        | Some _ => true
                        | None => false
                        end
  | Raise e => e = AssertionError ∧ fold_mismatch l
  end.
Proof.
  induction l as [|b l IH] using rev_ind.
  - simpl. split; [apply fold_mismatch_nil|done].
  - rewrite for_each_app.
    destruct (for_each extract_folds_step extract_folds_init l) as [st|e]; simpl.
    + destruct IH as [Hno Hin].
      unfold extract_folds_step.
      destruct b, (in_fold_location st) as [loc|] eqn:Hloc; simpl;
        rewrite ?Hloc, fold_mismatch_snoc, ?inside_fold_snoc;
        try (split; [|done]; intros [? | [(f & ? & ?) | (? & ?)]];
             simplify_eq; done || congruence);
        try (split; [done|]; right; by eauto).
    + destruct IH as [-> Hm]. split; [done|]. by apply fold_mismatch_app.
Qed.

(** C4, as the code has it. The extraction raises its assertion error exactly
    when it meets a [Fold] inside an open fold scope or an [Unfold] outside of
    one; met with neither it returns a result, also when the last [Fold] of
    the sequence is never closed. *)
Theorem extract_folds_raises (ir_blocks : list Block) :
  (extract_folds_from_ir_blocks ir_blocks = Raise AssertionError
   ↔ fold_mismatch ir_blocks)
  ∧ ((∃ r, extract_folds_from_ir_blocks ir_blocks = Ok r)
     ↔ ¬ fold_mismatch ir_blocks)
  ∧ (∀ pre f post,
       ir_blocks = pre ++ Fold f :: post → inside_fold pre = true →
       extract_folds_from_ir_blocks ir_blocks = Raise AssertionError)
  ∧ (∀ pre post,
       ir_blocks = pre ++ Unfold :: post → inside_fold pre = false →
       extract_folds_from_ir_blocks ir_blocks = Raise AssertionError).
Proof.
  pose proof (extract_folds_run ir_blocks) as Hrun.
  unfold extract_folds_from_ir_blocks.
  destruct (for_each extract_folds_step extract_folds_init ir_blocks) as [st|e];
    simpl.
  - destruct Hrun as [Hno _]. repeat split.
    + done.
    + by intros ?.
    + done.
    + by eexists.
    + intros pre f post -> Hin. destruct Hno. left. by exists pre, f, post.
    + intros pre post -> Hin. destruct Hno. right. by exists pre, post.
  - destruct Hrun as [-> Hm]. repeat split; try done.
    by intros [r ?].
Qed.

Lemma extract_folds_raises_witness :
  extract_folds_from_ir_blocks
    ([Fold (mkFoldScopeLocation (mkLocation "Animal___1" None) "out_Animal_ParentOf")]
     ++ Unfold :: [Unfold])
  = Raise AssertionError.
Proof.
  exact (proj2 (proj2 (proj2 (extract_folds_raises _)))
           [Fold (mkFoldScopeLocation (mkLocation "Animal___1" None)
                    "out_Animal_ParentOf"); Unfold] [] eq_refl eq_refl).
Defined.

(** A [Fold] that is never closed raises nothing: the blocks after it are
    dropped and a result is returned. *)
Lemma extract_folds_unclosed_fold :
  folds_well_nested
    [Fold (mkFoldScopeLocation (mkLocation "Animal___1" None) "out_Animal_ParentOf");
     Filter TrueLiteral] = false
  ∧ inside_fold
      [Fold (mkFoldScopeLocation (mkLocation "Animal___1" None) "out_Animal_ParentOf");
       Filter TrueLiteral] = true
  ∧ extract_folds_from_ir_blocks
      [Fold (mkFoldScopeLocation (mkLocation "Animal___1" None) "out_Animal_ParentOf");
       Filter TrueLiteral]
    = Ok ([], []).
Proof. repeat split; reflexivity. Qed.

(** ** extract_folds_from_ir_blocks: the partition and the way back *)

Lemma extract_folds_outside (seg : list Block) (st : FoldState) :
  marker_free seg = true → in_fold_location st = None →
  for_each extract_folds_step st seg
  = Ok (mkFoldState (folds st) (remaining_ir_blocks st ++ seg)
          (current_folded_blocks st) None).
Proof.
  revert st. induction seg as [|b seg IH]; intros [fs rem cur loc]; simpl;
    intros Hfree ->.
  - by rewrite app_nil_r.
  - apply andb_true_iff in Hfree as [Hb Hfree].
    destruct b; try done; simpl; rewrite IH by done; simpl;
      by rewrite <- app_assoc.
Qed.

Lemma extract_folds_inside (body : list Block) (st : FoldState) (f : FoldScopeLocation) :
  marker_free body = true → in_fold_location st = Some f →
  for_each extract_folds_step st body
  = Ok (mkFoldState (folds st) (remaining_ir_blocks st)
          (current_folded_blocks st ++ body) (Some f)).
Proof.
  revert st. induction body as [|b body IH]; intros [fs rem cur loc]; simpl;
    intros Hfree ->.
  - by rewrite app_nil_r.
  - apply andb_true_iff in Hfree as [Hb Hfree].
    destruct b; try done; simpl; rewrite IH by done; simpl;
      by rewrite <- app_assoc.
Qed.

Lemma extract_folds_splice (scopes : list FoldScope) (st : FoldState) :
  Forall scope_pieces_marker_free scopes →
  in_fold_location st = None → current_folded_blocks st = [] →
  for_each extract_folds_step st (splice scopes)
  = Ok (mkFoldState
          (foldl (fun d s => dict_set d (scope_location s) (scope_body s))
                 (folds st) scopes)
          (remaining_ir_blocks st ++ concat (scope_after <$> scopes)) [] None).
Proof.
  revert st. induction scopes as [|s scopes IH]; intros [fs rem cur loc]; simpl;
    intros Hall -> ->.
  - by rewrite app_nil_r.
  - apply Forall_cons_1 in Hall as [[Hbody Hafter] Hall]. simpl.
    rewrite for_each_app, (extract_folds_inside _ _ (scope_location s)) by done.
    simpl.
    rewrite for_each_app, extract_folds_outside by done. simpl.
    rewrite IH by done. simpl. by rewrite <- app_assoc.
Qed.

Lemma dict_set_fresh {K V : Type} `{EqDecision K} (d : dict K V) (k : K) (v : V) :
  k ∉ dict_keys d → dict_set d k v = d ++ [(k, v)].
Proof.
  induction d as [|[k' v'] d IH]; simpl; [done|]. intros Hk.
  apply not_elem_of_cons in Hk as [Hne Hk]. case_decide; [done|].
  by rewrite IH.
Qed.

Lemma dict_keys_app {K V : Type} (d1 d2 : dict K V) :
  dict_keys (d1 ++ d2) = dict_keys d1 ++ dict_keys d2.
Proof. apply fmap_app. Qed.

Lemma scope_folds_distinct (scopes : list FoldScope) (d : dict FoldScopeLocation (list Block)) :
  NoDup (dict_keys d ++ (scope_location <$> scopes)) →
  foldl (fun d s => dict_set d (scope_location s) (scope_body s)) d scopes
  = d ++ scope_folds scopes.
Proof.
  revert d. induction scopes as [|s scopes IH]; intros d Hnd; simpl.
  - by rewrite app_nil_r.
  - simpl in Hnd. apply NoDup_app in Hnd as (Hd & Hdisj & Hs).
    apply NoDup_cons in Hs as [Hs Hrest].
    rewrite dict_set_fresh by (intros Hin; apply (Hdisj _ Hin); by left).
    rewrite IH.
    + by rewrite <- app_assoc.
    + rewrite dict_keys_app. simpl. rewrite <- app_assoc. simpl.
      apply NoDup_app. split; [done|]. split.
      * intros x Hx. apply Hdisj in Hx. done.
      * by apply NoDup_cons.
Qed.

Lemma dict_get_scope_folds (scopes : list FoldScope) (s : FoldScope) :
  NoDup (scope_location <$> scopes) → s ∈ scopes →
  dict_get (scope_folds scopes) (scope_location s) = Some (scope_body s).
Proof.
  induction scopes as [|s' scopes IH]; simpl; intros Hnd Hin.
  - by apply elem_of_nil in Hin.
  - apply NoDup_cons in Hnd as [Hfresh Hnd].
    apply elem_of_cons in Hin as [-> | Hin].
    + by case_decide.
    + case_decide as Heq; [|by apply IH].
      destruct Hfresh. rewrite <- Heq. by apply list_elem_of_fmap_2.
Qed.

Lemma fold_scope_locations_app (l1 l2 : list Block) :
  fold_scope_locations (l1 ++ l2) = fold_scope_locations l1 ++ fold_scope_locations l2.
Proof. apply omap_app. Qed.

Lemma fold_scope_locations_cons (b : Block) (l : list Block) :
  fold_scope_locations (b :: l)
  = match b with Fold f => [f] | _ => [] end ++ fold_scope_locations l.
Proof. by destruct b. Qed.

Lemma fold_scope_locations_marker_free (l : list Block) :
  marker_free l = true → fold_scope_locations l = [].
Proof.
  induction l as [|b l IH]; simpl; [done|].
  intros [Hb Hl]%andb_true_iff. destruct b; try done; by apply IH.
Qed.

Lemma fold_scope_locations_splice (scopes : list FoldScope) :
  Forall scope_pieces_marker_free scopes →
  fold_scope_locations (splice scopes) = scope_location <$> scopes.
Proof.
  induction scopes as [|s scopes IH]; [done|].
  intros [[Hbody Hafter] Hall]%Forall_cons_1. cbn [splice].
  rewrite fold_scope_locations_cons, fold_scope_locations_app,
    fold_scope_locations_marker_free, fold_scope_locations_cons,
    fold_scope_locations_app, fold_scope_locations_marker_free, IH by done.
  done.
Qed.

Lemma folds_well_nested_splice (l : list Block) :
  (folds_well_nested_from false l = true →
   ∃ before scopes,
     l = before ++ splice scopes ∧ marker_free before = true
     ∧ Forall scope_pieces_marker_free scopes)
  ∧ (folds_well_nested_from true l = true →
     ∃ body after scopes,
       l = body ++ Unfold :: after ++ splice scopes
       ∧ marker_free body = true ∧ marker_free after = true
       ∧ Forall scope_pieces_marker_free scopes).
Proof.
  induction l as [|b l [IHout IHin]]; simpl.
  - split; [|done]. intros _. by exists [], [].
  - assert (Hout : is_fold_marker b = false →
                   folds_well_nested_from false l = true →
                   ∃ before scopes,
                     b :: l = before ++ splice scopes ∧ marker_free before = true
                     ∧ Forall scope_pieces_marker_free scopes).
    { intros Hb (before & scopes & -> & Hfree & Hall)%IHout.
      exists (b :: before), scopes. simpl. by rewrite Hb, Hfree. }
    assert (Hin : is_fold_marker b = false →
                  folds_well_nested_from true l = true →
                  ∃ body after scopes,
                    b :: l = body ++ Unfold :: after ++ splice scopes
                    ∧ marker_free body = true ∧ marker_free after = true
                    ∧ Forall scope_pieces_marker_free scopes).
    { intros Hb (body & after & scopes & -> & Hbody & Hafter & Hall)%IHin.
      exists (b :: body), after, scopes. simpl. by rewrite Hb, Hbody. }
    destruct b as [| | | |f| | |]; try (split; [by apply Hout | by apply Hin]).
    + split; [|done].
      intros (body & after & scopes & -> & Hbody & Hafter & Hall)%IHin.
      exists [], (mkFoldScope f body after :: scopes).
      split; [done|]. split; [done|]. by constructor.
    + split; [done|].
      intros (after & scopes & -> & Hafter & Hall)%IHout.
      by exists [], after, scopes.
Qed.

Lemma resplice_splice (folds : dict FoldScopeLocation (list Block))
    (scopes : list FoldScope) (before : list Block) :
  (∀ s, s ∈ scopes → dict_get folds (scope_location s) = Some (scope_body s)) →
  resplice folds (fold_positions (length before) scopes) (outside_folds before scopes)
  = Some (before ++ splice scopes).
Proof.
  revert before. induction scopes as [|s scopes IH]; intros before Hget; simpl.
  - unfold outside_folds. simpl. by rewrite app_nil_r.
  - rewrite (Hget s) by by left. unfold outside_folds. simpl.
    rewrite drop_app_length, take_app_length.
    unfold outside_folds in IH. rewrite IH; [done|].
    intros s' Hs'. apply Hget. by right.
Qed.

(** C7, as the code has it. A sequence whose folds are well nested and whose
    fold scopes have pairwise distinct locations is cut into the fold scopes,
    each location mapped to the blocks between its markers in their order,
    and the blocks outside of all fold scopes in their order; putting each
    extracted fold back between fresh markers where it was gives the sequence
    again. *)
Theorem extract_folds_partition (ir_blocks : list Block) :
  folds_well_nested ir_blocks = true →
  NoDup (fold_scope_locations ir_blocks) →
  ∃ before scopes,
    ir_blocks = before ++ splice scopes
    ∧ marker_free before = true
    ∧ Forall scope_pieces_marker_free scopes
    ∧ extract_folds_from_ir_blocks ir_blocks
      = Ok (scope_folds scopes, outside_folds before scopes)
    ∧ (∀ s, s ∈ scopes →
         dict_get (scope_folds scopes) (scope_location s) = Some (scope_body s))
    ∧ resplice (scope_folds scopes) (fold_positions (length before) scopes)
        (outside_folds before scopes)
      = Some ir_blocks.
Proof.
  intros Hwn Hnd.
  destruct (proj1 (folds_well_nested_splice ir_blocks) Hwn)
    as (before & scopes & -> & Hfree & Hall).
  rewrite fold_scope_locations_app, fold_scope_locations_marker_free,
    fold_scope_locations_splice in Hnd by done. simpl in Hnd.
  exists before, scopes. split; [done|]. split; [done|]. split; [done|].
  assert (Hget : ∀ s, s ∈ scopes →
            dict_get (scope_folds scopes) (scope_location s) = Some (scope_body s)).
  { intros s Hs. by apply dict_get_scope_folds. }
  split; [|split; [done|by apply resplice_splice]].
  unfold extract_folds_from_ir_blocks.
  rewrite for_each_app, extract_folds_outside by done. simpl.
  rewrite extract_folds_splice by done. simpl.
  by rewrite scope_folds_distinct.
Qed.

Lemma extract_folds_partition_witness :
  ∃ before scopes,
    [Filter TrueLiteral;
     Fold (mkFoldScopeLocation (mkLocation "Animal___1" None) "out_Animal_ParentOf");
     MarkLocation (mkLocation "Animal__out_Animal_ParentOf___1" None);
     Unfold;
     Filter FalseLiteral]
    = before ++ splice scopes
    ∧ marker_free before = true
    ∧ Forall scope_pieces_marker_free scopes
    ∧ extract_folds_from_ir_blocks
        [Filter TrueLiteral;
         Fold (mkFoldScopeLocation (mkLocation "Animal___1" None) "out_Animal_ParentOf");
         MarkLocation (mkLocation "Animal__out_Animal_ParentOf___1" None);
         Unfold;
         Filter FalseLiteral]
      = Ok (scope_folds scopes, outside_folds before scopes)
    ∧ (∀ s, s ∈ scopes →
         dict_get (scope_folds scopes) (scope_location s) = Some (scope_body s))
    ∧ resplice (scope_folds scopes) (fold_positions (length before) scopes)
        (outside_folds before scopes)
      = Some [Filter TrueLiteral;
              Fold (mkFoldScopeLocation (mkLocation "Animal___1" None)
                      "out_Animal_ParentOf");
              MarkLocation (mkLocation "Animal__out_Animal_ParentOf___1" None);
              Unfold;
              Filter FalseLiteral].
Proof.
  apply extract_folds_partition; [reflexivity|].
  vm_compute. apply NoDup_singleton.
Defined.

Lemma resplice_elements (folds : dict FoldScopeLocation (list Block))
    (positions : list (nat * FoldScopeLocation)) (remaining out : list Block) (b : Block) :
  resplice folds positions remaining = Some out → b ∈ out →
  b ∈ remaining ∨ is_fold_marker b = true
  ∨ ∃ f body, dict_get folds f = Some body ∧ b ∈ body.
Proof.
  revert remaining out. induction positions as [|[gap f] positions IH];
    intros remaining out; simpl.
  - intros [= <-] Hb. by left.
  - destruct (dict_get folds f) as [body|] eqn:Hbody; [|done].
    destruct (resplice folds positions (drop gap remaining)) as [rest|] eqn:Hrest;
      [|done].
    intros [= <-] Hb.
    apply elem_of_app in Hb as [Hb | Hb].
    { left. by eapply subseteq_take. }
    apply elem_of_cons in Hb as [-> | Hb]; [by right; left|].
    apply elem_of_app in Hb as [Hb | Hb]; [right; right; by exists f, body|].
    apply elem_of_cons in Hb as [-> | Hb]; [by right; left|].
    destruct (IH _ _ Hrest Hb) as [Hd | Hother]; [|by right].
    left. by eapply subseteq_drop.
Qed.

(** Two fold scopes of one location: the blocks of the first are in neither
    output, and no placing of the extracted folds gives the sequence back. *)
Lemma extract_folds_repeated_location :
  folds_well_nested
    [Fold (mkFoldScopeLocation (mkLocation "Animal___1" None) "out_Animal_ParentOf");
     Filter TrueLiteral;
     Unfold;
     Fold (mkFoldScopeLocation (mkLocation "Animal___1" None) "out_Animal_ParentOf");
     Unfold] = true
  ∧ extract_folds_from_ir_blocks
      [Fold (mkFoldScopeLocation (mkLocation "Animal___1" None) "out_Animal_ParentOf");
       Filter TrueLiteral;
       Unfold;
       Fold (mkFoldScopeLocation (mkLocation "Animal___1" None) "out_Animal_ParentOf");
       Unfold]
    = Ok ([(mkFoldScopeLocation (mkLocation "Animal___1" None) "out_Animal_ParentOf",
            [])], [])
  ∧ (∀ positions,
       resplice
         [(mkFoldScopeLocation (mkLocation "Animal___1" None) "out_Animal_ParentOf",
           [])] positions []
       ≠ Some [Fold (mkFoldScopeLocation (mkLocation "Animal___1" None)
                       "out_Animal_ParentOf");
               Filter TrueLiteral;
               Unfold;
               Fold (mkFoldScopeLocation (mkLocation "Animal___1" None)
                       "out_Animal_ParentOf");
               Unfold]).
Proof.
  split; [reflexivity|]. split; [reflexivity|].
  intros positions Heq.
  destruct (resplice_elements _ _ _ _ (Filter TrueLiteral) Heq)
    as [Hin | [Hm | (f & body & Hget & Hin)]].
  - right. left.
  - by apply elem_of_nil in Hin.
  - done.
  - simpl in Hget. case_decide; [|done]. injection Hget as <-.
    by apply elem_of_nil in Hin.
Qed.

(** ** Optional scopes: depth and balance *)

Lemma middle_eq_middle {A : Type} (l1 l2 l3 l4 : list A) (a b : A) :
  l1 ++ a :: l2 = l3 ++ b :: l4 →
  (l1 = l3 ∧ a = b ∧ l2 = l4)
  ∨ (∃ m, l3 = l1 ++ a :: m ∧ l2 = m ++ b :: l4)
  ∨ (∃ m, l1 = l3 ++ b :: m ∧ l4 = m ++ a :: l2).
Proof.
  revert l3. induction l1 as [|c l1 IH]; intros [|c' l3]; simpl; intros Heq.
  - injection Heq as -> ->. by left.
  - injection Heq as -> ->. right; left. by exists l3.
  - injection Heq as -> <-. right; right. by exists l1.
  - injection Heq as -> Heq. destruct (IH _ Heq) as [(-> & -> & ->) | [(m & -> & ->) | (m & -> & ->)]].
    + by left.
    + right; left. by exists m.
    + right; right. by exists m.
Qed.

Lemma scope_depth_app (d : nat) (l1 l2 : list Block) :
  scope_depth d (l1 ++ l2) = scope_depth d l1 ≫= fun d' => scope_depth d' l2.
Proof.
  revert d. induction l1 as [|b l1 IH]; intros d; simpl; [done|].
  destruct (is_optional_Traverse b); [apply IH|].
  destruct (is_EndOptional b); [|apply IH].
  destruct d; [done|apply IH].
Qed.

Lemma scope_depth_shift (k d d' : nat) (l : list Block) :
  scope_depth d l = Some d' → scope_depth (d + k) l = Some (d' + k).
Proof.
  revert d. induction l as [|b l IH]; intros d; simpl.
  - by intros [= ->].
  - destruct (is_optional_Traverse b); [apply (IH (S d))|].
    destruct (is_EndOptional b); [|apply IH].
    destruct d as [|d]; [done|]. apply IH.
Qed.

Lemma scope_depth_prefix (d x : nat) (l1 l2 : list Block) :
  scope_depth d (l1 ++ l2) = Some x → ∃ d', scope_depth d l1 = Some d'.
Proof.
  rewrite scope_depth_app. destruct (scope_depth d l1) as [d'|]; [|done].
  by exists d'.
Qed.

Lemma balanced_true (l : list Block) :
  balanced l = true ↔ scope_depth 0 l = Some 0.
Proof. unfold balanced. apply bool_decide_eq_true. Qed.

Lemma balanced_app (l1 l2 : list Block) :
  balanced l1 = true → balanced l2 = true → balanced (l1 ++ l2) = true.
Proof.
  rewrite !balanced_true, scope_depth_app. intros -> Hl2. by simpl.
Qed.

Lemma balanced_snoc_plain (l : list Block) (b : Block) :
  is_optional_Traverse b = false → is_EndOptional b = false →
  balanced l = true → balanced (l ++ [b]) = true.
Proof.
  intros Ho Hc Hl. apply balanced_app; [done|].
  apply balanced_true. simpl. by rewrite Ho, Hc.
Qed.

Lemma balanced_scope (e : string) (body : list Block) :
  balanced body = true →
  balanced (Traverse e true :: body ++ [EndOptional]) = true.
Proof.
  rewrite !balanced_true. intros Hbody. simpl. rewrite scope_depth_app.
  pose proof (scope_depth_shift 1 0 0 body Hbody) as Hshift. simpl in Hshift.
  by rewrite Hshift.
Qed.

Lemma balanced_closed_scope (s0 : list Block) (e : string) (s : list Block) :
  balanced s0 = true → balanced s = true →
  balanced (s0 ++ Traverse e true :: s ++ [EndOptional]) = true.
Proof. intros H0 Hs. apply balanced_app; [done|]. by apply balanced_scope. Qed.

Lemma balanced_not_after_opener (m : list Block) (e : string) (s : list Block) :
  balanced (m ++ Traverse e true :: s) = true → balanced s = true → False.
Proof.
  rewrite !balanced_true, scope_depth_app. intros Hm Hs.
  destruct (scope_depth 0 m) as [d|]; [|done]. simpl in Hm.
  pose proof (scope_depth_shift (S d) 0 0 s Hs) as Hshift. simpl in Hshift.
  rewrite Hshift in Hm. done.
Qed.

Lemma balanced_not_closing (body rest : list Block) :
  balanced (body ++ EndOptional :: rest) = true → balanced body = true → False.
Proof.
  rewrite !balanced_true, scope_depth_app. intros Hall Hbody.
  by rewrite Hbody in Hall.
Qed.

Lemma openers_agree (pre1 pre2 : list Block) (e1 e2 : string) (s1 s2 : list Block) :
  pre1 ++ Traverse e1 true :: s1 = pre2 ++ Traverse e2 true :: s2 →
  balanced s1 = true → balanced s2 = true →
  pre1 = pre2 ∧ e1 = e2 ∧ s1 = s2.
Proof.
  intros Heq H1 H2.
  destruct (middle_eq_middle _ _ _ _ _ _ Heq)
    as [(-> & [= ->] & ->) | [(m & -> & ->) | (m & -> & ->)]].
  - done.
  - destruct (balanced_not_after_opener _ _ _ H1 H2).
  - destruct (balanced_not_after_opener _ _ _ H2 H1).
Qed.

Lemma has_traversal_app (l1 l2 : list Block) :
  has_traversal (l1 ++ l2) = has_traversal l1 || has_traversal l2.
Proof. apply existsb_app. Qed.

(** ** Optional scopes: the last marked location *)

Lemma marked_locations_app (l1 l2 : list Block) :
  marked_locations (l1 ++ l2) = marked_locations l1 ++ marked_locations l2.
Proof. apply omap_app. Qed.

Lemma last_marked_snoc (l : list Block) (b : Block) :
  last_marked (l ++ [b])
  = match b with
    | MarkLocation x => Some x
    | _ => last_marked l
    end.
Proof.
  unfold last_marked. rewrite marked_locations_app.
  destruct b; simpl; by rewrite ?last_snoc, ?app_nil_r.
Qed.

Lemma last_marked_app (l1 l2 : list Block) :
  last_marked (l1 ++ l2)
  = match last_marked l2 with
    | Some x => Some x
    | None => last_marked l1
    end.
Proof.
  unfold last_marked. rewrite marked_locations_app.
  destruct (marked_locations l2) as [|x l _] using rev_ind.
  - by rewrite app_nil_r.
  - by rewrite app_assoc, !last_snoc.
Qed.

Lemma last_marked_elem (l : list Block) (x : Location) :
  last_marked l = Some x → x ∈ marked_locations l.
Proof.
  unfold last_marked. intros Hlast. apply last_Some in Hlast as [l' ->].
  apply elem_of_app. right. by left.
Qed.

Lemma marks_precede_opener (seen : bool) (pre : list Block) (e : string)
    (post : list Block) :
  marks_precede seen (pre ++ Traverse e true :: post) = true →
  seen = true ∨ is_Some (last_marked pre).
Proof.
  revert seen. induction pre as [|b pre IH]; intros seen; simpl.
  - intros [-> _]%andb_true_iff. by left.
  - intros Hm.
    assert (Hkeep : seen = true ∨ is_Some (last_marked pre) →
                    seen = true ∨ is_Some (last_marked (b :: pre))).
    { intros [-> | Hsome]; [by left|]. right.
      change (b :: pre) with ([b] ++ pre). rewrite last_marked_app.
      by destruct Hsome as [x ->]. }
    destruct b as [x | e' [|] | | | | | |]; try (by apply Hkeep, IH).
    + right. change (MarkLocation x :: pre) with ([MarkLocation x] ++ pre).
      rewrite last_marked_app. destruct (last_marked pre); by eexists.
    + apply andb_true_iff in Hm as [-> _]. by left.
Qed.

(** ** Optional scopes: the enclosing roots *)

Lemma enclosing_depth (pre : list Block) (roots : list Location) :
  enclosing_roots pre roots → scope_depth 0 pre = Some (length roots).
Proof.
  induction 1 as [s Hs | pre roots e r s _ IH _ Hs].
  - by apply balanced_true.
  - rewrite scope_depth_app, IH. simpl.
    apply balanced_true in Hs.
    pose proof (scope_depth_shift (S (length roots)) 0 0 s Hs) as Hshift.
    simpl in Hshift. rewrite Hshift, length_app. simpl. f_equal. lia.
Qed.

Lemma enclosing_inv_open (pre : list Block) (roots : list Location) (r : Location) :
  enclosing_roots pre (roots ++ [r]) →
  ∃ pre' e s,
    pre = pre' ++ Traverse e true :: s
    ∧ enclosing_roots pre' roots ∧ last_marked pre' = Some r ∧ balanced s = true.
Proof.
  intros H. remember (roots ++ [r]) as stack eqn:Hstack.
  destruct H as [s Hs | pre' roots' e r' s Hpre Hr Hs].
  - by destruct roots.
  - apply app_inj_tail in Hstack as [-> ->]. by exists pre', e, s.
Qed.

Lemma enclosing_functional (pre : list Block) (roots1 roots2 : list Location) :
  enclosing_roots pre roots1 → enclosing_roots pre roots2 → roots1 = roots2.
Proof.
  intros H1. revert roots2.
  induction H1 as [s Hs | pre roots e r s Hpre IH Hr Hs]; intros roots2 H2.
  - remember s as l eqn:Hl.
    destruct H2 as [s2 Hs2 | pre2 roots2 e2 r2 s2 Hpre2 Hr2 Hs2]; [done|].
    subst. destruct (balanced_not_after_opener _ _ _ Hs Hs2).
  - remember (pre ++ Traverse e true :: s) as l eqn:Hl.
    destruct H2 as [s2 Hs2 | pre2 roots2 e2 r2 s2 Hpre2 Hr2 Hs2].
    + subst. destruct (balanced_not_after_opener _ _ _ Hs2 Hs).
    + apply openers_agree in Hl as (-> & -> & ->); [|done|done].
      rewrite (IH _ Hpre2). congruence.
Qed.

Lemma scopes_at_enclosing (pre : list Block) (roots : list Location)
    (flags : list bool) :
  scopes_at pre roots flags → enclosing_roots pre roots.
Proof.
  intros [s Hs | pre' roots' e r s Hpre Hr Hs].
  - by apply enclosing_none.
  - by apply enclosing_open.
Qed.

(** ** Stacks and dictionaries *)

Lemma get_last_snoc {A : Type} (l : list A) (x : A) : get_last (l ++ [x]) = Ok x.
Proof. unfold get_last. by rewrite last_snoc. Qed.

Lemma set_last_snoc {A : Type} (l : list A) (x v : A) :
  set_last (l ++ [x]) v = Ok (l ++ [v]).
Proof.
  unfold set_last. destruct (l ++ [x]) eqn:Heq; [by destruct l|].
  rewrite <- Heq, length_app. simpl.
  replace (pred (length l + 1)) with (length l + 0) by lia.
  by rewrite insert_app_r.
Qed.

Lemma pop_snoc {A : Type} (l : list A) (x : A) : pop (l ++ [x]) = Ok l.
Proof.
  unfold pop. destruct (l ++ [x]) eqn:Heq; [by destruct l|].
  by rewrite <- Heq, removelast_last.
Qed.

Lemma dict_get_set {K V : Type} `{EqDecision K} (d : dict K V) (k k' : K) (v : V) :
  dict_get (dict_set d k v) k'
  = if decide (k' = k) then Some v else dict_get d k'.
Proof.
  induction d as [|[k0 v0] d IH]; simpl.
  - done.
  - destruct (decide (k = k0)) as [-> | Hne]; simpl.
    + by destruct (decide (k' = k0)).
    + rewrite IH. destruct (decide (k' = k0)) as [-> | Hne'].
      * by rewrite decide_False by done.
      * done.
Qed.

(** ** Optional scopes: closed scopes and marked locations of a longer prefix *)

Lemma complex_scope_root_extend (l post : list Block) (R : Location) :
  complex_scope_root l R → complex_scope_root (l ++ post) R.
Proof.
  intros (pre & e & body & post' & -> & Hbody & HR & Ht).
  exists pre, e, body, (post' ++ post). split; [|done].
  rewrite <- app_assoc. simpl. by rewrite <- app_assoc.
Qed.

Lemma complex_scope_root_snoc (l : list Block) (b : Block) (R : Location) :
  complex_scope_root (l ++ [b]) R →
  complex_scope_root l R
  ∨ (b = EndOptional
     ∧ ∃ pre e body,
         l = pre ++ Traverse e true :: body ∧ balanced body = true
         ∧ last_marked pre = Some R ∧ has_traversal body = true).
Proof.
  intros (pre & e & body & post & Heq & Hbody & HR & Ht).
  change (pre ++ Traverse e true :: body ++ EndOptional :: post)
    with (pre ++ (Traverse e true :: body) ++ EndOptional :: post) in Heq.
  rewrite app_assoc in Heq.
  apply snoc_eq_middle in Heq as [(-> & <- & <-) | (post' & -> & ->)].
  - right. split; [done|]. by exists pre, e, body.
  - left. exists pre, e, body, post'. split; [|done].
    by rewrite <- app_assoc.
Qed.

Lemma marked_inside_snoc_other (l : list Block) (b : Block) (L : Location)
    (stack : list Location) :
  b ≠ MarkLocation L →
  marked_inside (l ++ [b]) L stack ↔ marked_inside l L stack.
Proof.
  intros Hb. split.
  - intros (pre & post & Heq & Hpre & Hne & Hlater).
    apply snoc_eq_middle in Heq as [(-> & -> & <-) | (post' & -> & ->)]; [done|].
    exists pre, post'. split; [done|]. split; [done|]. split; [done|].
    intros q1 q2 ->. apply (Hlater q1 (q2 ++ [b])).
    by rewrite <- app_assoc.
  - intros (pre & post & -> & Hpre & Hne & Hlater).
    exists pre, (post ++ [b]). split; [by rewrite <- app_assoc|].
    split; [done|]. split; [done|].
    intros q1 q2 Heq.
    apply snoc_eq_middle in Heq as [(-> & -> & <-) | (q2' & -> & ->)]; [done|].
    by apply (Hlater q1 q2').
Qed.

Lemma marked_inside_snoc_outside (l : list Block) (L : Location)
    (stack : list Location) :
  enclosing_roots l [] →
  marked_inside (l ++ [MarkLocation L]) L stack ↔ marked_inside l L stack.
Proof.
  intros Hl. split.
  - intros (pre & post & Heq & Hpre & Hne & Hlater).
    apply snoc_eq_middle in Heq as [(-> & -> & _) | (post' & -> & ->)].
    + destruct Hne. by apply (enclosing_functional l).
    + exists pre, post'. split; [done|]. split; [done|]. split; [done|].
      intros q1 q2 ->. apply (Hlater q1 (q2 ++ [MarkLocation L])).
      by rewrite <- app_assoc.
  - intros (pre & post & -> & Hpre & Hne & Hlater).
    exists pre, (post ++ [MarkLocation L]). split; [by rewrite <- app_assoc|].
    split; [done|]. split; [done|].
    intros q1 q2 Heq.
    apply snoc_eq_middle in Heq as [(-> & -> & _) | (q2' & -> & ->)]; [done|].
    by apply (Hlater q1 q2').
Qed.

Lemma marked_inside_snoc_inside (l : list Block) (L : Location)
    (roots stack : list Location) :
  enclosing_roots l roots → roots ≠ [] →
  marked_inside (l ++ [MarkLocation L]) L stack ↔ stack = roots.
Proof.
  intros Hl Hroots. split.
  - intros (pre & post & Heq & Hpre & Hne & Hlater).
    apply snoc_eq_middle in Heq as [(-> & -> & _) | (post' & -> & ->)].
    + by apply (enclosing_functional l).
    + destruct Hroots. apply (enclosing_functional (pre ++ MarkLocation L :: post'));
        [done|]. by apply (Hlater post' []).
  - intros ->. exists l, []. split; [done|]. split; [done|]. split; [done|].
    intros q1 q2 Heq. by destruct q1.
Qed.

(** ** extract_optional_location_root_info: one step of the scan *)

Lemma encountered_update (pre : list Block) (roots : list Location)
    (flags : list bool) (b : Block) :
  scopes_at pre roots flags →
  (if bool_decide (0 < length roots) && is_Traverse_or_Recurse b
   then set_last flags true
   else Ok flags)
  = Ok (if is_Traverse_or_Recurse b then replicate (length roots) true else flags).
Proof.
  intros [s Hs | pre' roots' e r s Hpre Hr Hs].
  - simpl. by destruct (is_Traverse_or_Recurse b).
  - rewrite bool_decide_eq_true_2 by (rewrite length_app; simpl; lia).
    simpl. destruct (is_Traverse_or_Recurse b); [|done].
    rewrite set_last_snoc, length_app. simpl.
    by rewrite Nat.add_1_r, replicate_S_end.
Qed.

Lemma scopes_at_plain (pre : list Block) (roots : list Location)
    (flags : list bool) (b : Block) :
  is_optional_Traverse b = false → is_EndOptional b = false →
  scopes_at pre roots flags →
  scopes_at (pre ++ [b]) roots
    (if is_Traverse_or_Recurse b then replicate (length roots) true else flags).
Proof.
  intros Ho Hc [s Hs | pre' roots' e r s Hpre Hr Hs].
  - replace (if is_Traverse_or_Recurse b then replicate (length []) true else [])
      with (@nil bool) by by destruct (is_Traverse_or_Recurse b).
    apply scopes_at_none. by apply balanced_snoc_plain.
  - rewrite <- app_assoc. simpl.
    replace (if is_Traverse_or_Recurse b
             then replicate (length (roots' ++ [r])) true
             else replicate (length roots') true ++ [has_traversal s])
      with (replicate (length roots') true ++ [has_traversal (s ++ [b])]).
    + apply scopes_at_open; [done|done|]. by apply balanced_snoc_plain.
    + rewrite has_traversal_app. simpl. rewrite orb_false_r.
      destruct (is_Traverse_or_Recurse b).
      * rewrite orb_true_r, length_app. simpl.
        by rewrite Nat.add_1_r, replicate_S_end.
      * by rewrite orb_false_r.
Qed.

Ltac unfold_optional_root_step :=
  unfold optional_root_step;
  cbn [complex_optional_roots location_to_optional_roots
       in_optional_root_locations encountered_traverse_within_optional
       preceding_location].

Lemma dict_keys_set {K V : Type} `{EqDecision K} (d : dict K V) (k : K) (v : V) :
  dict_keys (dict_set d k v)
  = if bool_decide (k ∈ dict_keys d) then dict_keys d else dict_keys d ++ [k].
Proof.
  induction d as [|[k0 v0] d IH]; simpl; [done|].
  destruct (decide (k = k0)) as [-> | Hne]; simpl.
  - by rewrite bool_decide_eq_true_2 by by left.
  - rewrite IH. case_bool_decide as Hin.
    + by rewrite bool_decide_eq_true_2 by by right.
    + rewrite bool_decide_eq_false_2; [done|].
      by intros [? | ?]%elem_of_cons.
Qed.

Lemma dict_set_NoDup {K V : Type} `{EqDecision K} (d : dict K V) (k : K) (v : V) :
  NoDup (dict_keys d) → NoDup (dict_keys (dict_set d k v)).
Proof.
  intros Hnd. rewrite dict_keys_set. case_bool_decide as Hin; [done|].
  apply NoDup_app. split; [done|]. split; [|apply NoDup_singleton].
  intros x Hx ->%list_elem_of_singleton. done.
Qed.

Lemma step_plain (pre : list Block) (st : OptionalState) (b : Block) :
  optional_inv pre st →
  is_optional_Traverse b = false → is_EndOptional b = false →
  (∀ L, b ≠ MarkLocation L) →
  ∃ st', optional_root_step st b = Ok st' ∧ optional_inv (pre ++ [b]) st'.
Proof.
  intros [Hsc Hprec Hcx Hmap Hkeys] Ho Hc Hm.
  destruct st as [complex mapping roots flags preceding]. simpl in *.
  unfold_optional_root_step.
  rewrite (encountered_update pre roots flags b Hsc). simpl.
  pose proof (scopes_at_plain pre roots flags b Ho Hc Hsc) as Hsc'.
  eexists. split.
  { destruct b as [x | e [|] | | | | | |]; try done. by destruct (Hm x). }
  constructor; simpl.
  - done.
  - rewrite last_marked_snoc. destruct b as [x| | | | | | |]; try done.
    by destruct (Hm x).
  - intros R. rewrite Hcx. split; [apply complex_scope_root_extend|].
    intros [? | [-> _]]%complex_scope_root_snoc; done.
  - intros L stack. rewrite Hmap. symmetry. by apply marked_inside_snoc_other.
  - done.
Qed.

Lemma step_mark (pre : list Block) (st : OptionalState) (x : Location) :
  optional_inv pre st →
  ∃ st', optional_root_step st (MarkLocation x) = Ok st'
         ∧ optional_inv (pre ++ [MarkLocation x]) st'.
Proof.
  intros [Hsc Hprec Hcx Hmap Hkeys].
  destruct st as [complex mapping roots flags preceding]. simpl in *.
  unfold_optional_root_step.
  rewrite (encountered_update pre roots flags (MarkLocation x) Hsc). simpl.
  eexists. split; [done|].
  pose proof (scopes_at_enclosing _ _ _ Hsc) as Henc.
  constructor; simpl.
  - by apply (scopes_at_plain pre roots flags (MarkLocation x)).
  - by rewrite last_marked_snoc.
  - intros R. rewrite Hcx. split; [apply complex_scope_root_extend|].
    intros [? | [? _]]%complex_scope_root_snoc; done.
  - intros L stack. destruct (decide (L = x)) as [-> | Hne].
    + case_bool_decide as Hlen.
      * rewrite dict_get_set, decide_True by done.
        rewrite (marked_inside_snoc_inside pre x roots) by (by destruct roots).
        split; [by intros [= <-]|by intros ->].
      * assert (roots = []) as ->.
        { by destruct roots. }
        rewrite Hmap. symmetry. by apply marked_inside_snoc_outside.
    + assert (Hget : dict_get (if bool_decide (length roots ≠ 0)
                               then dict_set mapping x roots else mapping) L
                     = dict_get mapping L).
      { case_bool_decide; [|done]. by rewrite dict_get_set, decide_False. }
      rewrite Hget, Hmap. symmetry. apply marked_inside_snoc_other. congruence.
  - case_bool_decide; [|done]. by apply dict_set_NoDup.
Qed.

Lemma step_open (pre : list Block) (st : OptionalState) (e : string) :
  optional_inv pre st → is_Some (last_marked pre) →
  ∃ st', optional_root_step st (Traverse e true) = Ok st'
         ∧ optional_inv (pre ++ [Traverse e true]) st'.
Proof.
  intros [Hsc Hprec Hcx Hmap Hkeys] [p Hp].
  destruct st as [complex mapping roots flags preceding]. simpl in *.
  unfold_optional_root_step.
  rewrite (encountered_update pre roots flags (Traverse e true) Hsc). simpl.
  rewrite Hprec, Hp.
  eexists. split; [done|].
  constructor; simpl.
  - apply (scopes_at_open pre roots e p []); [|done|done].
    by apply (scopes_at_enclosing _ _ flags).
  - by rewrite last_marked_snoc.
  - intros R. rewrite Hcx. split; [apply complex_scope_root_extend|].
    intros [? | [? _]]%complex_scope_root_snoc; done.
  - intros L stack. rewrite Hmap. symmetry. by apply marked_inside_snoc_other.
  - done.
Qed.

Lemma step_close (pre : list Block) (st : OptionalState) :
  optional_inv pre st → is_Some (scope_depth 0 (pre ++ [EndOptional])) →
  ∃ st', optional_root_step st EndOptional = Ok st'
         ∧ optional_inv (pre ++ [EndOptional]) st'.
Proof.
  intros [Hsc Hprec Hcx Hmap Hkeys] Hdepth.
  destruct st as [complex mapping roots flags preceding]. simpl in *.
  unfold_optional_root_step.
  rewrite (encountered_update pre roots flags EndOptional Hsc). simpl.
  destruct Hsc as [s Hs | pre' roots' e r s Hpre Hr Hs].
  { apply balanced_true in Hs. rewrite scope_depth_app, Hs in Hdepth.
    by destruct Hdepth. }
  rewrite bool_decide_eq_false_2 by (rewrite length_app; simpl; lia).
  rewrite get_last_snoc. simpl. rewrite !pop_snoc. simpl.
  exists (mkOptionalState (if has_traversal s then complex ++ [r] else complex)
            mapping roots' (replicate (length roots') true) preceding).
  split.
  { destruct (has_traversal s); simpl; [by rewrite get_last_snoc|done]. }
  constructor; simpl.
  - destruct Hpre as [s0 Hs0 | p roots0 e0 r0 s0 Hp Hr0 Hs0].
    + rewrite <- app_assoc. simpl. apply scopes_at_none.
      by apply balanced_closed_scope.
    + rewrite <- !app_assoc. simpl. rewrite length_app. simpl.
      rewrite Nat.add_1_r, replicate_S_end.
      pose proof (scopes_at_open p roots0 e0 r0
                    (s0 ++ Traverse e true :: s ++ [EndOptional]) Hp Hr0
                    (balanced_closed_scope s0 e s Hs0 Hs)) as Hat.
      rewrite has_traversal_app in Hat. simpl in Hat.
      by rewrite orb_true_r in Hat.
  - by rewrite last_marked_snoc.
  - intros R. split.
    + intros HR.
      assert (Hcases : R ∈ complex ∨ (has_traversal s = true ∧ R = r)).
      { destruct (has_traversal s); [|by left].
        apply elem_of_app in HR as [HR | HR%list_elem_of_singleton]; auto. }
      destruct Hcases as [HR' | [Ht ->]].
      * apply complex_scope_root_extend. by apply Hcx.
      * exists pre', e, s, []. split; [by rewrite <- app_assoc|done].
    + intros [HR | (_ & pre2 & e2 & body2 & Heq & Hbody & HR & Ht)]%complex_scope_root_snoc.
      * apply Hcx in HR. destruct (has_traversal s); [|done].
        apply elem_of_app. by left.
      * apply openers_agree in Heq as (-> & -> & ->); [|done|done].
        rewrite Ht. apply elem_of_app. right.
        apply list_elem_of_singleton. congruence.
  - intros L stack. rewrite Hmap. symmetry. by apply marked_inside_snoc_other.
  - done.
Qed.

Lemma optional_root_step_inv (pre : list Block) (st : OptionalState) (b : Block) :
  optional_inv pre st →
  is_Some (scope_depth 0 (pre ++ [b])) →
  (is_optional_Traverse b = true → is_Some (last_marked pre)) →
  ∃ st', optional_root_step st b = Ok st' ∧ optional_inv (pre ++ [b]) st'.
Proof.
  intros Hinv Hdepth Hmark.
  destruct b as [x | e [|] | | | | | |];
    try (by apply step_plain).
  - by apply step_mark.
  - apply step_open; [done|]. by apply Hmark.
  - by apply step_close.
Qed.

Lemma optional_inv_init : optional_inv [] optional_root_init.
Proof.
  constructor; simpl.
  - by apply scopes_at_none.
  - done.
  - intros R. split; [by intros ?%elem_of_nil|].
    intros (pre & e & body & post & Heq & _). by destruct pre.
  - intros L stack. split; [done|].
    intros (pre & post & Heq & _). by destruct pre.
  - apply NoDup_nil_2.
Qed.

Lemma optional_root_run (nf suffix pre : list Block) (st : OptionalState) :
  optionals_well_nested nf = true →
  pre ++ suffix = nf → optional_inv pre st →
  ∃ st', for_each optional_root_step st suffix = Ok st' ∧ optional_inv nf st'.
Proof.
  intros [Hbal Hmarks]%andb_true_iff. revert pre st.
  induction suffix as [|b suffix IH]; intros pre st Hnf Hinv; simpl.
  - rewrite app_nil_r in Hnf. subst. by exists st.
  - destruct (optional_root_step_inv pre st b Hinv) as (st1 & -> & Hinv1).
    + apply balanced_true in Hbal.
      rewrite <- Hnf, (cons_middle b), app_assoc in Hbal.
      by apply scope_depth_prefix in Hbal.
    + intros Hopen. destruct b as [| e [|] | | | | | |]; try done.
      rewrite <- Hnf in Hmarks.
      by destruct (marks_precede_opener _ _ _ _ Hmarks).
    + simpl. apply (IH (pre ++ [b])); [|done].
      by rewrite <- app_assoc.
Qed.

Lemma optional_root_scan (nf : list Block) :
  optionals_well_nested nf = true →
  ∃ st, for_each optional_root_step optional_root_init nf = Ok st
        ∧ optional_inv nf st.
Proof.
  intros Hwn. apply (optional_root_run nf nf []); [done|done|].
  apply optional_inv_init.
Qed.

(** ** The blocks the scans of the optional scopes read *)

Lemma extract_folds_remaining_from (l : list Block) (st : FoldState) :
  match for_each extract_folds_step st l with
  | Ok st' =>
      remaining_ir_blocks st'
      = remaining_ir_blocks st
        ++ blocks_outside_folds
             (match in_fold_location st with Some _ => true | None => false end)
             l
  | Raise _ => True
  end.
Proof.
  revert st. induction l as [|b l IH]; intros [fs rem cur loc].
  - simpl. by rewrite app_nil_r.
  - cbn [for_each].
    destruct b as [x | e o | e d | p | f | | | fields], loc as [f0|];
      cbn [extract_folds_step bind in_fold_location remaining_ir_blocks
           current_folded_blocks folds blocks_outside_folds];
      try done;
      match goal with
      | |- context [for_each extract_folds_step ?st1 l] =>
          specialize (IH st1);
          destruct (for_each extract_folds_step st1 l) as [st'|err]; [|done];
          cbn [in_fold_location remaining_ir_blocks] in IH;
          rewrite IH; by rewrite <- ?app_assoc
      end.
Qed.

Lemma extract_folds_remaining (l : list Block)
    (fs : dict FoldScopeLocation (list Block)) (rem : list Block) :
  extract_folds_from_ir_blocks l = Ok (fs, rem) →
  rem = blocks_outside_folds false l.
Proof.
  unfold extract_folds_from_ir_blocks.
  pose proof (extract_folds_remaining_from l extract_folds_init) as Hrun.
  destruct (for_each extract_folds_step extract_folds_init l) as [st|x];
    [|done].
  by intros [= _ <-].
Qed.

Lemma folds_well_nested_extracts (l : list Block) :
  folds_well_nested l = true →
  ∃ fs, extract_folds_from_ir_blocks l = Ok (fs, blocks_outside_folds false l).
Proof.
  intros (before & scopes & -> & Hfree & Hall)%folds_well_nested_splice.
  assert (Hrun : ∃ fs rem,
            extract_folds_from_ir_blocks (before ++ splice scopes)
            = Ok (fs, rem)).
  { unfold extract_folds_from_ir_blocks.
    rewrite for_each_app, extract_folds_outside by done. cbn [bind].
    rewrite extract_folds_splice by done. by eexists _, _. }
  destruct Hrun as (fs & rem & Hrun). exists fs.
  by rewrite <- (extract_folds_remaining _ _ _ Hrun).
Qed.

(** C2, as the code has it. For a sequence whose fold markers are well
    nested and whose blocks outside of folds are well nested, the analysis
    returns; it reads the blocks outside of folds only; a location is among
    the complex roots exactly when it is the root of an optional scope that
    holds a [Traverse] or a [Recurse] before its [EndOptional]; and a location
    is mapped exactly when it is marked inside an optional scope, to the roots
    of the scopes open where it is last marked inside one, the outermost
    first and the innermost last; a location that is not marked again is
    mapped to the roots of the scopes open at its marking. *)
Theorem extract_optional_location_root_info_scopes (ir_blocks : list Block) :
  folds_well_nested ir_blocks = true →
  optionals_well_nested (blocks_outside_folds false ir_blocks) = true →
  ∃ complex mapping,
    extract_optional_location_root_info ir_blocks = Ok (complex, mapping)
    ∧ (∀ R, R ∈ complex
            ↔ complex_scope_root (blocks_outside_folds false ir_blocks) R)
    ∧ (∀ L stack,
         dict_get mapping L = Some stack
         ↔ marked_inside (blocks_outside_folds false ir_blocks) L stack)
    ∧ (∀ pre L post stack,
         blocks_outside_folds false ir_blocks = pre ++ MarkLocation L :: post →
         L ∉ marked_locations post →
         enclosing_roots pre stack → stack ≠ [] →
         dict_get mapping L = Some stack).
Proof.
  intros [fs Hfolds]%folds_well_nested_extracts Hwn.
  destruct (optional_root_scan _ Hwn) as (st & Hrun & Hinv).
  exists (complex_optional_roots st), (location_to_optional_roots st).
  unfold extract_optional_location_root_info. rewrite Hfolds. simpl.
  rewrite Hrun. simpl. split; [done|]. split; [|split].
  - apply (inv_complex _ _ Hinv).
  - apply (inv_mapping _ _ Hinv).
  - intros pre L post stack Hnf Hlast Hpre Hne.
    apply (inv_mapping _ _ Hinv). exists pre, post.
    split; [done|]. split; [done|]. split; [done|].
    intros q1 q2 ->. destruct Hlast.
    rewrite marked_locations_app. apply elem_of_app. right. by left.
Qed.

Lemma extract_optional_location_root_info_scopes_witness :
  ∃ complex mapping,
    extract_optional_location_root_info nested_optionals = Ok (complex, mapping)
    ∧ (∀ R, R ∈ complex
            ↔ complex_scope_root (blocks_outside_folds false nested_optionals) R)
    ∧ (∀ L stack,
         dict_get mapping L = Some stack
         ↔ marked_inside (blocks_outside_folds false nested_optionals) L stack)
    ∧ (∀ pre L post stack,
         blocks_outside_folds false nested_optionals
         = pre ++ MarkLocation L :: post →
         L ∉ marked_locations post →
         enclosing_roots pre stack → stack ≠ [] →
         dict_get mapping L = Some stack).
Proof.
  apply (extract_optional_location_root_info_scopes nested_optionals);
    reflexivity.
Defined.

(** A location marked inside two optional scopes: [parent] is marked while
    the scope of root [animal] is open, and again while the scope of root
    [species] is open; it is mapped to the roots of its last marking, not to
    the scope of [animal]. *)
Lemma location_marked_twice_last_marking :
  folds_well_nested location_marked_twice = true
  ∧ optionals_well_nested (blocks_outside_folds false location_marked_twice)
    = true
  ∧ location_marked_twice
    = [MarkLocation animal; Traverse "out_Animal_ParentOf" true]
        ++ MarkLocation parent
        :: [EndOptional; MarkLocation species; Traverse "out_Species_Eats" true;
            MarkLocation parent; EndOptional]
  ∧ enclosing_roots [MarkLocation animal; Traverse "out_Animal_ParentOf" true]
      [animal]
  ∧ extract_optional_location_root_info location_marked_twice
    = Ok ([], [(parent, [species])])
  ∧ dict_get [(parent, [species])] parent = Some [species]
  ∧ [species] ≠ [animal].
Proof.
  split; [done|]. split; [done|]. split; [done|]. split; [|done].
  apply (enclosing_open [MarkLocation animal] [] "out_Animal_ParentOf" animal []);
    [by apply enclosing_none|done|done].
Qed.

(** One optional scope with one location: its root is not complex; with a
    further [Traverse] before its [EndOptional] it is. *)
Example simple_optional_analysed :
  extract_optional_location_root_info simple_optional
  = Ok ([], [(parent, [animal])]).
Proof. reflexivity. Qed.

Example expanded_optional_analysed (A B : Location) (e1 e2 : string) :
  extract_optional_location_root_info
    [MarkLocation A; Traverse e1 true; MarkLocation B; Traverse e2 false;
     EndOptional]
  = Ok ([A], [(B, [A])]).
Proof. reflexivity. Qed.

(** A [Traverse] and a [MarkLocation] inside a fold are not seen. *)
Example folded_traverse_not_seen :
  extract_optional_location_root_info
    [MarkLocation animal; Traverse "out_Animal_ParentOf" true; MarkLocation parent;
     Fold (mkFoldScopeLocation parent "out_Animal_ParentOf");
     MarkLocation feeding; Traverse "out_Animal_FedAt" false;
     Unfold;
     EndOptional]
  = Ok ([], [(parent, [animal])]).
Proof. reflexivity. Qed.

(** ** Optional scopes: every opened scope of a balanced sequence is closed *)

Lemma scope_closes (rest : list Block) (n m : nat) :
  scope_depth (S n) rest = Some m → (m ≤ n)%nat →
  ∃ body post,
    rest = body ++ EndOptional :: post ∧ balanced body = true
    ∧ scope_depth n post = Some m.
Proof.
  remember (length rest) as k eqn:Hk. revert rest n Hk.
  induction k as [k IH] using lt_wf_ind. intros [|b rest] n Hk; simpl.
  - intros [= <-] Hle. lia.
  - destruct (is_optional_Traverse b) eqn:Ho.
    + intros Hd Hle.
      destruct (IH (length rest) ltac:(simpl in Hk; lia) rest (S n) eq_refl Hd
                  ltac:(lia)) as (body1 & post1 & -> & Hb1 & Hd1).
      destruct (IH (length post1)
                  ltac:(simpl in Hk; rewrite length_app in Hk; simpl in Hk; lia)
                  post1 n eq_refl Hd1 Hle) as (body2 & post2 & -> & Hb2 & Hd2).
      exists (b :: body1 ++ EndOptional :: body2), post2.
      split; [simpl; by rewrite <- app_assoc|].
      split; [|done].
      destruct b as [| e [|] | | | | | |]; try done.
      replace (Traverse e true :: body1 ++ EndOptional :: body2)
        with ((Traverse e true :: body1 ++ [EndOptional]) ++ body2)
        by (simpl; by rewrite <- app_assoc).
      apply balanced_app; [|done]. by apply balanced_scope.
    + destruct (is_EndOptional b) eqn:Hc.
      * intros Hd Hle. destruct b; try done. by exists [], rest.
      * intros Hd Hle.
        destruct (IH (length rest) ltac:(simpl in Hk; lia) rest n eq_refl Hd Hle)
          as (body1 & post1 & -> & Hb1 & Hd1).
        exists (b :: body1), post1. split; [done|]. split; [|done].
        change (b :: body1) with ([b] ++ body1).
        apply balanced_app; [|done]. apply balanced_true. simpl.
        by rewrite Ho, Hc.
Qed.

Lemma opener_is_closed (pre : list Block) (e : string) (rest : list Block) :
  balanced (pre ++ Traverse e true :: rest) = true →
  ∃ body post, rest = body ++ EndOptional :: post ∧ balanced body = true.
Proof.
  rewrite balanced_true, scope_depth_app.
  destruct (scope_depth 0 pre) as [d|]; [|done]. simpl. intros Hd.
  destruct (scope_closes rest d 0 Hd ltac:(lia)) as (body & post & -> & Hb & _).
  by exists body, post.
Qed.

Lemma scope_with_opener_inside (s : list Block) (e : string)
    (post body post' : list Block) :
  s ++ Traverse e true :: post = body ++ EndOptional :: post' →
  balanced s = true → balanced body = true →
  ∃ m, body = s ++ Traverse e true :: m.
Proof.
  intros Heq Hs Hbody.
  destruct (middle_eq_middle _ _ _ _ _ _ Heq)
    as [(_ & ? & _) | [(m & -> & _) | (m & -> & _)]]; [done|by exists m|].
  destruct (balanced_not_closing _ _ Hs Hbody).
Qed.

(** C10. An optional [Traverse] met while an optional scope is open sets the
    flag of the innermost open scope before it pushes its own root and flag;
    so, in a well-nested sequence, the root of the innermost scope open at an
    optional [Traverse] is among the complex roots. *)
Theorem nested_optional_makes_parent_complex (ir_blocks : list Block)
    (folds : dict FoldScopeLocation (list Block)) (non_folded : list Block) :
  extract_folds_from_ir_blocks ir_blocks = Ok (folds, non_folded) →
  optionals_well_nested non_folded = true →
  (∃ complex mapping,
     extract_optional_location_root_info ir_blocks = Ok (complex, mapping)
     ∧ ∀ pre e post outer R,
         non_folded = pre ++ Traverse e true :: post →
         enclosing_roots pre (outer ++ [R]) →
         R ∈ complex)
  ∧ (∀ complex mapping roots root flags flag location e,
       optional_root_step
         (mkOptionalState complex mapping (roots ++ [root]) (flags ++ [flag])
            (Some location))
         (Traverse e true)
       = Ok (mkOptionalState complex mapping ((roots ++ [root]) ++ [location])
               ((flags ++ [true]) ++ [false]) (Some location))).
Proof.
  intros Hfolds Hwn. split.
  - destruct (optional_root_scan non_folded Hwn) as (st & Hrun & Hinv).
    exists (complex_optional_roots st), (location_to_optional_roots st).
    unfold extract_optional_location_root_info. rewrite Hfolds. simpl.
    rewrite Hrun. simpl. split; [done|].
    intros pre e post outer R Hnf Hopen.
    apply (inv_complex _ _ Hinv).
    apply enclosing_inv_open in Hopen as (pre' & e' & s & -> & _ & HR & Hs).
    apply andb_true_iff in Hwn as [Hbal _].
    rewrite Hnf, <- app_assoc in Hbal. simpl in Hbal.
    destruct (opener_is_closed _ _ _ Hbal) as (body & post' & Heq & Hbody).
    destruct (scope_with_opener_inside _ _ _ _ _ Heq Hs Hbody) as (m & ->).
    exists pre', e', (s ++ Traverse e true :: m), post'.
    split; [by rewrite Hnf, <- app_assoc, <- Heq|].
    split; [done|]. split; [done|].
    rewrite has_traversal_app. simpl. apply orb_true_r.
  - intros complex mapping roots root flags flag location e.
    unfold_optional_root_step.
    rewrite bool_decide_eq_true_2 by (rewrite length_app; simpl; lia).
    simpl. by rewrite set_last_snoc.
Qed.

Lemma nested_optional_makes_parent_complex_witness :
  ∃ complex mapping,
    extract_optional_location_root_info nested_optionals = Ok (complex, mapping)
    ∧ animal ∈ complex.
Proof.
  destruct (proj1 (nested_optional_makes_parent_complex nested_optionals []
                     nested_optionals eq_refl eq_refl))
    as (complex & mapping & Hrun & Hparent).
  exists complex, mapping. split; [exact Hrun|].
  apply (Hparent
           [MarkLocation animal; Traverse "out_Animal_ParentOf" true;
            MarkLocation parent]
           "out_Animal_FedAt"
           [MarkLocation feeding; EndOptional; EndOptional] [] animal).
  - reflexivity.
  - apply (enclosing_open [MarkLocation animal] [] "out_Animal_ParentOf" animal
             [MarkLocation parent]).
    + apply enclosing_none. reflexivity.
    + reflexivity.
    + reflexivity.
Defined.

(** The scopes open in the nested sequence after its second optional
    [Traverse]. *)
Example nested_optionals_enclosing :
  enclosing_roots
    [MarkLocation animal; Traverse "out_Animal_ParentOf" true; MarkLocation parent;
     Traverse "out_Animal_FedAt" true]
    [animal; parent].
Proof.
  apply (enclosing_open
           [MarkLocation animal; Traverse "out_Animal_ParentOf" true;
            MarkLocation parent]
           [animal] "out_Animal_FedAt" parent []); [|done|done].
  apply (enclosing_open [MarkLocation animal] [] "out_Animal_ParentOf" animal
           [MarkLocation parent]); [|done|done].
  by apply enclosing_none.
Qed.

(** The nested sequence, run: the outer root alone is complex. *)
Example nested_optionals_analysed :
  extract_optional_location_root_info nested_optionals
  = Ok ([animal], [(parent, [animal]); (feeding, [animal; parent])]).
Proof. reflexivity. Qed.

(** ** Optional scopes: prefixes of a well-nested sequence *)

Lemma optional_inv_prefix (nf pre suffix : list Block) :
  optionals_well_nested nf = true → pre ++ suffix = nf →
  ∃ st, for_each optional_root_step optional_root_init pre = Ok st
        ∧ optional_inv pre st.
Proof.
  intros [Hbal Hmarks]%andb_true_iff. revert suffix.
  induction pre as [|b pre IH] using rev_ind; intros suffix Hnf.
  - exists optional_root_init. split; [done|apply optional_inv_init].
  - rewrite <- app_assoc in Hnf. simpl in Hnf.
    destruct (IH _ Hnf) as (st & Hrun & Hinv).
    destruct (optional_root_step_inv pre st b Hinv) as (st1 & Hstep & Hinv1).
    + apply balanced_true in Hbal.
      rewrite <- Hnf, (cons_middle b), app_assoc in Hbal.
      by apply scope_depth_prefix in Hbal.
    + intros Hopen. destruct b as [| e [|] | | | | | |]; try done.
      rewrite <- Hnf in Hmarks.
      by destruct (marks_precede_opener _ _ _ _ Hmarks).
    + exists st1. split; [|done].
      rewrite for_each_app, Hrun. simpl. by rewrite Hstep.
Qed.

Lemma prefix_enclosing (nf pre suffix : list Block) :
  optionals_well_nested nf = true → pre ++ suffix = nf →
  ∃ roots, enclosing_roots pre roots.
Proof.
  intros Hwn Hnf. destruct (optional_inv_prefix nf pre suffix Hwn Hnf)
    as (st & _ & Hinv).
  exists (in_optional_root_locations st).
  apply (scopes_at_enclosing _ _ _ (inv_scopes _ _ Hinv)).
Qed.

Lemma scope_depth_no_opener (d d' : nat) (l : list Block) :
  has_traversal l = false → scope_depth d l = Some d' → (d' ≤ d)%nat.
Proof.
  revert d. induction l as [|b l IH]; intros d; simpl.
  - intros _ [= <-]. lia.
  - intros [Hb Hl]%orb_false_iff.
    destruct b as [| e o | | | | | |]; try done; simpl; try (by apply IH).
    destruct d as [|d]; [done|]. intros Hd. apply IH in Hd; [lia|done].
Qed.

Lemma no_traversal_prefix_balanced (b1 b2 : list Block) :
  has_traversal (b1 ++ b2) = false → balanced (b1 ++ b2) = true →
  balanced b1 = true.
Proof.
  rewrite has_traversal_app, !balanced_true, scope_depth_app.
  intros [H1 H2]%orb_false_iff Hd.
  destruct (scope_depth 0 b1) as [d|] eqn:Hd1; [|done].
  apply scope_depth_no_opener in Hd1; [|done].
  f_equal. lia.
Qed.

(** ** Locations marked once *)

Lemma marked_twice (x y z : list Block) (B : Location) :
  NoDup (marked_locations (x ++ MarkLocation B :: y ++ MarkLocation B :: z)) →
  False.
Proof.
  rewrite marked_locations_app. simpl. rewrite marked_locations_app. simpl.
  intros [_ [_ Hnd]]%NoDup_app. apply NoDup_cons in Hnd as [Hnot _].
  apply Hnot, elem_of_app. right. by left.
Qed.

Lemma last_marked_fresh (p m rest : list Block) (R : Location) :
  last_marked p = Some R → last_marked (p ++ m) = Some R →
  NoDup (marked_locations (p ++ m ++ rest)) →
  marked_locations m = [].
Proof.
  intros Hp Hpm Hnd. rewrite last_marked_app in Hpm.
  destruct (last_marked m) as [x|] eqn:Hm.
  - injection Hpm as ->. exfalso.
    apply last_marked_elem in Hp, Hm.
    rewrite !marked_locations_app in Hnd.
    apply NoDup_app in Hnd as (_ & Hdisj & _).
    apply (Hdisj R Hp), elem_of_app. by left.
  - unfold last_marked in Hm. by apply last_None in Hm.
Qed.

(** ** Dictionaries with distinct keys *)

Lemma dict_get_Some_elem {K V : Type} `{EqDecision K} (d : dict K V) (k : K) (v : V) :
  dict_get d k = Some v → (k, v) ∈ d.
Proof.
  induction d as [|[k0 v0] d IH]; simpl; [done|].
  case_decide as Heq.
  - intros [= ->]. subst. by left.
  - intros Hget. right. by apply IH.
Qed.

Lemma dict_elem_get {K V : Type} `{EqDecision K} (d : dict K V) (k : K) (v : V) :
  NoDup (dict_keys d) → (k, v) ∈ d → dict_get d k = Some v.
Proof.
  induction d as [|[k0 v0] d IH]; simpl.
  - by intros _ ?%elem_of_nil.
  - intros [Hfresh Hnd]%NoDup_cons [[= -> ->] | Hin]%elem_of_cons.
    + by rewrite decide_True.
    + case_decide as Heq; [|by apply IH].
      subst. destruct Hfresh.
      change k0 with (fst (k0, v)). by apply list_elem_of_fmap_2.
Qed.

Lemma dict_keys_get {K V : Type} `{EqDecision K} (d : dict K V) (k : K) :
  k ∈ dict_keys d ↔ is_Some (dict_get d k).
Proof.
  induction d as [|[k0 v0] d IH]; simpl.
  - split; [by intros ?%elem_of_nil|by intros [? ?]].
  - rewrite elem_of_cons. case_decide as Heq.
    + split; [by eexists|by left].
    + rewrite IH. split; [by intros [? | ?]|by right].
Qed.

(** ** extract_simple_optional_location_info: the two comprehensions *)

Lemma location_to_preceding_items (mapping : dict Location (list Location))
    (acc : dict Location Location) :
  NoDup (dict_keys acc ++ dict_keys mapping) →
  (∀ L stack, (L, stack) ∈ mapping → stack ≠ []) →
  ∃ items,
    for_each (fun d '(location, optional_root_locations_stack) =>
                do root <- get_last optional_root_locations_stack;
                Ok (dict_set d location root))
             acc mapping
    = Ok (acc ++ items)
    ∧ ∀ L R, (L, R) ∈ items ↔ ∃ stack, (L, stack) ∈ mapping ∧ last stack = Some R.
Proof.
  revert acc. induction mapping as [|[L0 stack0] mapping IH]; intros acc Hnd Hne.
  - exists []. simpl. rewrite app_nil_r. split; [done|].
    intros L R. split; [by intros ?%elem_of_nil|].
    by intros (stack & ?%elem_of_nil & _).
  - simpl. unfold get_last.
    destruct (last stack0) as [r0|] eqn:Hlast.
    2: { apply last_None in Hlast. destruct (Hne L0 stack0); [by left|done]. }
    simpl. simpl in Hnd.
    rewrite dict_set_fresh.
    2: { apply NoDup_app in Hnd as (_ & Hdisj & _). intros Hin.
         apply (Hdisj _ Hin). by left. }
    destruct (IH (acc ++ [(L0, r0)])) as (items & Hrun & Hitems).
    + rewrite dict_keys_app. simpl. rewrite <- app_assoc. done.
    + intros L stack Hin. apply (Hne L stack). by right.
    + exists ((L0, r0) :: items).
      split; [rewrite <- app_assoc in Hrun; exact Hrun|].
      intros L R. rewrite elem_of_cons, Hitems. split.
      * intros [[= -> ->] | (stack & Hin & Hl)].
        -- exists stack0. split; [by left|done].
        -- exists stack. split; [by right|done].
      * intros (stack & [[= -> ->] | Hin]%elem_of_cons & Hl).
        -- left. congruence.
        -- right. by exists stack.
Qed.

Lemma simple_root_unique (complex : list Location) (R B : Location)
    (items d : dict Location Location) :
  R ∉ complex →
  (∀ inner, (inner, R) ∈ items → inner = B) →
  (B, R) ∈ items ∨ dict_get d R = Some B →
  dict_get
    (foldl (fun d '(inner_location, optional_root_location) =>
              if bool_decide (optional_root_location ∈ complex)
              then d
              else dict_set d optional_root_location inner_location)
           d items) R
  = Some B.
Proof.
  intros HR. revert d. induction items as [|[inner root] items IH];
    intros d Honly Hsome; simpl.
  - destruct Hsome as [?%elem_of_nil | ?]; done.
  - apply IH; [intros i Hi; apply Honly; by right|].
    destruct (decide (root = R)) as [-> | Hne].
    + right. rewrite bool_decide_eq_false_2 by done.
      rewrite dict_get_set, decide_True by done.
      f_equal. apply Honly. by left.
    + destruct Hsome as [[[= _ ?] | Hin]%elem_of_cons | Hget];
        [done|by left|right].
      case_bool_decide; [done|]. by rewrite dict_get_set, decide_False.
Qed.

Lemma simple_keys_not_complex (complex : list Location)
    (items d : dict Location Location) (k : Location) :
  (∀ k, k ∈ dict_keys d → k ∉ complex) →
  k ∈ dict_keys
        (foldl (fun d '(inner_location, optional_root_location) =>
                  if bool_decide (optional_root_location ∈ complex)
                  then d
                  else dict_set d optional_root_location inner_location)
               d items) →
  k ∉ complex.
Proof.
  revert d. induction items as [|[inner root] items IH]; intros d Hd; simpl.
  - apply Hd.
  - apply IH. intros k'. case_bool_decide as Hin; [apply Hd|].
    rewrite dict_keys_set. case_bool_decide; [apply Hd|].
    intros [? | ->%list_elem_of_singleton]%elem_of_app; [by apply Hd|done].
Qed.

(** ** extract_simple_optional_location_info: the second scan *)

Lemma preceding_after_cons (preceding : option Location) (b : Block)
    (l : list Block) :
  preceding_after preceding (b :: l)
  = preceding_after (match b with
                     | MarkLocation x => Some x
                     | _ => preceding
                     end) l.
Proof.
  unfold preceding_after. change (b :: l) with ([b] ++ l).
  rewrite last_marked_app. destruct (last_marked l); [done|].
  by destruct b.
Qed.

Lemma simple_scan (root_to_inner : dict Location Location) (l : list Block)
    (info : dict Location SimpleOptionalInfo) (preceding : option Location) :
  ∃ info',
    for_each (simple_optional_step root_to_inner) (info, preceding) l
    = Ok (info', preceding_after preceding l)
    ∧ (∀ k, is_Some (dict_get info' k) →
            is_Some (dict_get info k) ∨ k ∈ dict_keys root_to_inner)
    ∧ (∀ R,
         (∀ p e q, l = p ++ Traverse e true :: q →
                   preceding_after preceding p ≠ Some R) →
         dict_get info' R = dict_get info R).
Proof.
  revert info preceding. induction l as [|b l IH]; intros info preceding.
  - exists info. split; [done|]. split; [by left|done].
  - assert (Hplain :
      simple_optional_step root_to_inner (info, preceding) b = Ok (info, preceding) →
      (∀ x, b ≠ MarkLocation x) →
      ∃ info',
        for_each (simple_optional_step root_to_inner) (info, preceding) (b :: l)
        = Ok (info', preceding_after preceding (b :: l))
        ∧ (∀ k, is_Some (dict_get info' k) →
                is_Some (dict_get info k) ∨ k ∈ dict_keys root_to_inner)
        ∧ (∀ R,
             (∀ p e q, b :: l = p ++ Traverse e true :: q →
                       preceding_after preceding p ≠ Some R) →
             dict_get info' R = dict_get info R)).
    { intros Hstep Hb. destruct (IH info preceding) as (info' & Hrun & Hkeys & Hkeep).
      assert (Hsame : match b with MarkLocation x => Some x | _ => preceding end
                      = preceding).
      { destruct b as [x| | | | | | |]; try done. by destruct (Hb x). }
      exists info'. cbn [for_each]. rewrite Hstep. cbn [bind]. rewrite Hrun.
      rewrite preceding_after_cons, Hsame.
      split; [done|]. split; [done|].
      intros R HR. apply Hkeep. intros p e q ->.
      specialize (HR (b :: p) e q eq_refl).
      by rewrite preceding_after_cons, Hsame in HR. }
    destruct b as [x | e o | | | | | |]; try (by apply Hplain).
    + destruct (IH info (Some x)) as (info' & Hrun & Hkeys & Hkeep).
      exists info'. cbn [for_each simple_optional_step bind].
      rewrite Hrun, preceding_after_cons.
      split; [done|]. split; [done|].
      intros R HR. apply Hkeep. intros p e q ->.
      specialize (HR (MarkLocation x :: p) e q eq_refl).
      by rewrite preceding_after_cons in HR.
    + destruct o; [|by apply Hplain].
      destruct preceding as [root|]; [|by apply Hplain].
      destruct (decide (root ∈ dict_keys root_to_inner)) as [Hin | Hnin].
      2: { apply Hplain; [|done]. cbn [simple_optional_step].
           by rewrite bool_decide_eq_false_2. }
      pose proof Hin as [inner Hinner]%dict_keys_get.
      destruct (IH (dict_set info root
                      (mkSimpleOptionalInfo (mark_name inner) e)) (Some root))
        as (info' & Hrun & Hkeys & Hkeep).
      exists info'. cbn [for_each simple_optional_step].
      rewrite bool_decide_eq_true_2, Hinner by done.
      cbn [bind get_location_name get_field_name].
      rewrite Hrun, preceding_after_cons.
      split; [done|]. split.
      * intros k Hk. apply Hkeys in Hk as [Hk | Hk]; [|by right].
        rewrite dict_get_set in Hk. case_decide; [right; by subst|by left].
      * intros R HR. rewrite Hkeep.
        -- rewrite dict_get_set. case_decide as Heq; [|done].
           subst. by destruct (HR [] e l eq_refl).
        -- intros p e' q ->.
           specialize (HR (Traverse e true :: p) e' q eq_refl).
           by rewrite preceding_after_cons in HR.
Qed.

(** ** extract_simple_optional_location_info: the scope of a simple root *)

Lemma marked_single (l : list Block) (B : Location) :
  marked_locations l = [B] →
  ∃ b1 b2, l = b1 ++ MarkLocation B :: b2
           ∧ marked_locations b1 = [] ∧ marked_locations b2 = [].
Proof.
  induction l as [|b l IH]; [done|].
  destruct b as [x| | | | | | |];
    try (intros (b1 & b2 & -> & H1 & H2)%IH; by eexists (_ :: b1), b2).
  intros [= -> Hl]. by exists [], l.
Qed.

Lemma singleton_middle {A : Type} (l1 l2 : list A) (x y : A) :
  l1 ++ x :: l2 = [y] → x = y.
Proof. destruct l1 as [|? [|? ?]]; by intros [= ->]. Qed.

Lemma only_inner_location (nf pre : list Block) (e : string)
    (body post : list Block) (R B inner : Location) (outer : list Location) :
  balanced nf = true →
  NoDup (marked_locations nf) →
  nf = pre ++ Traverse e true :: body ++ EndOptional :: post →
  balanced body = true → last_marked pre = Some R →
  has_traversal body = false → marked_locations body = [B] →
  ¬ complex_scope_root nf R →
  marked_inside nf inner (outer ++ [R]) →
  inner = B.
Proof.
  intros Hbal Hnd Hnf Hbody HR Hnt HB Hnc (p & q & Hnf2 & Henc & _ & _).
  apply enclosing_inv_open in Henc as (p' & e' & s & -> & _ & HR' & Hs).
  rewrite <- app_assoc in Hnf2. simpl in Hnf2.
  assert (Heq : pre ++ Traverse e true :: body ++ EndOptional :: post
                = p' ++ Traverse e' true :: s ++ MarkLocation inner :: q)
    by congruence.
  destruct (middle_eq_middle _ _ _ _ _ _ Heq)
    as [(-> & [= ->] & Hrest) | [(m & -> & Hrest) | (m & -> & Hrest)]].
  - destruct (middle_eq_middle _ _ _ _ _ _ Hrest)
      as [(_ & ? & _) | [(m & -> & _) | (m & -> & _)]]; [done| |].
    + destruct (balanced_not_closing _ _ Hs Hbody).
    + rewrite marked_locations_app in HB. simpl in HB.
      by apply singleton_middle in HB.
  - assert (Hm : marked_locations (Traverse e true :: m) = []).
    { apply (last_marked_fresh pre _ (Traverse e' true :: s ++ MarkLocation inner :: q) R);
        [done|done|].
      rewrite Hnf2 in Hnd. by rewrite <- app_assoc in Hnd. }
    simpl in Hm.
    destruct (middle_eq_middle _ _ _ _ _ _ Hrest)
      as [(_ & ? & _) | [(m' & -> & _) | (m' & -> & _)]]; [done| |].
    + rewrite marked_locations_app, HB in Hm. done.
    + rewrite has_traversal_app in Hnt. simpl in Hnt.
      by rewrite orb_true_r in Hnt.
  - assert (Hm : marked_locations (Traverse e' true :: m) = []).
    { apply (last_marked_fresh p' _ (Traverse e true :: body ++ EndOptional :: post) R);
        [done|done|].
      rewrite Hnf in Hnd. by rewrite <- app_assoc in Hnd. }
    simpl in Hm.
    destruct (middle_eq_middle _ _ _ _ _ _ Hrest)
      as [(_ & ? & _) | [(m' & -> & _) | (m' & Hs' & _)]]; [done| |].
    + rewrite marked_locations_app in Hm. simpl in Hm. by destruct (marked_locations s).
    + destruct Hnc. rewrite Hnf2 in Hbal.
      destruct (opener_is_closed _ _ _ Hbal) as (body' & post' & Hclosed & Hbody').
      destruct (middle_eq_middle _ _ _ _ _ _ Hclosed)
        as [(_ & ? & _) | [(x & -> & Hq) | (x & -> & _)]]; [done| |].
      * exists p', e', (s ++ MarkLocation inner :: x), post'.
        split; [by rewrite Hnf2, Hq, <- app_assoc|]. split; [done|].
        split; [done|].
        rewrite has_traversal_app, Hs', has_traversal_app. simpl.
        by rewrite orb_true_r.
      * destruct (balanced_not_closing _ _ Hs Hbody').
Qed.

Lemma last_marked_nonempty (l : list Block) :
  marked_locations l ≠ [] →
  ∃ x, last_marked l = Some x ∧ x ∈ marked_locations l.
Proof.
  intros Hne. unfold last_marked.
  destruct (last (marked_locations l)) as [x|] eqn:Hlast.
  - exists x. split; [done|]. by apply last_marked_elem.
  - by apply last_None in Hlast.
Qed.

Lemma simple_optional_example (A B : Location) (e1 : string) :
  extract_optional_location_root_info
    [MarkLocation A; Traverse e1 true; MarkLocation B; EndOptional]
  = Ok ([], [(B, [A])])
  ∧ extract_simple_optional_location_info
      [MarkLocation A; Traverse e1 true; MarkLocation B; EndOptional]
      [] [(B, [A])]
    = Ok [(A, mkSimpleOptionalInfo (mark_name B) e1)].
Proof.
  split; [done|].
  unfold extract_simple_optional_location_info. simpl.
  rewrite bool_decide_eq_true_2 by by left.
  by rewrite decide_True.
Qed.

(** C3, as the code has it. The classification returns; no complex root is a
    key of its result; in a sequence that marks no location twice, the root of
    an optional scope that is not a complex root and in whose scope exactly
    one location is marked is mapped to the name of that location and to the
    edge field of the optional [Traverse] of the scope; and for
    MarkLocation(A), Traverse(optional, e1), MarkLocation(B), EndOptional the
    result maps A to the name of B and e1. *)
Theorem extract_simple_optional_location_info_simple :
  (∀ A B e1,
     extract_optional_location_root_info
       [MarkLocation A; Traverse e1 true; MarkLocation B; EndOptional]
     = Ok ([], [(B, [A])])
     ∧ extract_simple_optional_location_info
         [MarkLocation A; Traverse e1 true; MarkLocation B; EndOptional]
         [] [(B, [A])]
       = Ok [(A, mkSimpleOptionalInfo (mark_name B) e1)])
  ∧ (∀ ir_blocks folds non_folded complex mapping,
       extract_folds_from_ir_blocks ir_blocks = Ok (folds, non_folded) →
       optionals_well_nested non_folded = true →
       extract_optional_location_root_info ir_blocks = Ok (complex, mapping) →
       ∃ info,
         extract_simple_optional_location_info ir_blocks complex mapping = Ok info
         ∧ (∀ R, R ∈ complex → dict_get info R = None)
         ∧ (NoDup (marked_locations non_folded) →
            ∀ pre e body post R B,
              non_folded = pre ++ Traverse e true :: body ++ EndOptional :: post →
              balanced body = true →
              last_marked pre = Some R →
              R ∉ complex →
              marked_locations body = [B] →
              dict_get info R = Some (mkSimpleOptionalInfo (mark_name B) e))).
Proof.
  split; [apply simple_optional_example|].
  intros ir_blocks folds nf complex mapping Hfolds Hwn Hroot.
  destruct (optional_root_scan nf Hwn) as (st & Hrun & Hinv).
  unfold extract_optional_location_root_info in Hroot.
  rewrite Hfolds in Hroot. simpl in Hroot. rewrite Hrun in Hroot.
  simpl in Hroot. injection Hroot as <- <-.
  remember (complex_optional_roots st) as complex eqn:Hcomplex.
  remember (location_to_optional_roots st) as mapping eqn:Hmapping.
  pose proof (inv_keys _ _ Hinv) as Hkeys. rewrite <- Hmapping in Hkeys.
  assert (Hinv_complex : ∀ R, R ∈ complex ↔ complex_scope_root nf R).
  { rewrite Hcomplex. apply (inv_complex _ _ Hinv). }
  assert (Hinv_mapping : ∀ L stack,
            dict_get mapping L = Some stack ↔ marked_inside nf L stack).
  { rewrite Hmapping. apply (inv_mapping _ _ Hinv). }
  clear Hcomplex Hmapping Hinv Hrun st.
  assert (Hstacks : ∀ L stack, (L, stack) ∈ mapping → stack ≠ []).
  { intros L stack Hin%dict_elem_get; [|done].
    apply Hinv_mapping in Hin as (_ & _ & _ & _ & Hne & _). done. }
  destruct (location_to_preceding_items mapping [] Hkeys Hstacks)
    as (items & Hitems_run & Hitems).
  remember (simple_optional_root_to_inner_location complex items)
    as root_to_inner eqn:Hroot_to_inner.
  destruct (simple_scan root_to_inner nf [] None) as (info & Hscan & Hinfo & _).
  exists info. split; [|split].
  - unfold extract_simple_optional_location_info,
      location_to_preceding_optional_root.
    rewrite Hitems_run. cbn [bind app]. rewrite Hfolds. cbn [bind].
    rewrite <- Hroot_to_inner. unfold dict in *. by rewrite Hscan.
  - intros R HR. destruct (dict_get info R) as [i|] eqn:Hget; [|done].
    destruct (Hinfo R) as [[? ?] | Hin]; [by eexists|done|].
    exfalso. revert HR. rewrite Hroot_to_inner in Hin.
    apply (simple_keys_not_complex complex items [] R); [|done].
    by intros k ?%elem_of_nil.
  - intros Hnd pre e body post R B Hnf Hbody HR HRc HB.
    pose proof Hwn as [Hbal _]%andb_true_iff.
    assert (Hnc : ¬ complex_scope_root nf R).
    { intros Hc. by apply Hinv_complex in Hc. }
    assert (Hnt : has_traversal body = false).
    { destruct (has_traversal body) eqn:Ht; [|done].
      destruct Hnc. by exists pre, e, body, post. }
    destruct (marked_single body B HB) as (b1 & b2 & Hb & Hb1 & Hb2).
    destruct (prefix_enclosing nf pre (Traverse e true :: body ++ EndOptional :: post)
                Hwn (eq_sym Hnf)) as (outer & Houter).
    (* the one location of the scope is mapped to the roots that end with R *)
    assert (HgetB : dict_get mapping B = Some (outer ++ [R])).
    { apply Hinv_mapping.
      exists (pre ++ Traverse e true :: b1), (b2 ++ EndOptional :: post).
      split; [rewrite Hnf, Hb; by repeat (rewrite <- app_assoc; simpl)|].
      split.
      { apply enclosing_open; [done|done|].
        apply (no_traversal_prefix_balanced b1 (MarkLocation B :: b2));
          by rewrite <- Hb. }
      split; [by destruct outer|].
      intros q1 q2 Hq. exfalso.
      apply (marked_twice (pre ++ Traverse e true :: b1) q1 q2 B).
      replace ((pre ++ Traverse e true :: b1)
               ++ MarkLocation B :: q1 ++ MarkLocation B :: q2) with nf; [done|].
      rewrite Hnf, Hb, <- Hq. by repeat (rewrite <- app_assoc; simpl). }
    (* the root is mapped to the one location of its scope *)
    assert (Hinner : dict_get root_to_inner R = Some B).
    { rewrite Hroot_to_inner. apply simple_root_unique; [done| |].
      - intros inner (stack & Hin & Hlast)%Hitems.
        apply last_Some in Hlast as [outer' ->].
        apply dict_elem_get in Hin; [|done].
        apply Hinv_mapping in Hin.
        by apply (only_inner_location nf pre e body post R B inner outer').
      - left. apply Hitems. exists (outer ++ [R]).
        split; [by apply dict_get_Some_elem|apply last_snoc]. }
    (* the scan, cut at the optional Traverse of the scope *)
    destruct (simple_scan root_to_inner pre [] None) as (info1 & Hscan1 & _ & _).
    destruct (simple_scan root_to_inner (body ++ EndOptional :: post)
                (dict_set info1 R (mkSimpleOptionalInfo (mark_name B) e)) (Some R))
      as (info2 & Hscan2 & _ & Hkeep).
    assert (Hinfo2 : info = info2).
    { assert (Hprec : preceding_after None pre = Some R)
        by (unfold preceding_after; by rewrite HR).
      rewrite Hnf, for_each_app, Hscan1, Hprec in Hscan.
      cbn [bind for_each simple_optional_step] in Hscan.
      rewrite bool_decide_eq_true_2, Hinner in Hscan
        by (apply dict_keys_get; by eexists).
      cbn [bind get_location_name get_field_name] in Hscan.
      rewrite Hscan2 in Hscan.
      by injection Hscan as ->. }
    rewrite Hinfo2, Hkeep; [by rewrite dict_get_set, decide_True|].
    intros p e' q Hrest Hprec.
    destruct (middle_eq_middle _ _ _ _ _ _ Hrest)
      as [(_ & ? & _) | [(m & Hp & _) | (m & Hbm & _)]]; [done| |].
    + destruct (last_marked_nonempty p) as (x & Hx & Hxin).
      { rewrite Hp, marked_locations_app, HB. done. }
      unfold preceding_after in Hprec. rewrite Hx in Hprec.
      injection Hprec as ->.
      rewrite Hnf, Hrest, marked_locations_app in Hnd. simpl in Hnd.
      rewrite marked_locations_app in Hnd.
      apply NoDup_app in Hnd as (_ & Hdisj & _).
      apply (Hdisj R); [by apply last_marked_elem|].
      apply elem_of_app. by left.
    + rewrite Hbm, has_traversal_app in Hnt. simpl in Hnt.
      by rewrite orb_true_r in Hnt.
Qed.

Lemma extract_simple_optional_location_info_simple_witness :
  ∃ info,
    extract_simple_optional_location_info nested_optionals [animal]
      [(parent, [animal]); (feeding, [animal; parent])]
    = Ok info
    ∧ dict_get info animal = None
    ∧ dict_get info parent
      = Some (mkSimpleOptionalInfo (mark_name feeding) "out_Animal_FedAt").
Proof.
  destruct (proj2 extract_simple_optional_location_info_simple nested_optionals []
              nested_optionals [animal]
              [(parent, [animal]); (feeding, [animal; parent])]
              eq_refl eq_refl eq_refl)
    as (info & Hrun & Hcomplex & Hsimple).
  exists info. split; [exact Hrun|]. split.
  - apply Hcomplex. apply list_elem_of_singleton. reflexivity.
  - apply (Hsimple
             ltac:(apply (bool_decide_unpack _); vm_compute; exact I)
             [MarkLocation animal; Traverse "out_Animal_ParentOf" true;
              MarkLocation parent]
             "out_Animal_FedAt" [MarkLocation feeding] [EndOptional]
             parent feeding).
    + reflexivity.
    + reflexivity.
    + reflexivity.
    + apply (bool_decide_unpack _). vm_compute. exact I.
    + reflexivity.
Defined.

(** The nested sequence, run: the inner root is the one simple root. *)
Example nested_optionals_classified :
  extract_simple_optional_location_info nested_optionals [animal]
    [(parent, [animal]); (feeding, [animal; parent])]
  = Ok [(parent, mkSimpleOptionalInfo (mark_name feeding) "out_Animal_FedAt")].
Proof. reflexivity. Qed.

(** Two roots that are not complex and are no key of the classification: the
    root of an optional scope in which no location is marked, and the root of
    an optional scope whose one location is marked again in a later scope. *)
Lemma simple_roots_left_out :
  (optionals_well_nested optional_without_location = true
   ∧ optional_without_location
     = [MarkLocation animal] ++ Traverse "out_Animal_ParentOf" true
         :: [] ++ EndOptional :: []
   ∧ last_marked [MarkLocation animal] = Some animal
   ∧ extract_optional_location_root_info optional_without_location = Ok ([], [])
   ∧ extract_simple_optional_location_info optional_without_location [] []
     = Ok [])
  ∧ (optionals_well_nested location_marked_twice = true
     ∧ location_marked_twice
       = [MarkLocation animal] ++ Traverse "out_Animal_ParentOf" true
           :: [MarkLocation parent] ++ EndOptional
           :: [MarkLocation species; Traverse "out_Species_Eats" true;
               MarkLocation parent; EndOptional]
     ∧ last_marked [MarkLocation animal] = Some animal
     ∧ marked_locations [MarkLocation parent] = [parent]
     ∧ extract_optional_location_root_info location_marked_twice
       = Ok ([], [(parent, [species])])
     ∧ extract_simple_optional_location_info location_marked_twice []
         [(parent, [species])]
       = Ok [(species, mkSimpleOptionalInfo (mark_name parent) "out_Species_Eats")]
     ∧ dict_get
         [(species, mkSimpleOptionalInfo (mark_name parent) "out_Species_Eats")]
         animal
       = None).
Proof. repeat split; reflexivity. Qed.

(** * Further properties of the passes *)

(** ** remove_end_optionals *)

Lemma remove_end_optionals_loop (l acc : list Block) :
  foldl (fun new_ir_blocks block =>
           if negb (is_EndOptional block)
           then new_ir_blocks ++ [block]
           else new_ir_blocks)
        acc l
  = acc ++ filter (fun b => is_EndOptional b = false) l.
Proof.
  revert acc. induction l as [|b l IH]; intros acc; simpl.
  - by rewrite app_nil_r.
  - rewrite IH, filter_cons. destruct (is_EndOptional b); simpl; [done|].
    by rewrite <- app_assoc.
Qed.

Lemma remove_end_optionals_filter (l : list Block) :
  remove_end_optionals l = filter (fun b => is_EndOptional b = false) l.
Proof. apply (remove_end_optionals_loop l []). Qed.

Lemma remove_end_optionals_cons (b : Block) (l : list Block) :
  remove_end_optionals (b :: l)
  = if is_EndOptional b then remove_end_optionals l
    else b :: remove_end_optionals l.
Proof.
  rewrite !remove_end_optionals_filter, filter_cons.
  by destruct (is_EndOptional b).
Qed.

Lemma remove_end_optionals_app (l1 l2 : list Block) :
  remove_end_optionals (l1 ++ l2)
  = remove_end_optionals l1 ++ remove_end_optionals l2.
Proof. rewrite !remove_end_optionals_filter. apply filter_app. Qed.

Lemma remove_end_optionals_none (l : list Block) :
  EndOptional ∉ remove_end_optionals l.
Proof.
  rewrite remove_end_optionals_filter. by intros [? _]%list_elem_of_filter.
Qed.

Lemma remove_end_optionals_fixed (l : list Block) :
  EndOptional ∉ l → remove_end_optionals l = l.
Proof.
  induction l as [|b l IH]; [done|].
  intros [Hb Hl]%not_elem_of_cons. rewrite remove_end_optionals_cons, IH by done.
  by destruct b.
Qed.

(** X1. [remove_end_optionals] returns the blocks of its argument that are no
    [EndOptional], in their order: the result holds no [EndOptional], and its
    length is that of the argument less the number of its [EndOptional]
    blocks. *)
Theorem remove_end_optionals_keeps_others (ir_blocks : list Block) :
  remove_end_optionals ir_blocks
  = filter (fun b => is_EndOptional b = false) ir_blocks
  ∧ (EndOptional ∉ remove_end_optionals ir_blocks)
  ∧ sublist (remove_end_optionals ir_blocks) ir_blocks
  ∧ length ir_blocks
    = length (remove_end_optionals ir_blocks)
      + length (filter (fun b => is_EndOptional b = true) ir_blocks).
Proof.
  split; [apply remove_end_optionals_filter|].
  split; [apply remove_end_optionals_none|].
  rewrite remove_end_optionals_filter. split; [apply sublist_filter|].
  induction ir_blocks as [|b l IH]; [done|].
  rewrite !filter_cons. destruct (is_EndOptional b); simpl; lia.
Qed.

(** X2. [remove_end_optionals] goes through concatenation, changes nothing
    when run a second time, and returns a sequence as it is exactly when the
    sequence holds no [EndOptional]. *)
Theorem remove_end_optionals_composes (l1 l2 : list Block) :
  remove_end_optionals (l1 ++ l2)
  = remove_end_optionals l1 ++ remove_end_optionals l2
  ∧ remove_end_optionals (remove_end_optionals l1) = remove_end_optionals l1
  ∧ (remove_end_optionals l1 = l1 ↔ EndOptional ∉ l1).
Proof.
  split; [apply remove_end_optionals_app|]. split.
  - apply remove_end_optionals_fixed, remove_end_optionals_none.
  - split; [|apply remove_end_optionals_fixed].
    intros <-. apply remove_end_optionals_none.
Qed.

(** ** remove_end_optionals and the fold scopes *)

Lemma map_values_set {K A B : Type} `{EqDecision K} (g : A → B) (d : dict K A)
    (k : K) (v : A) :
  map_values g (dict_set d k v) = dict_set (map_values g d) k (g v).
Proof.
  induction d as [|[k' v'] d IH]; simpl; [done|].
  case_decide; simpl; [done|]. by rewrite <- IH.
Qed.

Lemma remove_end_optionals_snoc (l : list Block) (b : Block) :
  remove_end_optionals (l ++ [b])
  = if is_EndOptional b then remove_end_optionals l
    else remove_end_optionals l ++ [b].
Proof.
  rewrite remove_end_optionals_app, remove_end_optionals_cons.
  destruct (is_EndOptional b); [by rewrite app_nil_r|done].
Qed.

Lemma extract_folds_without_end_optionals (l : list Block) (st : FoldState) :
  for_each extract_folds_step
    (mkFoldState (map_values remove_end_optionals (folds st))
       (remove_end_optionals (remaining_ir_blocks st))
       (remove_end_optionals (current_folded_blocks st))
       (in_fold_location st))
    (remove_end_optionals l)
  = (do st' <- for_each extract_folds_step st l;
     Ok (mkFoldState (map_values remove_end_optionals (folds st'))
           (remove_end_optionals (remaining_ir_blocks st'))
           (remove_end_optionals (current_folded_blocks st'))
           (in_fold_location st'))).
Proof.
  revert st. induction l as [|b l IH]; intros [fs rem cur loc]; [done|].
  rewrite remove_end_optionals_cons.
  destruct b as [x | e o | e d | p | f | | | fields], loc as [f0|];
    cbn [is_EndOptional for_each extract_folds_step bind in_fold_location
         folds remaining_ir_blocks current_folded_blocks];
    try done;
    try (rewrite <- IH;
         cbn [in_fold_location folds remaining_ir_blocks current_folded_blocks];
         by rewrite ?remove_end_optionals_snoc, ?map_values_set).
Qed.

(** X3. Removing the [EndOptional] blocks and cutting out the fold scopes can
    be done in either order: the extraction of the folds of a sequence without
    its [EndOptional] blocks raises when the extraction of the sequence does,
    and returns otherwise the same folds and remaining blocks without their
    [EndOptional] blocks. *)
Theorem remove_end_optionals_extract_folds (ir_blocks : list Block) :
  extract_folds_from_ir_blocks (remove_end_optionals ir_blocks)
  = (do (folds, remaining) <- extract_folds_from_ir_blocks ir_blocks;
     Ok (map_values remove_end_optionals folds, remove_end_optionals remaining)).
Proof.
  unfold extract_folds_from_ir_blocks.
  pose proof (extract_folds_without_end_optionals ir_blocks extract_folds_init)
    as Hrun.
  change (mkFoldState _ _ _ _) with extract_folds_init in Hrun at 1.
  rewrite Hrun.
  by destruct (for_each extract_folds_step extract_folds_init ir_blocks).
Qed.

(** ** merge_consecutive_filter_clauses: what the result looks like *)

Lemma merge_single (b : Block) : merge_consecutive_filter_clauses [b] = [b].
Proof. done. Qed.

Lemma no_adjacent_filters_cons_other (b : Block) (l : list Block) :
  is_Filter b = false →
  no_adjacent_filters (b :: l) = no_adjacent_filters l.
Proof. intros Hb. destruct l as [|c l]; simpl; [done|]. by rewrite Hb. Qed.

Lemma merge_fixed (l : list Block) :
  no_adjacent_filters l = true → merge_consecutive_filter_clauses l = l.
Proof.
  induction l as [|x [|y l] IH]; [done|done|].
  intros [Hxy Hl]%andb_true_iff. rewrite merge_two, (IH Hl).
  destruct x; try done. by destruct y.
Qed.

Lemma merge_shape (n : nat) (l : list Block) :
  (length l ≤ n)%nat →
  no_adjacent_filters (merge_consecutive_filter_clauses l) = true
  ∧ other_blocks (merge_consecutive_filter_clauses l) = other_blocks l
  ∧ (length (merge_consecutive_filter_clauses l) ≤ length l)%nat
  ∧ starts_with_Filter (merge_consecutive_filter_clauses l) = starts_with_Filter l.
Proof.
  revert l. induction n as [|n IH]; intros l Hn.
  { destruct l; [done|simpl in Hn; lia]. }
  destruct l as [|x [|y l]]; [done|done|].
  rewrite merge_two.
  assert (Hrest : ∀ z,
    no_adjacent_filters (merge_consecutive_filter_clauses (z :: l)) = true
    ∧ other_blocks (merge_consecutive_filter_clauses (z :: l)) = other_blocks (z :: l)
    ∧ (length (merge_consecutive_filter_clauses (z :: l)) ≤ length (z :: l))%nat
    ∧ starts_with_Filter (merge_consecutive_filter_clauses (z :: l))
      = starts_with_Filter (z :: l)).
  { intros z. apply IH. simpl in *. lia. }
  assert (Hkeep : (is_Filter x && is_Filter y = false) →
    no_adjacent_filters (x :: merge_consecutive_filter_clauses (y :: l)) = true
    ∧ other_blocks (x :: merge_consecutive_filter_clauses (y :: l))
      = other_blocks (x :: y :: l)
    ∧ (length (x :: merge_consecutive_filter_clauses (y :: l))
       ≤ length (x :: y :: l))%nat
    ∧ starts_with_Filter (x :: merge_consecutive_filter_clauses (y :: l))
      = starts_with_Filter (x :: y :: l)).
  { intros Hxy. destruct (Hrest y) as (Hno & Hother & Hlen & Hstart).
    split; [|split; [|split]].
    - destruct (merge_consecutive_filter_clauses (y :: l)) as [|c m] eqn:Hm;
        [done|].
      change (no_adjacent_filters (x :: c :: m))
        with (negb (is_Filter x && is_Filter c) && no_adjacent_filters (c :: m)).
      rewrite Hno, andb_true_r.
      simpl in Hstart. rewrite Hstart. by rewrite Hxy.
    - unfold other_blocks in *. rewrite !(filter_cons _ x). by rewrite Hother.
    - simpl in *. lia.
    - done. }
  destruct x as [| | |p| | | |]; try (by apply Hkeep).
  destruct y as [| | |q| | | |]; try (by apply Hkeep).
  destruct (Hrest (Filter (BinaryComposition "&&" p q)))
    as (Hno & Hother & Hlen & Hstart).
  split; [done|]. split; [|split; [simpl in *; lia|done]].
  rewrite Hother. unfold other_blocks. by rewrite !filter_cons.
Qed.

(** X4. The result of [merge_consecutive_filter_clauses] never holds two
    [Filter]s next to each other, and a second run of the pass changes
    nothing. *)
Theorem merge_consecutive_filter_clauses_idempotent (ir_blocks : list Block) :
  no_adjacent_filters (merge_consecutive_filter_clauses ir_blocks) = true
  ∧ merge_consecutive_filter_clauses (merge_consecutive_filter_clauses ir_blocks)
    = merge_consecutive_filter_clauses ir_blocks.
Proof.
  destruct (merge_shape (length ir_blocks) ir_blocks) as (Hno & _); [done|].
  split; [done|]. by apply merge_fixed.
Qed.

(** X5. [merge_consecutive_filter_clauses] returns a sequence as it is
    exactly when no two [Filter]s of it are next to each other. *)
Theorem merge_consecutive_filter_clauses_fixed_point (ir_blocks : list Block) :
  merge_consecutive_filter_clauses ir_blocks = ir_blocks
  ↔ no_adjacent_filters ir_blocks = true.
Proof.
  split; [|apply merge_fixed].
  intros <-. by destruct (merge_shape (length ir_blocks) ir_blocks) as (Hno & _).
Qed.

(** X6. [merge_consecutive_filter_clauses] touches only the [Filter]s: the
    blocks that are no [Filter] are the same, in the same order, before and
    after; the result is never longer than the argument, it is empty only for
    the empty argument, and it starts with a [Filter] exactly when the
    argument does. *)
Theorem merge_consecutive_filter_clauses_keeps_others (ir_blocks : list Block) :
  other_blocks (merge_consecutive_filter_clauses ir_blocks) = other_blocks ir_blocks
  ∧ (length (merge_consecutive_filter_clauses ir_blocks) ≤ length ir_blocks)%nat
  ∧ (merge_consecutive_filter_clauses ir_blocks = [] ↔ ir_blocks = [])
  ∧ starts_with_Filter (merge_consecutive_filter_clauses ir_blocks)
    = starts_with_Filter ir_blocks.
Proof.
  destruct (merge_shape (length ir_blocks) ir_blocks)
    as (_ & Hother & Hlen & Hstart); [done|].
  split; [done|]. split; [done|]. split; [|done].
  split; [|by intros ->].
  destruct ir_blocks as [|x l]; [done|]. intros Hnil.
  rewrite Hnil in Hstart, Hother. simpl in Hstart.
  unfold other_blocks in Hother. by rewrite filter_cons, <- Hstart in Hother.
Qed.

(** ** lower_context_field_existence: a second run, and the other passes *)

Lemma extract_folds_step_other (st : FoldState) (b : Block) :
  is_fold_marker b = false →
  extract_folds_step st b
  = match in_fold_location st with
    | Some _ =>
        Ok (mkFoldState (folds st) (remaining_ir_blocks st)
              (current_folded_blocks st ++ [b]) (in_fold_location st))
    | None =>
        Ok (mkFoldState (folds st) (remaining_ir_blocks st ++ [b])
              (current_folded_blocks st) (in_fold_location st))
    end.
Proof. by destruct b. Qed.

(** A pass that rewrites block by block and leaves the fold markers alone
    goes through the cut of the fold scopes. *)
Lemma extract_folds_blockwise (g : Block → Block) (l : list Block) (st : FoldState) :
  (∀ b, is_fold_marker b = true → g b = b) →
  (∀ b, is_fold_marker b = false → is_fold_marker (g b) = false) →
  for_each extract_folds_step
    (mkFoldState (map_values (fmap g) (folds st))
       (g <$> remaining_ir_blocks st) (g <$> current_folded_blocks st)
       (in_fold_location st))
    (g <$> l)
  = (do st' <- for_each extract_folds_step st l;
     Ok (mkFoldState (map_values (fmap g) (folds st'))
           (g <$> remaining_ir_blocks st') (g <$> current_folded_blocks st')
           (in_fold_location st'))).
Proof.
  intros Hmarker Hother. revert st.
  induction l as [|b l IH]; intros [fs rem cur loc]; [done|].
  cbn [fmap list_fmap for_each].
  destruct (is_fold_marker b) eqn:Hb.
  - rewrite (Hmarker b Hb).
    destruct b as [x | e o | e d | p | f | | | fields], loc as [f0|];
      try done;
      cbn [extract_folds_step bind in_fold_location folds remaining_ir_blocks
           current_folded_blocks];
      try done; rewrite <- IH;
      cbn [in_fold_location folds remaining_ir_blocks current_folded_blocks];
      by rewrite ?map_values_set.
  - rewrite !extract_folds_step_other by auto.
    cbn [in_fold_location folds remaining_ir_blocks current_folded_blocks].
    destruct loc as [f0|]; cbn [bind]; rewrite <- IH;
      cbn [in_fold_location folds remaining_ir_blocks current_folded_blocks];
      by rewrite fmap_app.
Qed.

Lemma extract_folds_blockwise_pass (g : Block → Block) (l : list Block) :
  (∀ b, is_fold_marker b = true → g b = b) →
  (∀ b, is_fold_marker b = false → is_fold_marker (g b) = false) →
  extract_folds_from_ir_blocks (g <$> l)
  = (do (folds, remaining) <- extract_folds_from_ir_blocks l;
     Ok (map_values (fmap g) folds, g <$> remaining)).
Proof.
  intros Hmarker Hother. unfold extract_folds_from_ir_blocks.
  pose proof (extract_folds_blockwise g l extract_folds_init Hmarker Hother)
    as Hrun.
  change (mkFoldState _ _ _ _) with extract_folds_init in Hrun at 1.
  rewrite Hrun.
  by destruct (for_each extract_folds_step extract_folds_init l).
Qed.

Lemma map_values_ext {K A B : Type} (g h : A → B) (d : dict K A) :
  (∀ x, g x = h x) → map_values g d = map_values h d.
Proof.
  intros Hgh. apply list_fmap_ext. intros _ [k v] _. simpl. by rewrite Hgh.
Qed.

Section LoweringComposition.

Variable get_location_info : Location → LocationInfo.
Variable ContextField_validate : Location → GraphQLType → result unit.

Lemma lower_cons (b : Block) (l : list Block) :
  lower_context_field_existence get_location_info ContextField_validate (b :: l)
  = (do new_block <-
       (if is_ConstructResult b
        then visit_and_update_expressions_or_raise
               (construct_result_visitor_fn get_location_info
                  ContextField_validate) b
        else visit_and_update_expressions_or_raise
               (regular_visitor_fn get_location_info ContextField_validate) b);
     do new_blocks <-
       lower_context_field_existence get_location_info ContextField_validate l;
     Ok (new_block :: new_blocks)).
Proof.
  unfold lower_context_field_existence. cbn [for_each].
  destruct (if is_ConstructResult b then _ else _) as [b'|x]; cbn [bind];
    [|done].
  by rewrite for_each_collect_acc.
Qed.

Lemma lower_block_returns (b b' : Block) :
  (if is_ConstructResult b
   then visit_and_update_expressions_or_raise
          (construct_result_visitor_fn get_location_info ContextField_validate) b
   else visit_and_update_expressions_or_raise
          (regular_visitor_fn get_location_info ContextField_validate) b)
  = Ok b' →
  b' = lowered_block get_location_info b.
Proof.
  intros Hb. pose proof (lower_block_run get_location_info ContextField_validate b)
    as Hrun.
  rewrite Hb in Hrun. by destruct Hrun.
Qed.

Lemma lower_filter (p : Expression) :
  visit_and_update_expressions_or_raise
    (regular_visitor_fn get_location_info ContextField_validate) (Filter p)
  = (do new_predicate <-
       visit_and_update_or_raise
         (regular_visitor_fn get_location_info ContextField_validate) p;
     Ok (Filter new_predicate)).
Proof. done. Qed.

(** X7. A second run of [lower_context_field_existence] on what a first run
    returned returns it unchanged; and the pass can be run before or after
    [remove_end_optionals] with the same result, or the same exception. *)
Theorem lower_context_field_existence_idempotent (ir_blocks : list Block) :
  (∀ new_ir_blocks,
     lower_context_field_existence get_location_info ContextField_validate
       ir_blocks = Ok new_ir_blocks →
     lower_context_field_existence get_location_info ContextField_validate
       new_ir_blocks = Ok new_ir_blocks)
  ∧ lower_context_field_existence get_location_info ContextField_validate
      (remove_end_optionals ir_blocks)
    = (do new_ir_blocks <-
         lower_context_field_existence get_location_info ContextField_validate
           ir_blocks;
       Ok (remove_end_optionals new_ir_blocks)).
Proof.
  split.
  - intros r [-> _]%lower_returns. apply lower_without_existence.
    apply Forall_fmap, Forall_forall. intros b _.
    apply lowered_block_mentions_no_existence.
  - induction ir_blocks as [|b l IH]; [done|].
    rewrite remove_end_optionals_cons, lower_cons.
    destruct (is_EndOptional b) eqn:Hend.
    + destruct b; try done. cbn [is_ConstructResult
        visit_and_update_expressions_or_raise bind]. rewrite IH.
      destruct (lower_context_field_existence _ _ l) as [r|x]; cbn [bind];
        [|done].
      by rewrite remove_end_optionals_cons.
    + rewrite lower_cons, IH.
      destruct (if is_ConstructResult b then _ else _) as [b'|x] eqn:Hb;
        cbn [bind]; [|done].
      destruct (lower_context_field_existence _ _ l) as [r|x]; cbn [bind];
        [|done].
      rewrite remove_end_optionals_cons.
      apply lower_block_returns in Hb as ->.
      by destruct b.
Qed.

End LoweringComposition.

(** ** optimize_boolean_expression_comparisons: what is kept *)

Lemma visitor_fn_operands (e : Expression) :
  operands (visitor_fn e) = operands e
  ∧ (expression_size (visitor_fn e) ≤ expression_size e)%nat.
Proof.
  destruct e as [op l r| | | | | |]; try done.
  unfold visitor_fn. comparison_cases; simpl; rewrite ?app_nil_r;
    (split; [done|lia]).
Qed.

Lemma visit_visitor_fn_operands (e : Expression) :
  operands (visit_and_update visitor_fn e) = operands e
  ∧ (expression_size (visit_and_update visitor_fn e) ≤ expression_size e)%nat.
Proof.
  induction e as [op l [IHl IHl'] r [IHr IHr']| | | | | |]; try done.
  cbn [visit_and_update].
  destruct (visitor_fn_operands
              (BinaryComposition op (visit_and_update visitor_fn l)
                 (visit_and_update visitor_fn r))) as [-> Hsize].
  simpl in *. rewrite IHl, IHr. split; [done|lia].
Qed.

(** X9. The rewriting of one comparison drops nothing but boolean literals:
    what [visitor_fn] returns has the operands of its argument that are no
    boolean literal, in their order, and is no larger than the argument. *)
Theorem visitor_fn_keeps_operands (expression : Expression) :
  operands (visitor_fn expression) = operands expression
  ∧ (expression_size (visitor_fn expression) ≤ expression_size expression)%nat.
Proof. apply visitor_fn_operands. Qed.

Lemma visit_block_same_operands (b : Block) :
  same_operands b (visit_and_update_expressions visitor_fn b).
Proof.
  destruct b as [x | e o | e d | p | f | | | fields]; try done.
  - apply visit_visitor_fn_operands.
  - simpl. apply Forall2_fmap_r, Forall_Forall2_diag, Forall_forall.
    intros [k e] _. simpl. split; [done|]. apply visit_visitor_fn_operands.
Qed.

(** X10. [optimize_boolean_expression_comparisons] rewrites block by block
    and drops nothing but boolean literals: the result has the length of the
    argument, a block that holds no expression is kept as it is, and every
    expression of a [Filter] or of a [ConstructResult] field is replaced by
    one with the same operands that is no larger. *)
Theorem optimize_boolean_expression_comparisons_keeps_operands
    (ir_blocks : list Block) :
  Forall2 same_operands ir_blocks
    (optimize_boolean_expression_comparisons ir_blocks).
Proof.
  rewrite optimize_boolean_expression_comparisons_map.
  apply Forall2_fmap_r, Forall_Forall2_diag, Forall_forall.
  intros b _. apply visit_block_same_operands.
Qed.

Lemma mentions_existence_operands (e : Expression) :
  mentions_existence e = existsb mentions_existence (operands e).
Proof.
  induction e as [op l IHl r IHr| | | | | |]; try done.
  simpl. by rewrite existsb_app, IHl, IHr.
Qed.

Lemma same_operands_no_existence (b b' : Block) :
  same_operands b b' →
  Forall (fun e => mentions_existence e = false) (expressions_of b) →
  Forall (fun e => mentions_existence e = false) (expressions_of b').
Proof.
  destruct b as [x | e o | e d | p | f | | | fields];
    try (by intros ->).
  - destruct b' as [| | |p'| | | |]; try done. simpl.
    intros [Hops _] [Hp _]%Forall_cons_1. constructor; [|done].
    by rewrite mentions_existence_operands, Hops, <- mentions_existence_operands.
  - destruct b' as [| | | | | | |fields']; try done. simpl.
    intros Hall. induction Hall as [|[k e] [k' e'] fs fs' (_ & Hops & _) _ IH];
      [done|].
    simpl in *. intros [He Hfs]%Forall_cons_1. constructor; [|by apply IH].
    by rewrite mentions_existence_operands, Hops, <- mentions_existence_operands.
Qed.

(** X11. The two expression passes one after the other: no existence test
    is left once what the lowering returned is optimized, and the comparison
    of an existence test with a boolean literal in a [Filter] ends, for a
    location whose [ContextField] passes its validation, as one comparison of
    the location with null ([=] with [False] gives [=], with [True] gives
    [!=]). *)
Theorem lower_then_optimize (get_location_info : Location → LocationInfo)
    (ContextField_validate : Location → GraphQLType → result unit)
    (ir_blocks : list Block) :
  (∀ new_ir_blocks,
     lower_context_field_existence get_location_info ContextField_validate
       ir_blocks = Ok new_ir_blocks →
     Forall (fun b => Forall (fun e => mentions_existence e = false)
                             (expressions_of b))
       (optimize_boolean_expression_comparisons new_ir_blocks))
  ∧ ∀ location,
      ContextField_validate location (type (get_location_info location))
      = Ok tt →
      (do new_ir_blocks <-
         lower_context_field_existence get_location_info ContextField_validate
           [Filter (BinaryComposition "=" (ContextFieldExistence location)
                      FalseLiteral)];
       Ok (optimize_boolean_expression_comparisons new_ir_blocks))
      = Ok [Filter (BinaryComposition "="
                      (ContextField location (type (get_location_info location)))
                      NullLiteral)]
      ∧ (do new_ir_blocks <-
           lower_context_field_existence get_location_info ContextField_validate
             [Filter (BinaryComposition "=" (ContextFieldExistence location)
                        TrueLiteral)];
         Ok (optimize_boolean_expression_comparisons new_ir_blocks))
        = Ok [Filter (BinaryComposition "!="
                        (ContextField location
                           (type (get_location_info location)))
                        NullLiteral)].
Proof.
  split.
  - intros r [-> _]%lower_returns.
    rewrite optimize_boolean_expression_comparisons_map, <- list_fmap_compose.
    apply Forall_fmap, Forall_forall. intros b _. simpl.
    apply (same_operands_no_existence (lowered_block get_location_info b)).
    + apply visit_block_same_operands.
    + apply lowered_block_mentions_no_existence.
  - intros location Hvalid.
    unfold lower_context_field_existence.
    cbn [for_each is_ConstructResult visit_and_update_expressions_or_raise
         visit_and_update_or_raise regular_visitor_fn].
    unfold new_ContextField. rewrite Hvalid. done.
Qed.

Lemma lower_then_optimize_witness :
  (do new_ir_blocks <-
     lower_context_field_existence (fun _ => mkLocationInfo "Animal")
       (fun _ _ => Ok tt)
       [Filter (BinaryComposition "=" (ContextFieldExistence parent)
                  FalseLiteral)];
   Ok (optimize_boolean_expression_comparisons new_ir_blocks))
  = Ok [Filter (BinaryComposition "=" (ContextField parent "Animal")
                  NullLiteral)].
Proof.
  apply (proj2 (lower_then_optimize (fun _ => mkLocationInfo "Animal")
                  (fun _ _ => Ok tt) []) parent eq_refl).
Defined.

(** ** extract_folds_from_ir_blocks: what the outputs hold *)

Lemma outside_block_snoc (pre : list Block) (b x : Block) :
  (∃ p q, pre ++ [b] = p ++ x :: q
          ∧ is_fold_marker x = false ∧ inside_fold p = false)
  ↔ (∃ p q, pre = p ++ x :: q
            ∧ is_fold_marker x = false ∧ inside_fold p = false)
    ∨ (x = b ∧ is_fold_marker b = false ∧ inside_fold pre = false).
Proof.
  split.
  - intros (p & q & Heq & Hx & Hp).
    apply snoc_eq_middle in Heq as [(-> & -> & ->) | (q' & -> & ->)].
    + by right.
    + left. by exists p, q'.
  - intros [(p & q & -> & Hx & Hp) | (-> & Hb & Hpre)].
    + exists p, (q ++ [b]). by rewrite <- app_assoc.
    + by exists pre, [].
Qed.

Lemma dict_set_elem {K V : Type} `{EqDecision K} (d : dict K V) (k k' : K)
    (v v' : V) :
  (k', v') ∈ dict_set d k v → (k' = k ∧ v' = v) ∨ (k', v') ∈ d.
Proof.
  induction d as [|[k0 v0] d IH]; simpl.
  - intros [= -> ->]%list_elem_of_singleton. by left.
  - case_decide as Heq.
    + intros [[= -> ->] | Hin]%elem_of_cons; [by left|]. right. by right.
    + intros [[= -> ->] | Hin]%elem_of_cons; [right; by left|].
      destruct (IH Hin) as [? | ?]; [by left|]. right. by right.
Qed.

Lemma marker_free_app (l1 l2 : list Block) :
  marker_free (l1 ++ l2) = marker_free l1 && marker_free l2.
Proof. apply forallb_app. Qed.

Lemma folds_inv_init : folds_inv [] extract_folds_init.
Proof.
  constructor; simpl; try done.
  - intros b. split; [by intros ?%elem_of_nil|].
    intros (p & q & Heq & _). by destruct p.
  - by intros f body ?%elem_of_nil.
  - apply NoDup_nil_2.
Qed.

Lemma folds_inv_step (pre : list Block) (st st' : FoldState) (b : Block) :
  folds_inv pre st → extract_folds_step st b = Ok st' →
  folds_inv (pre ++ [b]) st'.
Proof.
  intros [Hin Hrf Hsub Hrem Hcf Hcur Hfolds Hkeys].
  destruct st as [fs rem cur loc]. simpl in *.
  assert (Hfolds' : ∀ f body, (f, body) ∈ fs →
            marker_free body = true
            ∧ ∃ p q, pre ++ [b] = p ++ Fold f :: body ++ Unfold :: q).
  { intros f body (Hfree & p & q & ->)%Hfolds. split; [done|].
    exists p, (q ++ [b]). rewrite <- !app_assoc. simpl.
    by rewrite <- app_assoc. }
  assert (Hrem' : inside_fold pre = true ∨ is_fold_marker b = true →
            ∀ x, x ∈ rem
                 ↔ ∃ p q, pre ++ [b] = p ++ x :: q
                          ∧ is_fold_marker x = false ∧ inside_fold p = false).
  { intros Hside x. rewrite outside_block_snoc, Hrem.
    split; [by left|]. intros [? | (-> & Hb & Hpre)]; [done|].
    destruct Hside; congruence. }
  destruct (is_fold_marker b) eqn:Hb.
  - destruct b as [| | | |f| | |], loc as [f0|]; try done; simpl;
      intros [= <-]; constructor; simpl; try done;
      try (by rewrite inside_fold_snoc);
      try (by apply sublist_inserts_r);
      try (apply Hrem'; by right).
    + subst cur. by exists pre.
    + intros f body [[-> ->] | Hfb]%dict_set_elem; [|by apply Hfolds'].
      split; [done|]. destruct Hcur as (p & ->). exists p, [].
      by rewrite <- app_assoc.
    + by apply dict_set_NoDup.
  - rewrite extract_folds_step_other by done. simpl.
    destruct loc as [f0|]; intros [= <-]; constructor; simpl; try done;
      try (rewrite inside_fold_snoc; by destruct b);
      try (by apply sublist_inserts_r).
    + apply Hrem'. by left.
    + by rewrite marker_free_app, Hcf; simpl; rewrite Hb.
    + destruct Hcur as (p & ->). exists p. by rewrite <- app_assoc.
    + by rewrite marker_free_app, Hrf; simpl; rewrite Hb.
    + by apply sublist_app.
    + intros x. rewrite outside_block_snoc, elem_of_app, Hrem,
        list_elem_of_singleton.
      split; intros [Hl | Hr]; [by left|by right|by left|right; by destruct Hr].
Qed.

Lemma folds_inv_run (l : list Block) (st : FoldState) :
  for_each extract_folds_step extract_folds_init l = Ok st → folds_inv l st.
Proof.
  revert st. induction l as [|b l IH] using rev_ind; intros st.
  - intros [= <-]. apply folds_inv_init.
  - rewrite for_each_app.
    destruct (for_each extract_folds_step extract_folds_init l) as [st0|e];
      [|done].
    simpl. destruct (extract_folds_step st0 b) as [st1|e] eqn:Hstep; [|done].
    intros [= <-]. apply (folds_inv_step l st0); [by apply IH|done].
Qed.

Lemma extract_folds_returns (l : list Block)
    (fs : dict FoldScopeLocation (list Block)) (rem : list Block) :
  extract_folds_from_ir_blocks l = Ok (fs, rem) →
  ∃ st, for_each extract_folds_step extract_folds_init l = Ok st
        ∧ folds st = fs ∧ remaining_ir_blocks st = rem.
Proof.
  unfold extract_folds_from_ir_blocks.
  destruct (for_each extract_folds_step extract_folds_init l) as [st|e];
    [|done].
  intros [= <- <-]. by exists st.
Qed.

(** X12. Whenever the extraction of the folds returns, the remaining blocks
    are exactly the blocks of the sequence that are no marker and lie outside
    of every fold scope, in their order; the recorded folds have distinct
    keys, and each of them is the body, free of markers, of a fold scope of
    the sequence that is closed by an [Unfold]. *)
Theorem extract_folds_outputs (ir_blocks : list Block)
    (folds : dict FoldScopeLocation (list Block)) (remaining : list Block) :
  extract_folds_from_ir_blocks ir_blocks = Ok (folds, remaining) →
  remaining = blocks_outside_folds false ir_blocks
  ∧ marker_free remaining = true
  ∧ sublist remaining ir_blocks
  ∧ (∀ b, b ∈ remaining
          ↔ ∃ p q, ir_blocks = p ++ b :: q
                   ∧ is_fold_marker b = false ∧ inside_fold p = false)
  ∧ NoDup (dict_keys folds)
  ∧ (∀ f body, (f, body) ∈ folds →
               marker_free body = true
               ∧ ∃ p q, ir_blocks = p ++ Fold f :: body ++ Unfold :: q).
Proof.
  intros Hrun. split; [by apply (extract_folds_remaining _ folds)|].
  apply extract_folds_returns in Hrun as (st & Hrun%folds_inv_run & <- & <-).
  destruct Hrun. done.
Qed.

Lemma extract_folds_outputs_witness :
  [Filter TrueLiteral; Filter FalseLiteral]
  = blocks_outside_folds false
      [Filter TrueLiteral;
       Fold (mkFoldScopeLocation animal "out_Animal_ParentOf");
       Filter NullLiteral; Unfold; Filter FalseLiteral]
  ∧ marker_free [Filter TrueLiteral; Filter FalseLiteral] = true
  ∧ sublist [Filter TrueLiteral; Filter FalseLiteral]
      [Filter TrueLiteral;
       Fold (mkFoldScopeLocation animal "out_Animal_ParentOf");
       Filter NullLiteral; Unfold; Filter FalseLiteral]
  ∧ (∀ b, b ∈ [Filter TrueLiteral; Filter FalseLiteral]
          ↔ ∃ p q, [Filter TrueLiteral;
                    Fold (mkFoldScopeLocation animal "out_Animal_ParentOf");
                    Filter NullLiteral; Unfold; Filter FalseLiteral]
                   = p ++ b :: q
                   ∧ is_fold_marker b = false ∧ inside_fold p = false)
  ∧ NoDup (dict_keys
             [(mkFoldScopeLocation animal "out_Animal_ParentOf",
               [Filter NullLiteral])])
  ∧ (∀ f body,
       (f, body) ∈ [(mkFoldScopeLocation animal "out_Animal_ParentOf",
                     [Filter NullLiteral])] →
       marker_free body = true
       ∧ ∃ p q, [Filter TrueLiteral;
                 Fold (mkFoldScopeLocation animal "out_Animal_ParentOf");
                 Filter NullLiteral; Unfold; Filter FalseLiteral]
                = p ++ Fold f :: body ++ Unfold :: q).
Proof.
  apply (extract_folds_outputs
           [Filter TrueLiteral;
            Fold (mkFoldScopeLocation animal "out_Animal_ParentOf");
            Filter NullLiteral; Unfold; Filter FalseLiteral]).
  reflexivity.
Defined.

(** ** extract_folds_from_ir_blocks: looking a fold up *)

Lemma extract_folds_keeps (f : FoldScopeLocation) (post : list Block)
    (st st' : FoldState) :
  for_each extract_folds_step st post = Ok st' →
  f ∉ fold_scope_locations post → in_fold_location st ≠ Some f →
  dict_get (folds st') f = dict_get (folds st) f.
Proof.
  revert st. induction post as [|b post IH]; intros st; cbn [for_each].
  - by intros [= <-].
  - destruct (extract_folds_step st b) as [st1|e] eqn:Hstep; [|done].
    cbn [bind]. intros Hrun Hf Hloc. rewrite fold_scope_locations_cons in Hf.
    rewrite (IH st1 Hrun).
    + destruct st as [fs rem cur loc]. simpl in *.
      destruct b as [| | | |f'| | |], loc as [f0|]; simplify_eq/=; try done.
      rewrite dict_get_set. case_decide; [congruence|done].
    + intros Hin. apply Hf, elem_of_app. by right.
    + destruct st as [fs rem cur loc]. simpl in *.
      destruct b as [| | | |f'| | |], loc as [f0|]; simplify_eq/=; try done.
      intros [= ->]. apply Hf. by left.
Qed.

Lemma folds_keys_opened (l : list Block) (st : FoldState) (f : FoldScopeLocation) :
  folds_inv l st → f ∈ dict_keys (folds st) → f ∈ fold_scope_locations l.
Proof.
  intros Hinv [body Hget%dict_get_Some_elem]%dict_keys_get.
  destruct (finv_folds _ _ Hinv f body Hget) as (_ & p & q & ->).
  rewrite fold_scope_locations_app, fold_scope_locations_cons.
  apply elem_of_app. right. by left.
Qed.

(** X13. Looking a fold up in what the extraction returns: the key of a
    fold scope that is closed by an [Unfold] and whose location is not used by
    a later [Fold] is mapped to the blocks between the markers of the scope
    (of two closed scopes with one location the later one is found), and a
    location that no [Fold] of the sequence carries is no key. *)
Theorem extract_folds_lookup (ir_blocks : list Block)
    (folds : dict FoldScopeLocation (list Block)) (remaining : list Block)
    (f : FoldScopeLocation) :
  extract_folds_from_ir_blocks ir_blocks = Ok (folds, remaining) →
  (∀ pre body post,
     ir_blocks = pre ++ Fold f :: body ++ Unfold :: post →
     marker_free body = true →
     f ∉ fold_scope_locations post →
     dict_get folds f = Some body)
  ∧ (f ∉ fold_scope_locations ir_blocks → dict_get folds f = None).
Proof.
  intros (st & Hrun & <- & <-)%extract_folds_returns. split.
  - intros pre body post -> Hbody Hpost.
    rewrite for_each_app in Hrun.
    destruct (for_each extract_folds_step extract_folds_init pre) as [st0|e]
      eqn:Hpre; [|done].
    apply folds_inv_run in Hpre. pose proof (finv_current _ _ Hpre) as Hcur.
    destruct st0 as [fs rem cur loc]. simpl in *.
    destruct loc as [f0|]; [done|]. subst cur. simpl in Hrun.
    rewrite for_each_app, (extract_folds_inside _ _ f) in Hrun by done.
    simpl in Hrun.
    rewrite (extract_folds_keeps f post _ st Hrun); simpl; [|done|done].
    by rewrite dict_get_set, decide_True.
  - intros Hf. apply folds_inv_run in Hrun.
    destruct (dict_get (folds st) f) as [body|] eqn:Hget; [|done].
    destruct Hf. apply (folds_keys_opened _ st); [done|].
    apply dict_keys_get. by eexists.
Qed.

Lemma extract_folds_lookup_witness :
  (∀ pre body post,
     [Fold (mkFoldScopeLocation animal "out_Animal_ParentOf");
      Filter TrueLiteral; Unfold;
      Fold (mkFoldScopeLocation animal "out_Animal_ParentOf");
      Filter FalseLiteral; Unfold]
     = pre ++ Fold (mkFoldScopeLocation animal "out_Animal_ParentOf")
         :: body ++ Unfold :: post →
     marker_free body = true →
     mkFoldScopeLocation animal "out_Animal_ParentOf" ∉ fold_scope_locations post →
     dict_get [(mkFoldScopeLocation animal "out_Animal_ParentOf",
                [Filter FalseLiteral])]
       (mkFoldScopeLocation animal "out_Animal_ParentOf")
     = Some body)
  ∧ (mkFoldScopeLocation animal "out_Animal_ParentOf"
       ∉ fold_scope_locations
           [Fold (mkFoldScopeLocation animal "out_Animal_ParentOf");
            Filter TrueLiteral; Unfold;
            Fold (mkFoldScopeLocation animal "out_Animal_ParentOf");
            Filter FalseLiteral; Unfold] →
     dict_get [(mkFoldScopeLocation animal "out_Animal_ParentOf",
                [Filter FalseLiteral])]
       (mkFoldScopeLocation animal "out_Animal_ParentOf")
     = None).
Proof.
  apply (extract_folds_lookup
           [Fold (mkFoldScopeLocation animal "out_Animal_ParentOf");
            Filter TrueLiteral; Unfold;
            Fold (mkFoldScopeLocation animal "out_Animal_ParentOf");
            Filter FalseLiteral; Unfold]
           _ []).
  reflexivity.
Defined.

(** X14. What the extraction of the folds leaves holds no fold: a sequence
    without markers is returned whole with no fold recorded, and so are the
    remaining blocks of any extraction that returns. *)
Theorem extract_folds_again (ir_blocks : list Block)
    (folds : dict FoldScopeLocation (list Block)) (remaining : list Block) :
  extract_folds_from_ir_blocks ir_blocks = Ok (folds, remaining) →
  extract_folds_from_ir_blocks remaining = Ok ([], remaining)
  ∧ (marker_free ir_blocks = true → folds = [] ∧ remaining = ir_blocks).
Proof.
  assert (Hfree : ∀ l, marker_free l = true →
                       extract_folds_from_ir_blocks l = Ok ([], l)).
  { intros l Hl. unfold extract_folds_from_ir_blocks.
    by rewrite (extract_folds_outside l extract_folds_init Hl eq_refl). }
  intros Hrun. split.
  - apply Hfree.
    by destruct (extract_folds_returns _ _ _ Hrun)
      as (st & Hst%folds_inv_run%finv_remaining_free & _ & <-).
  - intros Hl. rewrite (Hfree _ Hl) in Hrun. by injection Hrun as <- <-.
Qed.

Lemma extract_folds_again_witness :
  extract_folds_from_ir_blocks [Filter TrueLiteral; Filter FalseLiteral]
  = Ok ([], [Filter TrueLiteral; Filter FalseLiteral])
  ∧ (marker_free
       [Filter TrueLiteral;
        Fold (mkFoldScopeLocation animal "out_Animal_ParentOf");
        Filter NullLiteral; Unfold; Filter FalseLiteral] = true →
     [(mkFoldScopeLocation animal "out_Animal_ParentOf", [Filter NullLiteral])]
     = []
     ∧ [Filter TrueLiteral; Filter FalseLiteral]
       = [Filter TrueLiteral;
          Fold (mkFoldScopeLocation animal "out_Animal_ParentOf");
          Filter NullLiteral; Unfold; Filter FalseLiteral]).
Proof.
  apply (extract_folds_again
           [Filter TrueLiteral;
            Fold (mkFoldScopeLocation animal "out_Animal_ParentOf");
            Filter NullLiteral; Unfold; Filter FalseLiteral]).
  reflexivity.
Defined.

(** ** extract_optional_location_root_info: when it raises *)

Lemma optional_mismatch_nil : ¬ optional_mismatch [].
Proof.
  intros [(pre & post & Heq & _) | (pre & e & post & Heq & _)]; by destruct pre.
Qed.

Lemma optional_mismatch_snoc (l : list Block) (b : Block) :
  optional_mismatch (l ++ [b])
  ↔ optional_mismatch l
    ∨ (b = EndOptional ∧ scope_depth 0 l = Some 0)
    ∨ (∃ e, b = Traverse e true ∧ last_marked l = None).
Proof.
  split.
  - intros [(pre & post & Heq & Hd) | (pre & e & post & Heq & Hm)];
      apply snoc_eq_middle in Heq as [(-> & -> & <-) | (post' & -> & ->)].
    + right; left. done.
    + left; left. by exists pre, post'.
    + right; right. by exists e.
    + left; right. by exists pre, e, post'.
  - intros [[(pre & post & -> & Hd) | (pre & e & post & -> & Hm)]
           | [(-> & Hd) | (e & -> & Hm)]].
    + left. exists pre, (post ++ [b]). by rewrite <- app_assoc.
    + right. exists pre, e, (post ++ [b]). by rewrite <- app_assoc.
    + left. by exists l, [].
    + right. by exists l, e, [].
Qed.

Lemma optional_mismatch_app (l post : list Block) :
  optional_mismatch l → optional_mismatch (l ++ post).
Proof.
  intros [(pre & post' & -> & Hd) | (pre & e & post' & -> & Hm)].
  - left. exists pre, (post' ++ post). by rewrite <- app_assoc.
  - right. exists pre, e, (post' ++ post). by rewrite <- app_assoc.
Qed.

Lemma optional_inv_depth (pre : list Block) (st : OptionalState) :
  optional_inv pre st →
  scope_depth 0 pre = Some (length (in_optional_root_locations st)).
Proof.
  intros Hinv. apply enclosing_depth.
  apply (scopes_at_enclosing _ _ _ (inv_scopes _ _ Hinv)).
Qed.

Lemma step_close_nothing (pre : list Block) (st : OptionalState) :
  optional_inv pre st → scope_depth 0 pre = Some 0 →
  optional_root_step st EndOptional = Raise AssertionError.
Proof.
  intros Hinv Hd. pose proof (optional_inv_depth _ _ Hinv) as Hlen.
  rewrite Hd in Hlen. injection Hlen as Hlen.
  destruct Hinv as [Hsc _ _ _ _].
  destruct st as [complex mapping roots flags preceding]. simpl in *.
  unfold_optional_root_step.
  rewrite (encountered_update pre roots flags EndOptional Hsc). simpl.
  by rewrite bool_decide_eq_true_2.
Qed.

Lemma step_open_unmarked (pre : list Block) (st : OptionalState) (e : string) :
  optional_inv pre st → last_marked pre = None →
  optional_root_step st (Traverse e true) = Raise AssertionError.
Proof.
  intros [Hsc Hprec _ _ _] Hm.
  destruct st as [complex mapping roots flags preceding]. simpl in *.
  unfold_optional_root_step.
  rewrite (encountered_update pre roots flags (Traverse e true) Hsc). simpl.
  by rewrite Hprec, Hm.
Qed.

Lemma optional_root_run_any (l : list Block) :
  match for_each optional_root_step optional_root_init l with
  | Ok st => ¬ optional_mismatch l ∧ optional_inv l st
  | Raise e => e = AssertionError ∧ optional_mismatch l
  end.
Proof.
  induction l as [|b l IH] using rev_ind.
  - simpl. split; [apply optional_mismatch_nil|apply optional_inv_init].
  - rewrite for_each_app.
    destruct (for_each optional_root_step optional_root_init l) as [st|e];
      cbn [bind for_each].
    2: { destruct IH as [-> Hm]. split; [done|]. by apply optional_mismatch_app. }
    destruct IH as [Hno Hinv].
    pose proof (optional_inv_depth _ _ Hinv) as Hdepth.
    assert (Hgood :
      (b = EndOptional → scope_depth 0 l ≠ Some 0) →
      (∀ e, b = Traverse e true → is_Some (last_marked l)) →
      match (do st' <- optional_root_step st b; Ok st') with
      | Ok st' => ¬ optional_mismatch (l ++ [b]) ∧ optional_inv (l ++ [b]) st'
      | Raise e => e = AssertionError ∧ optional_mismatch (l ++ [b])
      end).
    { intros Hclose Hopen.
      destruct (optional_root_step_inv l st b Hinv) as (st' & -> & Hinv').
      - rewrite scope_depth_app, Hdepth. simpl.
        destruct (is_optional_Traverse b); [done|].
        destruct (is_EndOptional b) eqn:Hb; [|done].
        destruct b; try done.
        destruct (length (in_optional_root_locations st)); [|done].
        by destruct Hclose.
      - intros Hb. destruct b as [| e [|] | | | | | |]; try done.
        by apply (Hopen e).
      - simpl. split; [|done]. rewrite optional_mismatch_snoc.
        intros [? | [[-> Hd] | (e & -> & Hm)]]; [done|by apply Hclose|].
        destruct (Hopen e eq_refl) as [x Hx]. congruence. }
    destruct b as [x | e [|] | | | | | |];
      try (apply Hgood; [done|done]).
    + destruct (last_marked l) as [x|] eqn:Hm.
      * apply Hgood; [done|]. by intros e' _.
      * rewrite (step_open_unmarked l st e Hinv Hm). simpl. split; [done|].
        apply optional_mismatch_snoc. right; right. by exists e.
    + destruct (decide (scope_depth 0 l = Some 0)) as [Hd | Hd].
      * rewrite (step_close_nothing l st Hinv Hd). simpl. split; [done|].
        apply optional_mismatch_snoc. right; left. done.
      * apply Hgood; [done|done].
Qed.

Lemma optional_root_info_run (ir_blocks : list Block)
    (fs : dict FoldScopeLocation (list Block)) (nf : list Block) :
  extract_folds_from_ir_blocks ir_blocks = Ok (fs, nf) →
  match extract_optional_location_root_info ir_blocks with
  | Ok (complex, mapping) =>
      ¬ optional_mismatch nf
      ∧ ∃ st, optional_inv nf st
              ∧ complex = complex_optional_roots st
              ∧ mapping = location_to_optional_roots st
  | Raise e => e = AssertionError ∧ optional_mismatch nf
  end.
Proof.
  intros Hfolds. unfold extract_optional_location_root_info.
  rewrite Hfolds. cbn [bind].
  pose proof (optional_root_run_any nf) as Hrun.
  destruct (for_each optional_root_step optional_root_init nf) as [st|e];
    cbn [bind]; [|done].
  destruct Hrun as [Hno Hinv]. split; [done|]. by exists st.
Qed.

(** X15. The analysis of the optional scopes raises nothing but its
    assertion error: when the fold markers of the sequence are mismatched,
    and otherwise exactly when the blocks outside of folds hold an
    [EndOptional] with no optional scope open or an optional [Traverse] with
    no location marked before it. In every other case it returns a result,
    also when an optional scope is still open at the end of the sequence. *)
Theorem extract_optional_location_root_info_raises (ir_blocks : list Block) :
  (∀ e, extract_optional_location_root_info ir_blocks = Raise e →
        e = AssertionError)
  ∧ (fold_mismatch ir_blocks →
     extract_optional_location_root_info ir_blocks = Raise AssertionError)
  ∧ (∀ folds non_folded,
       extract_folds_from_ir_blocks ir_blocks = Ok (folds, non_folded) →
       (extract_optional_location_root_info ir_blocks = Raise AssertionError
        ↔ optional_mismatch non_folded)
       ∧ ((∃ r, extract_optional_location_root_info ir_blocks = Ok r)
          ↔ ¬ optional_mismatch non_folded)).
Proof.
  pose proof (extract_folds_run ir_blocks) as Hfolds.
  assert (Hcases :
    (extract_folds_from_ir_blocks ir_blocks = Raise AssertionError
     ∧ fold_mismatch ir_blocks)
    ∨ (∃ fs nf, extract_folds_from_ir_blocks ir_blocks = Ok (fs, nf)
                ∧ ¬ fold_mismatch ir_blocks)).
  { unfold extract_folds_from_ir_blocks.
    destruct (for_each extract_folds_step extract_folds_init ir_blocks)
      as [st|e]; simpl.
    - right. exists (folds st), (remaining_ir_blocks st). by destruct Hfolds.
    - left. by destruct Hfolds as [-> ?]. }
  split; [|split].
  - intros e. destruct Hcases as [[Hraise _] | (fs & nf & Hok & _)].
    + unfold extract_optional_location_root_info. rewrite Hraise. simpl.
      congruence.
    + pose proof (optional_root_info_run _ _ _ Hok) as Hrun.
      destruct (extract_optional_location_root_info ir_blocks) as [[? ?]|e'];
        [done|].
      destruct Hrun as [-> _]. congruence.
  - intros Hm. destruct Hcases as [[Hraise _] | (fs & nf & _ & Hno)]; [|done].
    unfold extract_optional_location_root_info. by rewrite Hraise.
  - intros fs nf Hok. pose proof (optional_root_info_run _ _ _ Hok) as Hrun.
    destruct (extract_optional_location_root_info ir_blocks) as [[c m]|e'].
    + destruct Hrun as [Hno _]. split; split; try done. by eexists.
    + destruct Hrun as [-> Hm]. split; split; try done. by intros [r ?].
Qed.

(** ** extract_optional_location_root_info: what it returns *)

Lemma enclosing_roots_marked (pre : list Block) (roots : list Location)
    (R : Location) :
  enclosing_roots pre roots → R ∈ roots → R ∈ marked_locations pre.
Proof.
  induction 1 as [s Hs | pre roots e r s _ IH Hr Hs].
  - by intros ?%elem_of_nil.
  - rewrite marked_locations_app.
    intros [Hin | ->%list_elem_of_singleton]%elem_of_app; apply elem_of_app; left.
    + by apply IH.
    + by apply last_marked_elem.
Qed.

Lemma optional_inv_stacks (nf : list Block) (st : OptionalState)
    (L : Location) (stack : list Location) :
  optional_inv nf st → (L, stack) ∈ location_to_optional_roots st →
  stack ≠ []
  ∧ L ∈ marked_locations nf
  ∧ ∀ R, R ∈ stack → R ∈ marked_locations nf.
Proof.
  intros Hinv Hin.
  apply (dict_elem_get _ _ _ (inv_keys _ _ Hinv)) in Hin.
  apply (inv_mapping _ _ Hinv) in Hin as (pre & post & -> & Henc & Hne & _).
  split; [done|]. rewrite marked_locations_app. split.
  - apply elem_of_app. right. by left.
  - intros R HR. apply elem_of_app. left.
    by apply (enclosing_roots_marked pre stack).
Qed.



(** ** extract_simple_optional_location_info: when it raises *)

Lemma location_to_preceding_raises (mapping : dict Location (list Location))
    (acc : dict Location Location) :
  match for_each (fun d '(location, optional_root_locations_stack) =>
                    do root <- get_last optional_root_locations_stack;
                    Ok (dict_set d location root))
                 acc mapping with
  | Ok items =>
      (∀ L stack, (L, stack) ∈ mapping → stack ≠ [])
      ∧ ∀ L R, (L, R) ∈ items →
               (L, R) ∈ acc
               ∨ ∃ stack, (L, stack) ∈ mapping ∧ last stack = Some R
  | Raise e => e = IndexError ∧ ∃ L, (L, []) ∈ mapping
  end.
Proof.
  revert acc. induction mapping as [|[L0 stack0] mapping IH]; intros acc.
  - simpl. split; [by intros L stack ?%elem_of_nil|]. intros L R ?. by left.
  - cbn [for_each]. unfold get_last at 1.
    destruct (last stack0) as [r0|] eqn:Hlast; cbn [bind].
    + specialize (IH (dict_set acc L0 r0)).
      destruct (for_each _ (dict_set acc L0 r0) mapping) as [items|e].
      * destruct IH as [Hne Hitems]. split.
        -- intros L stack [[= -> ->] | Hin]%elem_of_cons; [|by apply (Hne L)].
           intros ->. done.
        -- intros L R [[[-> ->] | Hin]%dict_set_elem | (stack & Hin & Hl)]%Hitems.
           ++ right. exists stack0. split; [by left|done].
           ++ by left.
           ++ right. exists stack. split; [by right|done].
      * destruct IH as [-> [L HL]]. split; [done|]. exists L. by right.
    + apply last_None in Hlast as ->. split; [done|]. exists L0. by left.
Qed.

Lemma location_to_preceding_optional_root_run
    (mapping : dict Location (list Location)) :
  match location_to_preceding_optional_root mapping with
  | Ok items =>
      (∀ L stack, (L, stack) ∈ mapping → stack ≠ [])
      ∧ ∀ L R, (L, R) ∈ items →
               ∃ stack, (L, stack) ∈ mapping ∧ last stack = Some R
  | Raise e => e = IndexError ∧ ∃ L, (L, []) ∈ mapping
  end.
Proof.
  set (run := location_to_preceding_optional_root mapping).
  assert (Hrun :
    match run with
    | Ok items =>
        (∀ L stack, (L, stack) ∈ mapping → stack ≠ [])
        ∧ ∀ L R, (L, R) ∈ items →
                 (L, R) ∈ []
                 ∨ ∃ stack, (L, stack) ∈ mapping ∧ last stack = Some R
    | Raise e => e = IndexError ∧ ∃ L, (L, []) ∈ mapping
    end) by exact (location_to_preceding_raises mapping []).
  destruct run as [items|e]; [|done].
  destruct Hrun as [Hne Hitems]. split; [done|].
  intros L R [?%elem_of_nil | ?]%Hitems; done.
Qed.

Lemma simple_keys_from_items (complex : list Location)
    (items d : dict Location Location) (R inner : Location) :
  dict_get
    (foldl (fun d '(inner_location, optional_root_location) =>
              if bool_decide (optional_root_location ∈ complex)
              then d
              else dict_set d optional_root_location inner_location)
           d items) R
  = Some inner →
  dict_get d R = Some inner ∨ ((R ∉ complex) ∧ (inner, R) ∈ items).
Proof.
  revert d. induction items as [|[inner0 root0] items IH]; intros d; simpl.
  - by left.
  - intros [Hd | [HR Hin]]%IH; [|right; split; [done|by right]].
    case_bool_decide as Hc; [by left|].
    rewrite dict_get_set in Hd. case_decide as Heq; [|by left].
    injection Hd as ->. subst. right. split; [done|by left].
Qed.

(** X17. The classification of the optional roots, whatever it is given:
    it raises an index error when a stack of the mapping is empty, before it
    looks at the blocks; with no empty stack it raises the assertion error of
    the extraction of the folds when the fold markers are mismatched, and
    returns a result otherwise. It never raises a key error. *)
Theorem extract_simple_optional_location_info_raises (ir_blocks : list Block)
    (complex : list Location) (mapping : dict Location (list Location)) :
  ((∃ L, (L, []) ∈ mapping) →
   extract_simple_optional_location_info ir_blocks complex mapping
   = Raise IndexError)
  ∧ ((∀ L stack, (L, stack) ∈ mapping → stack ≠ []) →
     (fold_mismatch ir_blocks →
      extract_simple_optional_location_info ir_blocks complex mapping
      = Raise AssertionError)
     ∧ (¬ fold_mismatch ir_blocks →
        ∃ info,
          extract_simple_optional_location_info ir_blocks complex mapping
          = Ok info))
  ∧ extract_simple_optional_location_info ir_blocks complex mapping
    ≠ Raise KeyError.
Proof.
  pose proof (location_to_preceding_optional_root_run mapping) as Hitems.
  pose proof (extract_folds_run ir_blocks) as Hfolds.
  unfold extract_simple_optional_location_info, extract_folds_from_ir_blocks.
  destruct (location_to_preceding_optional_root mapping) as [items|e];
    cbn [bind].
  - destruct Hitems as [Hne _].
    destruct (for_each extract_folds_step extract_folds_init ir_blocks)
      as [st|e]; cbn [bind].
    + destruct Hfolds as [Hno _].
      destruct (simple_scan
                  (simple_optional_root_to_inner_location complex items)
                  (remaining_ir_blocks st) [] None) as (info & Hscan & _).
      unfold dict in *. rewrite Hscan.
      cbn [bind fst]. split; [|split; [|done]].
      * intros [L HL]. by destruct (Hne L [] HL).
      * intros _. split; [done|]. intros _. by eexists.
    + destruct Hfolds as [-> Hm]. split; [|split; [|done]].
      * intros [L HL]. by destruct (Hne L [] HL).
      * intros _. split; [done|]. by intros ?.
  - destruct Hitems as [-> [L HL]]. split; [done|]. split; [|done].
    intros Hne. by destruct (Hne L [] HL).
Qed.

(** X18. The classification never fails on what the analysis of the same
    sequence returned: whenever [extract_optional_location_root_info] returns
    its two results for a sequence, [extract_simple_optional_location_info]
    returns a result for the sequence and these two. *)
Theorem extract_simple_optional_location_info_after_analysis
    (ir_blocks : list Block) (complex : list Location)
    (mapping : dict Location (list Location)) :
  extract_optional_location_root_info ir_blocks = Ok (complex, mapping) →
  ∃ info,
    extract_simple_optional_location_info ir_blocks complex mapping = Ok info.
Proof.
  intros Hroot.
  assert (Hfolds : ∃ fs nf,
            extract_folds_from_ir_blocks ir_blocks = Ok (fs, nf)).
  { unfold extract_optional_location_root_info in Hroot.
    destruct (extract_folds_from_ir_blocks ir_blocks) as [[fs nf]|e]; [|done].
    by exists fs, nf. }
  destruct Hfolds as (fs & nf & Hfolds).
  pose proof (optional_root_info_run _ _ _ Hfolds) as Hrun.
  rewrite Hroot in Hrun. destruct Hrun as (_ & st & Hinv & -> & ->).
  pose proof (location_to_preceding_optional_root_run
                (location_to_optional_roots st)) as Hitems.
  unfold extract_simple_optional_location_info.
  destruct (location_to_preceding_optional_root (location_to_optional_roots st))
    as [items|e]; cbn [bind].
  - rewrite Hfolds. cbn [bind].
    destruct (simple_scan
                (simple_optional_root_to_inner_location
                   (complex_optional_roots st) items) nf [] None)
      as (info & Hscan & _).
    unfold dict in *. rewrite Hscan. by eexists.
  - destruct Hitems as [_ [L HL]].
    by destruct (optional_inv_stacks nf st L [] Hinv HL) as [? _].
Qed.

Lemma extract_simple_optional_location_info_after_analysis_witness :
  ∃ info,
    extract_simple_optional_location_info
      [MarkLocation animal; Traverse "out_Animal_ParentOf" true;
       MarkLocation parent]
      [] [(parent, [animal])]
    = Ok info.
Proof.
  apply (extract_simple_optional_location_info_after_analysis
           [MarkLocation animal; Traverse "out_Animal_ParentOf" true;
            MarkLocation parent]).
  reflexivity.
Defined.

(** ** extract_simple_optional_location_info: what it returns *)

Lemma last_optional_edge_snoc (l : list Block) (b : Block) (R : Location)
    (e : string) :
  last_optional_edge (l ++ [b]) R e
  ↔ (b = Traverse e true ∧ last_marked l = Some R)
    ∨ ((∀ e', b = Traverse e' true → last_marked l ≠ Some R)
       ∧ last_optional_edge l R e).
Proof.
  split.
  - intros (pre & post & Heq & HR & Hlast).
    apply snoc_eq_middle in Heq as [(-> & -> & <-) | (post' & -> & ->)].
    + by left.
    + right. split.
      * intros e' ->. by apply (Hlast post' e' []).
      * exists pre, post'. split; [done|]. split; [done|].
        intros q1 e' q2 ->. apply (Hlast q1 e' (q2 ++ [b])).
        by rewrite <- app_assoc.
  - intros [[-> HR] | (Hb & pre & post & -> & HR & Hlast)].
    + exists l, []. split; [done|]. split; [done|].
      intros q1 e' q2 Heq. by destruct q1.
    + exists pre, (post ++ [b]). split; [by rewrite <- app_assoc|].
      split; [done|]. intros q1 e' q2 Heq.
      apply snoc_eq_middle in Heq as [(-> & -> & <-) | (q2' & -> & ->)].
      * by apply (Hb e').
      * by apply (Hlast q1 e' q2').
Qed.

Lemma simple_optional_step_cases (root_to_inner : dict Location Location)
    (info : dict Location SimpleOptionalInfo) (preceding : option Location)
    (b : Block) :
  simple_optional_step root_to_inner (info, preceding) b
  = Ok (match b with
        | MarkLocation x => (info, Some x)
        | Traverse e true =>
            match preceding ≫= fun root =>
                    (fun inner => (root, inner)) <$> dict_get root_to_inner root with
            | Some (root, inner) =>
                (dict_set info root (mkSimpleOptionalInfo (mark_name inner) e),
                 preceding)
            | None => (info, preceding)
            end
        | _ => (info, preceding)
        end).
Proof.
  destruct b as [x | e [|] | | | | | |]; try done.
  destruct preceding as [root|]; [|done]. cbn [simple_optional_step mbind option_bind].
  case_bool_decide as Hin.
  - apply dict_keys_get in Hin as [inner Hinner]. by rewrite Hinner.
  - destruct (dict_get root_to_inner root) as [inner|] eqn:Hinner; [|done].
    destruct Hin. apply dict_keys_get. by eexists.
Qed.

Lemma simple_scan_exact (root_to_inner : dict Location Location)
    (l : list Block) (info : dict Location SimpleOptionalInfo)
    (preceding : option Location) :
  for_each (simple_optional_step root_to_inner) ([], None) l
  = Ok (info, preceding) →
  preceding = last_marked l
  ∧ ∀ R i,
      dict_get info R = Some i
      ↔ ∃ e inner,
          last_optional_edge l R e
          ∧ dict_get root_to_inner R = Some inner
          ∧ i = mkSimpleOptionalInfo (mark_name inner) e.
Proof.
  revert info preceding. induction l as [|b l IH] using rev_ind;
    intros info preceding.
  - intros [= <- <-]. split; [done|]. intros R i. split; [done|].
    intros (e & inner & (pre & post & Heq & _) & _). by destruct pre.
  - rewrite for_each_app.
    destruct (for_each (simple_optional_step root_to_inner) ([], None) l)
      as [[info0 p0]|e0]; [|done].
    destruct (IH info0 p0 eq_refl) as [-> Hinfo]. clear IH.
    cbn [bind for_each]. rewrite simple_optional_step_cases. cbn [bind].
    intros [= Hstep]. rewrite last_marked_snoc.
    assert (Hsame :
      (∀ e', b = Traverse e' true → last_marked l = None
             ∨ ∃ root, last_marked l = Some root
                       ∧ dict_get root_to_inner root = None) →
      ∀ R i,
        dict_get info0 R = Some i
        ↔ ∃ e inner,
            last_optional_edge (l ++ [b]) R e
            ∧ dict_get root_to_inner R = Some inner
            ∧ i = mkSimpleOptionalInfo (mark_name inner) e).
    { intros Hb R i. rewrite Hinfo. split.
      - intros (e & inner & Hedge & Hinner & ->). exists e, inner.
        split; [|done]. apply last_optional_edge_snoc. right. split; [|done].
        intros e' He'. destruct (Hb e' He') as [-> | (root & -> & Hnone)];
          [done|]. intros [= ->]. congruence.
      - intros (e & inner & [[-> HR] | [_ Hedge]]%last_optional_edge_snoc
                & Hinner & ->).
        + destruct (Hb e eq_refl) as [? | (root & ? & ?)]; congruence.
        + by exists e, inner. }
    destruct b as [x | e [|] | | | | | |];
      try (injection Hstep as <- <-; split; [done|]; by apply Hsame).
    destruct (last_marked l) as [root|] eqn:Hroot; cbn [mbind option_bind] in Hstep.
    2: { injection Hstep as <- <-. split; [done|]. apply Hsame.
         intros e' _. by left. }
    destruct (dict_get root_to_inner root) as [inner|] eqn:Hinner;
      cbn [fmap option_fmap option_map] in Hstep.
    2: { injection Hstep as <- <-. split; [done|]. apply Hsame.
         intros e' _. right. by exists root. }
    injection Hstep as <- <-. split; [done|].
    intros R i. rewrite dict_get_set. case_decide as HR.
    + subst R. split.
      * intros [= <-]. exists e, inner. split; [|done].
        apply last_optional_edge_snoc. by left.
      * intros (e' & inner' & [[[= ->] _] | [Hb _]]%last_optional_edge_snoc
                & Hinner' & ->).
        -- congruence.
        -- by destruct (Hb e eq_refl).
    + rewrite Hinfo. split.
      * intros (e' & inner' & Hedge & Hinner' & ->). exists e', inner'.
        split; [|done]. apply last_optional_edge_snoc. right. split; [|done].
        intros e'' _. congruence.
      * intros (e' & inner' & [[_ Hroot'] | [_ Hedge]]%last_optional_edge_snoc
                & Hinner' & ->).
        -- congruence.
        -- by exists e', inner'.
Qed.

Lemma location_to_preceding_exact (mapping : dict Location (list Location))
    (acc items : dict Location Location) :
  NoDup (dict_keys acc ++ dict_keys mapping) →
  for_each (fun d '(location, optional_root_locations_stack) =>
              do root <- get_last optional_root_locations_stack;
              Ok (dict_set d location root))
           acc mapping
  = Ok items →
  ∃ items',
    items = acc ++ items'
    ∧ Forall2 (fun m it => fst it = fst m ∧ last (snd m) = Some (snd it))
        mapping items'.
Proof.
  revert acc. induction mapping as [|[L0 stack0] mapping IH]; intros acc Hnd.
  - intros [= <-]. exists []. by rewrite app_nil_r.
  - cbn [for_each]. unfold get_last at 1.
    destruct (last stack0) as [r0|] eqn:Hlast; [|done]. cbn [bind].
    simpl in Hnd. rewrite dict_set_fresh.
    2: { apply NoDup_app in Hnd as (_ & Hdisj & _). intros Hin.
         apply (Hdisj _ Hin). by left. }
    intros (items' & -> & Hall)%IH.
    + exists ((L0, r0) :: items'). split; [by rewrite <- app_assoc|].
      by constructor.
    + rewrite dict_keys_app. simpl. by rewrite <- app_assoc.
Qed.

Lemma simple_root_lookup (complex : list Location)
    (items : dict Location Location) (R inner : Location) :
  dict_get (simple_optional_root_to_inner_location complex items) R = Some inner
  ↔ (R ∉ complex)
    ∧ ∃ i1 i2, items = i1 ++ (inner, R) :: i2 ∧ ∀ x, (x, R) ∉ i2.
Proof.
  unfold simple_optional_root_to_inner_location.
  induction items as [|[inner0 root0] items IH] using rev_ind.
  - simpl. split; [done|]. intros (_ & i1 & i2 & Heq & _). by destruct i1.
  - rewrite foldl_app. cbn [foldl].
    assert (Hother : root0 ≠ R ∨ R ∈ complex →
      ((R ∉ complex)
       ∧ ∃ i1 i2, items = i1 ++ (inner, R) :: i2 ∧ ∀ x, (x, R) ∉ i2)
      ↔ ((R ∉ complex)
         ∧ ∃ i1 i2, items ++ [(inner0, root0)] = i1 ++ (inner, R) :: i2
                    ∧ ∀ x, (x, R) ∉ i2)).
    { intros Hside. split.
      - intros (HR & i1 & i2 & -> & Hlast). split; [done|].
        exists i1, (i2 ++ [(inner0, root0)]). split; [by rewrite <- app_assoc|].
        intros x [Hin | [= -> ->]%list_elem_of_singleton]%elem_of_app.
        + by apply (Hlast x).
        + by destruct Hside.
      - intros (HR & i1 & i2 & Heq & Hlast). split; [done|].
        apply snoc_eq_middle in Heq as [(-> & -> & [= -> ->]) | (i2' & -> & ->)].
        + by destruct Hside.
        + exists i1, i2'. split; [done|]. intros x Hin.
          apply (Hlast x), elem_of_app. by left. }
    case_bool_decide as Hc.
    + rewrite IH. destruct (decide (root0 = R)) as [-> | Hne].
      * apply Hother. by right.
      * apply Hother. by left.
    + rewrite dict_get_set. case_decide as HR.
      * subst root0. split.
        -- intros [= ->]. split; [done|]. exists items, []. split; [done|].
           by intros x ?%elem_of_nil.
        -- intros (_ & i1 & i2 & Heq & Hlast).
           apply snoc_eq_middle in Heq as [(-> & -> & [= ->]) | (i2' & -> & ->)];
             [done|].
           destruct (Hlast inner0). apply elem_of_app. right. by left.
      * rewrite IH. apply Hother. left. congruence.
Qed.

Lemma last_inner_location_items (mapping : dict Location (list Location))
    (items : dict Location Location) (R inner : Location) :
  Forall2 (fun m it => fst it = fst m ∧ last (snd m) = Some (snd it))
    mapping items →
  (∃ i1 i2, items = i1 ++ (inner, R) :: i2 ∧ ∀ x, (x, R) ∉ i2)
  ↔ last_inner_location mapping R inner.
Proof.
  intros Hall. split.
  - intros (i1 & i2 & -> & Hlast).
    apply Forall2_app_inv_r in Hall as (m1 & m' & H1 & H' & ->).
    apply Forall2_cons_inv_r in H' as ([L stack] & m2 & [HL Hstack] & H2 & ->).
    simpl in *. subst L. exists m1, stack, m2. split; [done|]. split; [done|].
    intros L' stack' [i Hi]%list_elem_of_lookup Hstack'.
    destruct (Forall2_lookup_l _ _ _ _ _ H2 Hi) as ([L'' r] & Hit & HL & Hr).
    simpl in *. subst L''. destruct (Hlast L').
    apply list_elem_of_lookup. exists i. rewrite Hit. congruence.
  - intros (m1 & stack & m2 & -> & Hstack & Hlast).
    apply Forall2_app_inv_l in Hall as (i1 & i' & H1 & H' & ->).
    apply Forall2_cons_inv_l in H' as ([L r] & i2 & [HL Hr] & H2 & ->).
    simpl in *. subst L. assert (r = R) as -> by congruence.
    exists i1, i2. split; [done|].
    intros x [i Hi]%list_elem_of_lookup.
    destruct (Forall2_lookup_r _ _ _ _ _ H2 Hi) as ([L' stack'] & Hm & HL & Hr').
    simpl in *. apply (Hlast L' stack'); [|done].
    apply list_elem_of_lookup. by exists i.
Qed.

(** X19. What the classification returns, whatever it is given (the mapping
    being a dictionary, its keys are distinct): a location [R] is a key of
    the result exactly when it is no complex root, it is the location marked
    last before some optional [Traverse] outside of folds, and some stack of
    the mapping ends in it; it is then mapped to the edge of the last such
    [Traverse] and to the name of the last location of the mapping whose
    stack ends in [R]. *)
Theorem extract_simple_optional_location_info_result (ir_blocks : list Block)
    (complex : list Location) (mapping : dict Location (list Location))
    (folds : dict FoldScopeLocation (list Block)) (non_folded : list Block)
    (info : dict Location SimpleOptionalInfo) :
  NoDup (dict_keys mapping) →
  extract_folds_from_ir_blocks ir_blocks = Ok (folds, non_folded) →
  extract_simple_optional_location_info ir_blocks complex mapping = Ok info →
  ∀ R i,
    dict_get info R = Some i
    ↔ (R ∉ complex)
      ∧ ∃ e inner,
          last_optional_edge non_folded R e
          ∧ last_inner_location mapping R inner
          ∧ i = mkSimpleOptionalInfo (mark_name inner) e.
Proof.
  intros Hnd Hfolds. unfold extract_simple_optional_location_info.
  destruct (location_to_preceding_optional_root mapping) as [items|e] eqn:Hitems;
    [|done].
  apply (location_to_preceding_exact mapping []) in Hitems
    as (items' & -> & Hall); [|done].
  cbn [bind app]. rewrite Hfolds. cbn [bind].
  destruct (for_each _ _ non_folded) as [[info' preceding]|e] eqn:Hscan; [|done].
  cbn [bind fst]. intros [= ->]. intros R i.
  apply simple_scan_exact in Hscan as [_ Hscan]. rewrite Hscan.
  split.
  - intros (e & inner & Hedge & [HR Hin]%simple_root_lookup & ->).
    split; [done|]. exists e, inner. split; [done|]. split; [|done].
    by apply (last_inner_location_items mapping items').
  - intros (HR & e & inner & Hedge & Hin & ->). exists e, inner.
    split; [done|]. split; [|done]. apply simple_root_lookup. split; [done|].
    by apply (last_inner_location_items mapping items').
Qed.

Lemma extract_simple_optional_location_info_result_witness :
  ∃ info,
    extract_simple_optional_location_info simple_optional [] [(parent, [animal])]
    = Ok info
    ∧ ∀ R i,
        dict_get info R = Some i
        ↔ (R ∉ [])
          ∧ ∃ e inner,
              last_optional_edge simple_optional R e
              ∧ last_inner_location [(parent, [animal])] R inner
              ∧ i = mkSimpleOptionalInfo (mark_name inner) e.
Proof.
  exists [(animal, mkSimpleOptionalInfo (mark_name parent) "out_Animal_ParentOf")].
  split; [reflexivity|].
  apply (extract_simple_optional_location_info_result simple_optional []
           [(parent, [animal])] [] simple_optional).
  - apply NoDup_singleton.
  - reflexivity.
  - reflexivity.
Defined.

(** ** merge_consecutive_filter_clauses and the expression passes *)

Lemma merge_two_other (x y : Block) (l : list Block) :
  is_Filter x && is_Filter y = false →
  merge_consecutive_filter_clauses (x :: y :: l)
  = x :: merge_consecutive_filter_clauses (y :: l).
Proof. intros Hxy. rewrite merge_two. destruct x; try done. by destruct y. Qed.

(** A pass that rewrites block by block, keeps the blocks that are no
    [Filter] such, and rewrites a conjunction side by side goes through the
    merge of the [Filter]s. *)
Lemma merge_blockwise (g : Block → Block) (h : Expression → Expression)
    (l : list Block) :
  (∀ p, g (Filter p) = Filter (h p)) →
  (∀ b, is_Filter b = false → is_Filter (g b) = false) →
  (∀ p q, h (BinaryComposition "&&" p q) = BinaryComposition "&&" (h p) (h q)) →
  merge_consecutive_filter_clauses (g <$> l)
  = g <$> merge_consecutive_filter_clauses l.
Proof.
  intros Hfilter Hother Hand.
  remember (length l) as n eqn:Hn. revert l Hn.
  induction n as [n IH] using lt_wf_ind. intros l Hn.
  destruct l as [|x [|y l]]; [done|done|].
  destruct (is_Filter x && is_Filter y) eqn:Hxy.
  - destruct x as [| | |p| | | |]; try done.
    destruct y as [| | |q| | | |]; try done.
    rewrite merge_two, !fmap_cons, !Hfilter, merge_two, <- Hand, <- Hfilter.
    apply (IH (length (Filter (BinaryComposition "&&" p q) :: l)) ltac:(simpl in *; lia)
              (Filter (BinaryComposition "&&" p q) :: l) eq_refl).
  - rewrite merge_two_other by done. rewrite !fmap_cons, merge_two_other.
    + f_equal. apply (IH (length (y :: l)) ltac:(simpl in *; lia) (y :: l) eq_refl).
    + apply andb_false_iff in Hxy as [Hx | Hy].
      * by rewrite (Hother x Hx).
      * by rewrite (Hother y Hy), andb_false_r.
Qed.

Lemma visitor_fn_conjunction (p q : Expression) :
  visitor_fn (BinaryComposition "&&" p q) = BinaryComposition "&&" p q.
Proof. unfold visitor_fn. by destruct (negb _ && negb _). Qed.

Lemma lower_merge (get_location_info : Location → LocationInfo)
    (ContextField_validate : Location → GraphQLType → result unit)
    (n : nat) (l : list Block) :
  (length l ≤ n)%nat →
  lower_context_field_existence get_location_info ContextField_validate
    (merge_consecutive_filter_clauses l)
  = (do new_ir_blocks <-
       lower_context_field_existence get_location_info ContextField_validate l;
     Ok (merge_consecutive_filter_clauses new_ir_blocks)).
Proof.
  revert l. induction n as [|n IH]; intros l Hn.
  { destruct l; [done|simpl in Hn; lia]. }
  destruct l as [|x [|y l]]; [done| |].
  - rewrite merge_single, lower_cons.
    destruct (if is_ConstructResult x then _ else _) as [x'|err]; [|done].
    done.
  - destruct (is_Filter x && is_Filter y) eqn:Hxy.
    + destruct x as [| | |p| | | |]; try done.
      destruct y as [| | |q| | | |]; try done.
      rewrite merge_two, IH by (simpl in *; lia).
      rewrite !lower_cons.
      cbn [is_ConstructResult]. rewrite !lower_filter.
      cbn [visit_and_update_or_raise].
      destruct (visit_and_update_or_raise _ p) as [p'|err]; cbn [bind]; [|done].
      destruct (visit_and_update_or_raise _ q) as [q'|err]; cbn [bind]; [|done].
      cbn [regular_visitor_fn bind].
      destruct (lower_context_field_existence _ _ l) as [r|err]; cbn [bind];
        [|done].
      by rewrite merge_two.
    + rewrite merge_two_other by done.
      rewrite lower_cons, IH by (simpl in *; lia).
      rewrite (lower_cons _ _ x).
      destruct (if is_ConstructResult x then _ else _) as [x'|err] eqn:Hx;
        cbn [bind]; [|done].
      destruct (lower_context_field_existence _ _ (y :: l)) as [r|err] eqn:Hr;
        cbn [bind]; [|done].
      apply lower_block_returns in Hx as ->.
      apply lower_returns in Hr as [-> _]. rewrite fmap_cons.
      rewrite merge_two_other; [done|].
      apply andb_false_iff in Hxy as [Hx | Hy].
      * by destruct x.
      * destruct y; try done; by rewrite andb_false_r.
Qed.

(** X20. The merge of consecutive [Filter]s and an expression pass can be
    run in either order: lowering the merged sequence returns what merging
    the lowered sequence gives, and raises what lowering the sequence raises;
    optimizing the merged sequence gives what merging the optimized sequence
    gives. *)
Theorem merge_consecutive_filter_clauses_expression_passes
    (get_location_info : Location → LocationInfo)
    (ContextField_validate : Location → GraphQLType → result unit)
    (ir_blocks : list Block) :
  lower_context_field_existence get_location_info ContextField_validate
    (merge_consecutive_filter_clauses ir_blocks)
  = (do new_ir_blocks <-
       lower_context_field_existence get_location_info ContextField_validate
         ir_blocks;
     Ok (merge_consecutive_filter_clauses new_ir_blocks))
  ∧ merge_consecutive_filter_clauses
      (optimize_boolean_expression_comparisons ir_blocks)
    = optimize_boolean_expression_comparisons
        (merge_consecutive_filter_clauses ir_blocks).
Proof.
  split.
  - by apply (lower_merge _ _ (length ir_blocks)).
  - rewrite !optimize_boolean_expression_comparisons_map.
    apply (merge_blockwise _ (visit_and_update visitor_fn));
      [done|by intros []|].
    intros p q. cbn [visit_and_update]. apply visitor_fn_conjunction.
Qed.

(** ** The expression passes and the fold scopes *)

Lemma references_valid_infix (get_location_info : Location → LocationInfo)
    (ContextField_validate : Location → GraphQLType → result unit)
    (l part : list Block) :
  Forall (references_valid get_location_info ContextField_validate) l →
  part ⊆ l →
  lower_context_field_existence get_location_info ContextField_validate part
  = Ok (lowered_block get_location_info <$> part).
Proof.
  intros Hvalid Hpart. apply lower_valid. apply Forall_forall.
  intros b Hb. by apply (proj1 (Forall_forall _ _) Hvalid), Hpart.
Qed.

(** X8. The two expression passes go through the cut of the fold scopes.
    Where the lowering of a sequence returns, cutting the folds out of the
    lowered sequence raises when cutting them out of the sequence does, and
    gives otherwise what the lowering returns for the remaining blocks and
    for every fold of the sequence; cutting the folds out of an optimized
    sequence raises when cutting them out of the sequence does, and gives
    otherwise the optimized folds and remaining blocks. *)
Theorem expression_passes_extract_folds
    (get_location_info : Location → LocationInfo)
    (ContextField_validate : Location → GraphQLType → result unit)
    (ir_blocks : list Block) :
  (∀ new_ir_blocks,
     lower_context_field_existence get_location_info ContextField_validate
       ir_blocks = Ok new_ir_blocks →
     match extract_folds_from_ir_blocks ir_blocks with
     | Ok (folds, remaining) =>
         ∃ new_folds new_remaining,
           extract_folds_from_ir_blocks new_ir_blocks
           = Ok (new_folds, new_remaining)
           ∧ lower_context_field_existence get_location_info
               ContextField_validate remaining
             = Ok new_remaining
           ∧ Forall2 (fun fold new_fold =>
                        fst new_fold = fst fold
                        ∧ lower_context_field_existence get_location_info
                            ContextField_validate (snd fold)
                          = Ok (snd new_fold))
               folds new_folds
     | Raise e => extract_folds_from_ir_blocks new_ir_blocks = Raise e
     end)
  ∧ extract_folds_from_ir_blocks
      (optimize_boolean_expression_comparisons ir_blocks)
    = (do (folds, remaining) <- extract_folds_from_ir_blocks ir_blocks;
       Ok (map_values optimize_boolean_expression_comparisons folds,
           optimize_boolean_expression_comparisons remaining)).
Proof.
  split.
  - intros r [-> Hvalid]%lower_returns.
    rewrite extract_folds_blockwise_pass; [|by intros []|by intros []].
    destruct (extract_folds_from_ir_blocks ir_blocks) as [[fs rem]|e] eqn:Hrun;
      [|done].
    cbn [bind].
    apply extract_folds_returns in Hrun as (st & Hinv%folds_inv_run & <- & <-).
    eexists _, _. split; [done|]. split.
    + apply (references_valid_infix _ _ ir_blocks); [done|].
      apply sublist_subseteq, (finv_remaining_sub _ _ Hinv).
    + apply Forall2_fmap_r, Forall_Forall2_diag, Forall_forall.
      intros [f body] Hin. split; [done|]. simpl.
      apply (references_valid_infix _ _ ir_blocks); [done|].
      destruct (finv_folds _ _ Hinv f body Hin) as (_ & p & q & ->).
      intros b Hb. apply elem_of_app. right. right.
      apply elem_of_app. by left.
  - rewrite optimize_boolean_expression_comparisons_map,
      extract_folds_blockwise_pass; [|by intros []|by intros []].
    destruct (extract_folds_from_ir_blocks ir_blocks) as [[fs rem]|e]; [|done].
    cbn [bind]. rewrite optimize_boolean_expression_comparisons_map.
    do 2 f_equal. apply map_values_ext. intros body.
    by rewrite optimize_boolean_expression_comparisons_map.
Qed.

(** ** OutputContextVertex: what the rendering raises *)

Section OutputContextVertexFailures.

Variable ContextField_validate : Location → GraphQLType → result unit.
Variable validate_safe_string : string → result unit.

(** X21. What the rendering of an [OutputContextVertex] raises is what the
    validation of the base class raised, or [ValueError] for a location with
    a field component, or what the safe-string check of the mark name raised:
    the assertion error of its last test is never reached. *)
Theorem to_match_raises (location : Location) (field_type : GraphQLType)
    (e : Exception) :
  to_match ContextField_validate validate_safe_string location field_type
  = Raise e →
  ContextField_validate location field_type = Raise e
  ∨ (ContextField_validate location field_type = Ok tt
     ∧ field location ≠ None ∧ e = ValueError)
  ∨ (ContextField_validate location field_type = Ok tt
     ∧ field location = None
     ∧ validate_safe_string (mark_name location) = Raise e).
Proof.
  unfold to_match, OutputContextVertex_validate, get_location_name.
  destruct (ContextField_validate location field_type) as [[]|e0]; simpl.
  - destruct (field location) as [f|] eqn:Hfield; simpl.
    + intros [= <-]. right; left. done.
    + destruct (validate_safe_string (mark_name location)) as [[]|e1]; simpl;
        [done|].
      intros [= <-]. right; right. done.
  - intros [= <-]. by left.
Qed.

End OutputContextVertexFailures.

Lemma to_match_raises_witness :
  (fun _ _ => Ok tt) (mkLocation "Animal___1" (Some "name")) "Animal"
  = Raise ValueError
  ∨ ((fun _ _ => Ok tt) (mkLocation "Animal___1" (Some "name")) "Animal"
     = @Ok unit tt
     ∧ field (mkLocation "Animal___1" (Some "name")) ≠ None
     ∧ ValueError = ValueError)
  ∨ ((fun _ _ => Ok tt) (mkLocation "Animal___1" (Some "name")) "Animal"
     = @Ok unit tt
     ∧ field (mkLocation "Animal___1" (Some "name")) = None
     ∧ (fun _ => @Ok unit tt) (mark_name (mkLocation "Animal___1" (Some "name")))
       = Raise ValueError).
Proof.
  apply (to_match_raises (fun _ _ => Ok tt) (fun _ => Ok tt)
           (mkLocation "Animal___1" (Some "name")) "Animal" ValueError).
  reflexivity.
Defined.

(** ** The analyses of the optional scopes and the other passes *)

Lemma filter_snoc_block (keep : Block → bool) (l : list Block) (b : Block) :
  filter (fun b => keep b = false) (l ++ [b])
  = if keep b then filter (fun b => keep b = false) l
    else filter (fun b => keep b = false) l ++ [b].
Proof.
  rewrite filter_app, filter_cons, filter_nil.
  destruct (keep b); simpl; [by rewrite app_nil_r|done].
Qed.

(** Leaving out blocks that are no markers goes through the cut of the fold
    scopes. *)
Lemma extract_folds_filter (drop : Block → bool) (l : list Block) (st : FoldState) :
  (∀ b, is_fold_marker b = true → drop b = false) →
  for_each extract_folds_step
    (mkFoldState
       (map_values (filter (fun b => drop b = false)) (folds st))
       (filter (fun b => drop b = false) (remaining_ir_blocks st))
       (filter (fun b => drop b = false) (current_folded_blocks st))
       (in_fold_location st))
    (filter (fun b => drop b = false) l)
  = (do st' <- for_each extract_folds_step st l;
     Ok (mkFoldState
           (map_values (filter (fun b => drop b = false)) (folds st'))
           (filter (fun b => drop b = false) (remaining_ir_blocks st'))
           (filter (fun b => drop b = false) (current_folded_blocks st'))
           (in_fold_location st'))).
Proof.
  intros Hmarker. revert st.
  induction l as [|b l IH]; intros [fs rem cur loc]; [done|].
  rewrite filter_cons. cbn [for_each].
  destruct (is_fold_marker b) eqn:Hb.
  - rewrite (Hmarker b Hb). rewrite ?decide_True, ?decide_False by done.
    destruct b as [x | e o | e d | p | f | | | fields], loc as [f0|];
      try done;
      cbn [for_each extract_folds_step bind in_fold_location folds
           remaining_ir_blocks current_folded_blocks];
      try done; rewrite <- IH;
      cbn [in_fold_location folds remaining_ir_blocks current_folded_blocks];
      by rewrite ?map_values_set.
  - rewrite (extract_folds_step_other _ b) by done.
    cbn [in_fold_location folds remaining_ir_blocks current_folded_blocks].
    destruct (drop b) eqn:Hdrop; rewrite ?decide_True, ?decide_False by done;
      cbn [for_each].
    + destruct loc as [f0|]; cbn [bind]; rewrite <- IH;
        cbn [in_fold_location folds remaining_ir_blocks current_folded_blocks];
        by rewrite filter_snoc_block, Hdrop.
    + rewrite (extract_folds_step_other _ b) by done.
      cbn [in_fold_location folds remaining_ir_blocks current_folded_blocks].
      destruct loc as [f0|]; cbn [bind]; rewrite <- IH;
        cbn [in_fold_location folds remaining_ir_blocks current_folded_blocks];
        by rewrite filter_snoc_block, Hdrop.
Qed.

Lemma extract_folds_plain_blocks (l : list Block) :
  extract_folds_from_ir_blocks (plain_blocks l)
  = (do (folds, remaining) <- extract_folds_from_ir_blocks l;
     Ok (map_values plain_blocks folds, plain_blocks remaining)).
Proof.
  unfold extract_folds_from_ir_blocks, plain_blocks.
  pose proof (extract_folds_filter
                (fun b => is_Filter b || is_ConstructResult b) l
                extract_folds_init) as Hrun.
  change (mkFoldState _ _ _ _) with extract_folds_init in Hrun at 1.
  rewrite Hrun by (by intros []).
  by destruct (for_each extract_folds_step extract_folds_init l).
Qed.

Lemma optional_root_step_expression (st : OptionalState) (b : Block) :
  is_Filter b || is_ConstructResult b = true →
  optional_root_step st b = Ok st.
Proof.
  destruct st as [complex mapping roots flags preceding].
  unfold_optional_root_step.
  destruct b; try done; intros _; by rewrite andb_false_r.
Qed.

Lemma optional_root_plain_blocks (l : list Block) (st : OptionalState) :
  for_each optional_root_step st (plain_blocks l)
  = for_each optional_root_step st l.
Proof.
  unfold plain_blocks. revert st. induction l as [|b l IH]; intros st; [done|].
  rewrite filter_cons. destruct (is_Filter b || is_ConstructResult b) eqn:Hb;
    rewrite ?decide_True, ?decide_False by done; cbn [for_each].
  - rewrite optional_root_step_expression by done. apply IH.
  - destruct (optional_root_step st b); [apply IH|done].
Qed.

Lemma simple_optional_plain_blocks (root_to_inner : dict Location Location)
    (l : list Block) (st : dict Location SimpleOptionalInfo * option Location) :
  for_each (simple_optional_step root_to_inner) st (plain_blocks l)
  = for_each (simple_optional_step root_to_inner) st l.
Proof.
  unfold plain_blocks. revert st. induction l as [|b l IH]; intros st; [done|].
  rewrite filter_cons. destruct (is_Filter b || is_ConstructResult b) eqn:Hb;
    rewrite ?decide_True, ?decide_False by done; cbn [for_each].
  - assert (simple_optional_step root_to_inner st b = Ok st) as ->.
    { destruct st. by destruct b. }
    apply IH.
  - destruct (simple_optional_step root_to_inner st b); [apply IH|done].
Qed.

Lemma plain_blocks_other_blocks (l : list Block) :
  plain_blocks l = filter (fun b => is_ConstructResult b = false) (other_blocks l).
Proof.
  unfold plain_blocks, other_blocks. induction l as [|b l IH]; [done|].
  rewrite !filter_cons, IH. destruct b; by rewrite ?filter_cons.
Qed.

Lemma plain_blocks_blockwise (g : Block → Block) (l : list Block) :
  (∀ b, is_Filter b || is_ConstructResult b = false → g b = b) →
  (∀ b, is_Filter b || is_ConstructResult b = true →
        is_Filter (g b) || is_ConstructResult (g b) = true) →
  plain_blocks (g <$> l) = plain_blocks l.
Proof.
  intros Hplain Hexpr. unfold plain_blocks.
  induction l as [|b l IH]; [done|].
  rewrite fmap_cons, !filter_cons, IH.
  destruct (is_Filter b || is_ConstructResult b) eqn:Hb.
  - by rewrite (Hexpr b Hb).
  - by rewrite (Hplain b Hb), Hb.
Qed.

Lemma plain_blocks_passes (get_location_info : Location → LocationInfo)
    (ContextField_validate : Location → GraphQLType → result unit)
    (l : list Block) :
  plain_blocks (merge_consecutive_filter_clauses l) = plain_blocks l
  ∧ (∀ lowered_blocks,
       lower_context_field_existence get_location_info ContextField_validate l
       = Ok lowered_blocks →
       plain_blocks lowered_blocks = plain_blocks l)
  ∧ plain_blocks (optimize_boolean_expression_comparisons l) = plain_blocks l.
Proof.
  split; [|split].
  - rewrite !plain_blocks_other_blocks.
    by destruct (merge_shape (length l) l) as (_ & -> & _).
  - intros r [-> _]%lower_returns.
    apply plain_blocks_blockwise; by intros [].
  - rewrite optimize_boolean_expression_comparisons_map.
    apply plain_blocks_blockwise; by intros [].
Qed.

Lemma extract_optional_location_root_info_plain (l : list Block) :
  extract_optional_location_root_info (plain_blocks l)
  = extract_optional_location_root_info l.
Proof.
  unfold extract_optional_location_root_info.
  rewrite extract_folds_plain_blocks.
  destruct (extract_folds_from_ir_blocks l) as [[fs nf]|e]; [|done].
  cbn [bind]. by rewrite optional_root_plain_blocks.
Qed.

Lemma extract_simple_optional_location_info_plain (l : list Block)
    (complex : list Location) (mapping : dict Location (list Location)) :
  extract_simple_optional_location_info (plain_blocks l) complex mapping
  = extract_simple_optional_location_info l complex mapping.
Proof.
  unfold extract_simple_optional_location_info.
  destruct (location_to_preceding_optional_root mapping) as [items|e]; [|done].
  cbn [bind]. rewrite extract_folds_plain_blocks.
  destruct (extract_folds_from_ir_blocks l) as [[fs nf]|e]; [|done].
  cbn [bind]. by rewrite simple_optional_plain_blocks.
Qed.

(** X22. The analysis of the optional scopes looks at no [Filter] and at no
    [ConstructResult]: two sequences with the same other blocks have the same
    analysis (the same results, or the same error), so that the analysis of a
    sequence is also the analysis of the sequence with its [Filter]s merged,
    of what the lowering of the sequence returns, where it returns, and of
    the optimized sequence. *)
Theorem extract_optional_location_root_info_passes
    (get_location_info : Location → LocationInfo)
    (ContextField_validate : Location → GraphQLType → result unit)
    (ir_blocks : list Block) :
  (∀ other, plain_blocks ir_blocks = plain_blocks other →
            extract_optional_location_root_info ir_blocks
            = extract_optional_location_root_info other)
  ∧ extract_optional_location_root_info
      (merge_consecutive_filter_clauses ir_blocks)
    = extract_optional_location_root_info ir_blocks
  ∧ (∀ lowered_blocks,
       lower_context_field_existence get_location_info ContextField_validate
         ir_blocks = Ok lowered_blocks →
       extract_optional_location_root_info lowered_blocks
       = extract_optional_location_root_info ir_blocks)
  ∧ extract_optional_location_root_info
      (optimize_boolean_expression_comparisons ir_blocks)
    = extract_optional_location_root_info ir_blocks.
Proof.
  assert (Hsame : ∀ l other, plain_blocks l = plain_blocks other →
            extract_optional_location_root_info l
            = extract_optional_location_root_info other).
  { intros l other Heq.
    by rewrite <- (extract_optional_location_root_info_plain l), Heq,
      extract_optional_location_root_info_plain. }
  destruct (plain_blocks_passes get_location_info ContextField_validate
              ir_blocks) as (Hmerge & Hlower & Hoptimize).
  split; [apply Hsame|]. split; [by apply Hsame|]. split; [|by apply Hsame].
  intros r Hr. by apply Hsame, Hlower.
Qed.

(** X23. The classification of the optional roots looks at no [Filter] and
    at no [ConstructResult] either: for the same complex roots and mapping,
    two sequences with the same other blocks are classified alike, and so are
    a sequence and the sequence with its [Filter]s merged, what the lowering
    of the sequence returns, where it returns, and the optimized sequence. *)
Theorem extract_simple_optional_location_info_passes
    (get_location_info : Location → LocationInfo)
    (ContextField_validate : Location → GraphQLType → result unit)
    (ir_blocks : list Block)
    (complex : list Location) (mapping : dict Location (list Location)) :
  (∀ other, plain_blocks ir_blocks = plain_blocks other →
            extract_simple_optional_location_info ir_blocks complex mapping
            = extract_simple_optional_location_info other complex mapping)
  ∧ extract_simple_optional_location_info
      (merge_consecutive_filter_clauses ir_blocks) complex mapping
    = extract_simple_optional_location_info ir_blocks complex mapping
  ∧ (∀ lowered_blocks,
       lower_context_field_existence get_location_info ContextField_validate
         ir_blocks = Ok lowered_blocks →
       extract_simple_optional_location_info lowered_blocks complex mapping
       = extract_simple_optional_location_info ir_blocks complex mapping)
  ∧ extract_simple_optional_location_info
      (optimize_boolean_expression_comparisons ir_blocks) complex mapping
    = extract_simple_optional_location_info ir_blocks complex mapping.
Proof.
  assert (Hsame : ∀ l other, plain_blocks l = plain_blocks other →
            extract_simple_optional_location_info l complex mapping
            = extract_simple_optional_location_info other complex mapping).
  { intros l other Heq.
    by rewrite <- (extract_simple_optional_location_info_plain l), Heq,
      extract_simple_optional_location_info_plain. }
  destruct (plain_blocks_passes get_location_info ContextField_validate
              ir_blocks) as (Hmerge & Hlower & Hoptimize).
  split; [apply Hsame|]. split; [by apply Hsame|]. split; [|by apply Hsame].
  intros r Hr. by apply Hsame, Hlower.
Qed.

(** ** remove_end_optionals and the analyses of the optional scopes *)

Lemma extract_folds_remove_end_optionals (l : list Block) :
  extract_folds_from_ir_blocks (remove_end_optionals l)
  = (do (folds, remaining) <- extract_folds_from_ir_blocks l;
     Ok (map_values remove_end_optionals folds, remove_end_optionals remaining)).
Proof.
  unfold extract_folds_from_ir_blocks.
  pose proof (extract_folds_without_end_optionals l extract_folds_init) as Hrun.
  change (mkFoldState _ _ _ _) with extract_folds_init in Hrun at 1.
  rewrite Hrun.
  by destruct (for_each extract_folds_step extract_folds_init l).
Qed.

Lemma simple_optional_without_end_optionals
    (root_to_inner : dict Location Location) (l : list Block)
    (st : dict Location SimpleOptionalInfo * option Location) :
  for_each (simple_optional_step root_to_inner) st (remove_end_optionals l)
  = for_each (simple_optional_step root_to_inner) st l.
Proof.
  revert st. induction l as [|b l IH]; intros st; [done|].
  rewrite remove_end_optionals_cons.
  destruct (is_EndOptional b) eqn:Hb; cbn [for_each].
  - assert (simple_optional_step root_to_inner st b = Ok st) as ->.
    { destruct st. by destruct b. }
    apply IH.
  - destruct (simple_optional_step root_to_inner st b); [apply IH|done].
Qed.

(** X24. [remove_end_optionals] and the two analyses: the classification of
    the optional roots does not look at the [EndOptional] blocks, it gives the
    same for a sequence with and without them; the analysis of the optional
    scopes needs them, since on a sequence without them it closes no scope and
    reports no complex root. *)
Theorem remove_end_optionals_analyses (ir_blocks : list Block)
    (complex : list Location) (mapping : dict Location (list Location)) :
  extract_simple_optional_location_info (remove_end_optionals ir_blocks)
    complex mapping
  = extract_simple_optional_location_info ir_blocks complex mapping
  ∧ ∀ complex' mapping',
      extract_optional_location_root_info (remove_end_optionals ir_blocks)
      = Ok (complex', mapping') →
      complex' = [].
Proof.
  split.
  - unfold extract_simple_optional_location_info.
    destruct (location_to_preceding_optional_root mapping) as [items|e]; [|done].
    cbn [bind]. rewrite extract_folds_remove_end_optionals.
    destruct (extract_folds_from_ir_blocks ir_blocks) as [[fs nf]|e]; [|done].
    cbn [bind]. by rewrite simple_optional_without_end_optionals.
  - intros complex' mapping' Hroot.
    assert (Hfolds : ∃ fs nf,
              extract_folds_from_ir_blocks (remove_end_optionals ir_blocks)
              = Ok (fs, nf)).
    { unfold extract_optional_location_root_info in Hroot.
      destruct (extract_folds_from_ir_blocks (remove_end_optionals ir_blocks))
        as [[fs nf]|e]; [|done].
      by exists fs, nf. }
    destruct Hfolds as (fs & nf & Hfolds).
    pose proof (optional_root_info_run _ _ _ Hfolds) as Hrun.
    rewrite Hroot in Hrun. destruct Hrun as (_ & st & Hinv & -> & _).
    destruct (complex_optional_roots st) as [|R rest] eqn:Hcomplex; [done|].
    assert (HR : R ∈ complex_optional_roots st) by (rewrite Hcomplex; by left).
    apply (inv_complex _ _ Hinv) in HR as (pre & e & body & post & Hnf & _).
    destruct (extract_folds_returns _ _ _ Hfolds)
      as (fst' & Hsub%folds_inv_run%finv_remaining_sub & _ & Hrem).
    rewrite Hrem in Hsub.
    destruct (remove_end_optionals_none ir_blocks).
    apply (sublist_subseteq _ _ Hsub). rewrite Hnf.
    apply elem_of_app. right. right. apply elem_of_app. right. by left.
Qed.
